(** * ResizeObserver polyfill: the call coalescer and the update controller

    A shallow embedding of [utils/throttle.js] (the call coalescer) and of
    [ResizeObserverController.js] (the update controller), together with the
    single-threaded event loop they run on, and the properties the
    specification states about them. *)

From Stdlib Require Import List Arith Lia Bool ZArith.
Import ListNotations.

Set Implicit Arguments.

(** ** The event loop

    JavaScript runs one task at a time.  [setTimeout (f, d)] queues [f] to run
    in a later task, no earlier than [d] time units from now;
    [requestAnimFrame f] (the shim imported by [throttle.js]) queues [f] to
    run in a later animation-frame task.  Neither runs [f] during the call. *)

Module EventLoop.

Section Loop.
Variable task : Type.

Record loop := mkLoop {
  now : nat;                     (* the clock *)
  timers : list (nat * task);    (* pending timeouts: due time, callback *)
  frames : list task             (* pending animation-frame callbacks *)
}.

Definition empty : loop := mkLoop 0 [] [].

Definition set_now (t : nat) (l : loop) : loop :=
  mkLoop t (timers l) (frames l).
Definition set_timers (ts : list (nat * task)) (l : loop) : loop :=
  mkLoop (now l) ts (frames l).
Definition set_frames (fs : list task) (l : loop) : loop :=
  mkLoop (now l) (timers l) fs.

Definition setTimeout (f : task) (delay : nat) (l : loop) : loop :=
  set_timers (timers l ++ [(now l + delay, f)]) l.

(** Modelled from the spec: the shim [shims/requestAnimationFrame] that
    [throttle.js] imports is not among the sources.  The specification has it
    as "an animation-frame scheduling primitive (schedule a one-shot callback
    to run before the next paint)": the callback is queued and runs in a later
    task of its own. *)
Definition requestAnimFrame (f : task) (l : loop) : loop :=
  set_frames (frames l ++ [f]) l.

(** The timeout that runs next: the one due first, the one queued first
    among those due together.  Returned with the remaining timeouts. *)
Fixpoint take_min (ts : list (nat * task))
  : option ((nat * task) * list (nat * task)) :=
  match ts with
  | [] => None
  | x :: r =>
      match take_min r with
      | None => Some (x, [])
      | Some (y, r') =>
          if fst x <=? fst y then Some (x, r) else Some (y, x :: r')
      end
  end.

End Loop.

Arguments empty {task}.

End EventLoop.

Import EventLoop.

(** ** [utils/throttle.js]

    [throttle (callback, delay, afterRAF)] returns the closure [proxy], which
    shares the two captured variables [leadCall] and [edgeCall] with the inner
    functions [invokeCallback] and [timeoutCallback].  The closure is embedded
    over any world [W] that holds the two captured variables and an event
    loop; [C] is the type of a call record [[this, args]]. *)

Module Throttle.

Section Closure.
Context {W C : Type}.
(* the captured variables *)
Variable get_leadCall : W -> option C.
Variable set_leadCall : option C -> W -> W.
Variable get_edgeCall : W -> option C.
Variable set_edgeCall : option C -> W -> W.
(* callback.apply(...callData) *)
Variable callback : C -> W -> W.
Variable delay : nat.
Variable afterRAF : bool.
(* setTimeout(timeoutCallback, d) and requestAnimFrame(invokeCallback) *)
Variable schedule_timeoutCallback : nat -> W -> W.
Variable schedule_invokeCallback : W -> W.

(** A call record is an array, hence truthy; [null] is falsy. *)
Definition proxy (callData : C) (w : W) : W :=
  match get_leadCall w with
  | Some _ => set_edgeCall (Some callData) w
  | None =>
      let w := set_leadCall (Some callData) w in
      schedule_timeoutCallback delay w
  end.

(** [callback.apply(...null)] throws a TypeError before anything is
    changed: the task ends and the world is as it was. *)
Definition invokeCallback (w : W) : W :=
  match get_leadCall w with
  | None => w
  | Some lead =>
      let w := callback lead w in
      let w := set_leadCall None w in
      match get_edgeCall w with
      | Some edge =>
          let w := proxy edge w in
          set_edgeCall None w
      | None => w
      end
  end.

Definition timeoutCallback (w : W) : W :=
  if afterRAF then schedule_invokeCallback w else invokeCallback w.
End Closure.

End Throttle.

(** ** Predicates on lists *)

Section ListPredicates.
Context {A : Type}.

(** [l1] is [l2] with some elements left out. *)
Inductive subseq : list A -> list A -> Prop :=
| subseq_nil : subseq [] []
| subseq_skip x l1 l2 : subseq l1 l2 -> subseq l1 (x :: l2)
| subseq_keep x l1 l2 : subseq l1 l2 -> subseq (x :: l1) (x :: l2).
End ListPredicates.

(** Consecutive elements are at least [d] apart. *)
Fixpoint spaced (d : nat) (ts : list nat) : Prop :=
  match ts with
  | t1 :: (t2 :: _) as r => t1 + d <= t2 /\ spaced d r
  | _ => True
  end.

(** ** One coalescer on the event loop

    The world of a single [throttle (callback, delay, afterRAF)] instance.
    The wrapped callback is external code: its invocations are recorded in
    [log] with the time they happen, and it may itself call the proxy while it
    runs ([reenter], a function of everything the callback has seen so far,
    lists those calls in order). *)

Module Coalescer.

Inductive task := timeoutCallback_task | invokeCallback_task.

Section World.
Variables This Arg : Type.

(* const callData = [this, args] *)
Definition callData : Type := This * list Arg.

Record world := mkWorld {
  leadCall : option callData;
  edgeCall : option callData;
  ev : loop task;
  log : list (nat * callData)
}.

Definition set_leadCall (v : option callData) (w : world) : world :=
  mkWorld v (edgeCall w) (ev w) (log w).
Definition set_edgeCall (v : option callData) (w : world) : world :=
  mkWorld (leadCall w) v (ev w) (log w).
Definition set_ev (l : loop task) (w : world) : world :=
  mkWorld (leadCall w) (edgeCall w) l (log w).
Definition set_log (l : list (nat * callData)) (w : world) : world :=
  mkWorld (leadCall w) (edgeCall w) (ev w) l.

Variable reenter : list (nat * callData) -> list callData.
Variable delay : nat.
Variable afterRAF : bool.

Definition proxy : callData -> world -> world :=
  Throttle.proxy leadCall set_leadCall set_edgeCall delay
    (fun d w => set_ev (setTimeout timeoutCallback_task d (ev w)) w).

Definition callback (c : callData) (w : world) : world :=
  let w := set_log (log w ++ [(now (ev w), c)]) w in
  fold_left (fun w c' => proxy c' w) (reenter (log w)) w.

Definition invokeCallback : world -> world :=
  Throttle.invokeCallback leadCall set_leadCall edgeCall set_edgeCall
    callback delay
    (fun d w => set_ev (setTimeout timeoutCallback_task d (ev w)) w).

Definition timeoutCallback : world -> world :=
  Throttle.timeoutCallback leadCall set_leadCall edgeCall set_edgeCall
    callback delay afterRAF
    (fun d w => set_ev (setTimeout timeoutCallback_task d (ev w)) w)
    (fun w => set_ev (requestAnimFrame invokeCallback_task (ev w)) w).

(** let leadCall = null, edgeCall = null; nothing is scheduled. *)
Definition init : world := mkWorld None None empty [].

Definition run_task (k : task) : world -> world :=
  match k with
  | timeoutCallback_task => timeoutCallback
  | invokeCallback_task => invokeCallback
  end.

(** What a task of the event loop can be: a caller invoking the proxy, the
    next timeout, the next animation-frame callback. *)
Inductive action :=
| Call (c : callData)
| Timer
| Frame.

(** A task that starts at time [t].  The clock never runs backwards and a
    timeout never runs before it is due, but it may run late; two tasks may
    start at the same reading of the clock. *)
Definition step (la : nat * action) (w : world) : option world :=
  let (t, a) := la in
  if t <? now (ev w) then None else
  let w := set_ev (set_now t (ev w)) w in
  match a with
  | Call c => Some (proxy c w)
  | Timer =>
      match take_min (timers (ev w)) with
      | Some ((due, k), rest) =>
          if due <=? t
          then Some (run_task k (set_ev (set_timers rest (ev w)) w))
          else None
      | None => None
      end
  | Frame =>
      match frames (ev w) with
      | k :: rest => Some (run_task k (set_ev (set_frames rest (ev w)) w))
      | [] => None
      end
  end.

Fixpoint run (s : list (nat * action)) (w : world) : option world :=
  match s with
  | [] => Some w
  | la :: s' =>
      match step la w with
      | Some w' => run s' w'
      | None => None
      end
  end.

Definition reachable (w : world) : Prop :=
  exists s, run s init = Some w.

(** The earliest schedule: the task the event loop runs next when no caller
    interferes and nothing delays it, a pending animation-frame callback at
    the present clock reading, else the next timeout at the time it is due.
    [step] and [run] allow any later time. *)
Definition next_task (w : world) : option (nat * action) :=
  match frames (ev w) with
  | _ :: _ => Some (now (ev w), Frame)
  | [] =>
      match take_min (timers (ev w)) with
      | Some ((due, _), _) => Some (Nat.max (now (ev w)) due, Timer)
      | None => None
      end
  end.

Fixpoint drain (fuel : nat) (w : world) : world :=
  match fuel with
  | 0 => w
  | S n =>
      match next_task w with
      | None => w
      | Some la =>
          match step la w with
          | Some w' => drain n w'
          | None => w
          end
      end
  end.

Definition quiescent (w : world) : Prop :=
  leadCall w = None /\ edgeCall w = None /\
  timers (ev w) = [] /\ frames (ev w) = [].

(** The calls a script issues, and the times they are issued at. *)
Fixpoint calls (s : list (nat * action)) : list (nat * callData) :=
  match s with
  | [] => []
  | (t, Call c) :: s' => (t, c) :: calls s'
  | _ :: s' => calls s'
  end.

Definition invoked (w : world) : list callData := map snd (log w).
Definition fired_at (w : world) : list nat := map fst (log w).

Definition call_times (s : list (nat * action)) : list nat :=
  map fst (calls s).
Definition issued (s : list (nat * action)) : list callData :=
  map snd (calls s).

(** The calls the wrapped callback itself made to the proxy during a task
    from [w] to [w']: the task has invoked it exactly when the log has grown,
    and it then made the calls [reenter] lists for what it has seen. *)
Definition own_calls (w w' : world) : list callData :=
  if length (log w) <? length (log w') then reenter (log w') else [].

(** The calls made to the proxy during the task [a] at [t], by a caller or
    by the callback. *)
Definition made (t : nat) (a : action) (w w' : world)
  : list (nat * callData) :=
  match a with
  | Call c => [(t, c)]
  | _ => map (pair t) (own_calls w w')
  end.

(** Every call made to the proxy during a run from [w], the callback's own
    included, in the order they were made, each with its time. *)
Fixpoint all_calls (s : list (nat * action)) (w : world)
  : list (nat * callData) :=
  match s with
  | [] => []
  | (t, a) :: s' =>
      match step (t, a) w with
      | Some w' => made t a w w' ++ all_calls s' w'
      | None => []
      end
  end.

(** From [w] on the callback makes no call of its own, whatever it is
    invoked with. *)
Definition settled (w : world) : Prop :=
  forall x h, reenter (log w ++ x :: h) = [].

(** Time from the first call to the last. *)
Definition span (ts : list nat) : nat := last ts 0 - hd 0 ts.

(** Each call is issued within less than [d] of the previous one. *)
Fixpoint gaps_below (d : nat) (ts : list nat) : Prop :=
  match ts with
  | t1 :: (t2 :: _) as r => t2 - t1 < d /\ gaps_below d r
  | _ => True
  end.

(** Division rounded up. *)
Definition ceil_div (a b : nat) : nat := (a + b - 1) / b.

(** *** Invariants of the reachable worlds *)

(** [edgeCall] after the callback has called the proxy with [cs], in
    order, while [leadCall] is set. *)
Definition edge_after (cs : list callData) (e : option callData)
  : option callData :=
  fold_left (fun _ c => Some c) cs e.

Definition lastfire (w : world) : nat := last (fired_at w) 0.

(** With no lead call nothing is pending; with one, exactly one task is:
    its timeout, or (frame-deferred) its animation-frame callback. *)
Definition pending_ok (w : world) : Prop :=
  match leadCall w with
  | None =>
      edgeCall w = None /\ timers (ev w) = [] /\ frames (ev w) = []
  | Some _ =>
      (exists due,
          timers (ev w) = [(due, timeoutCallback_task)] /\
          frames (ev w) = [] /\ lastfire w + delay <= due)
      \/
      (afterRAF = true /\ timers (ev w) = [] /\
       frames (ev w) = [invokeCallback_task] /\
       lastfire w + delay <= now (ev w))
  end.

Definition inv (w : world) : Prop :=
  pending_ok w /\ spaced delay (fired_at w) /\ lastfire w <= now (ev w).

Definition opt_list (o : option callData) : list callData :=
  match o with
  | Some c => [c]
  | None => []
  end.

(** The calls waiting to be invoked, oldest first. *)
Definition pendlist (w : world) : list callData :=
  opt_list (leadCall w) ++ opt_list (edgeCall w).
Definition pend (w : world) : nat := length (pendlist w).

(** The world after the lead call [l] has fired at time [t] with nothing else
    queued. *)
Definition fired (t : nat) (l : callData) (w : world) : world :=
  let lg := log w ++ [(t, l)] in
  match edge_after (reenter lg) (edgeCall w) with
  | Some e =>
      mkWorld (Some e) None
        (mkLoop t [(t + delay, timeoutCallback_task)] []) lg
  | None => mkWorld None None (mkLoop t [] []) lg
  end.

(** The tasks a reachable world can run, and what each does. *)
Inductive transition (w : world) : nat * action -> world -> Prop :=
| T_lead t c :
    now (ev w) <= t -> leadCall w = None ->
    transition w (t, Call c)
      (mkWorld (Some c) None
         (mkLoop t [(t + delay, timeoutCallback_task)] []) (log w))
| T_edge t c l :
    now (ev w) <= t -> leadCall w = Some l ->
    transition w (t, Call c)
      (mkWorld (Some l) (Some c) (set_now t (ev w)) (log w))
| T_defer t l due :
    afterRAF = true -> now (ev w) <= t -> leadCall w = Some l ->
    timers (ev w) = [(due, timeoutCallback_task)] -> due <= t ->
    transition w (t, Timer)
      (mkWorld (Some l) (edgeCall w)
         (mkLoop t [] [invokeCallback_task]) (log w))
| T_fire_timer t l due :
    afterRAF = false -> now (ev w) <= t -> leadCall w = Some l ->
    timers (ev w) = [(due, timeoutCallback_task)] -> due <= t ->
    transition w (t, Timer) (fired t l w)
| T_fire_frame t l :
    afterRAF = true -> now (ev w) <= t -> leadCall w = Some l ->
    frames (ev w) = [invokeCallback_task] ->
    transition w (t, Frame) (fired t l w).

(** Counting firings, with [bound] for their number, against the time of
    the first call [t1] and of the latest call [tl]. *)
Definition count_inv (bound t1 tl : nat) (w : world) : Prop :=
  length (log w) + pend w <= bound /\
  t1 + length (log w) * delay <= now (ev w) /\
  t1 <= tl /\ tl <= now (ev w) /\
  (forall due k, In (due, k) (timers (ev w)) ->
                 t1 + S (length (log w)) * delay <= due) /\
  (frames (ev w) <> [] -> t1 + S (length (log w)) * delay <= now (ev w)).

Definition count_all (bnd : nat -> nat) (ts : list nat) (w : world) : Prop :=
  match ts with
  | [] => leadCall w = None /\ log w = []
  | t1 :: _ => count_inv (bnd (last ts 0 - t1)) t1 (last ts 0) w
  end.

(** The two bounds on the number of firings, as functions of the span. *)
Definition floor_bound (x : nat) : nat := x / delay + 2.
Definition ceil_bound (x : nat) : nat := ceil_div x delay + 1.

(** Each task starts strictly later than the one before. *)
Fixpoint increasing (ts : list nat) : Prop :=
  match ts with
  | t1 :: (t2 :: _) as r => t1 < t2 /\ increasing r
  | _ => True
  end.

Definition task_times (s : list (nat * action)) : list nat := map fst s.

(** The tasks still to run before a world left alone is quiescent. *)
Definition tasks_per_firing : nat := if afterRAF then 2 else 1.

Definition tasks_left (w : world) : nat :=
  match leadCall w with
  | None => 0
  | Some _ =>
      (match frames (ev w) with
       | [] => tasks_per_firing
       | _ :: _ => 1
       end)
      + (match edgeCall w with
         | Some _ => tasks_per_firing
         | None => 0
         end)
  end.

(** What has been invoked and what is waiting make up, in order, a selection
    of the calls issued [cs] that keeps the first and the last of them. *)
Definition last_kept (cs : list callData) (w : world) : Prop :=
  subseq (invoked w ++ pendlist w) cs /\
  (forall pre c, cs = pre ++ [c] ->
                 exists pre', invoked w ++ pendlist w = pre' ++ [c]) /\
  (forall c rest, cs = c :: rest ->
                  exists rest', invoked w ++ pendlist w = c :: rest').
End World.

Arguments Call {This Arg}.
Arguments Timer {This Arg}.
Arguments Frame {This Arg}.
Arguments init {This Arg}.

(** A callback that never calls the proxy, and small call records, for
    running the coalescer on examples. *)
Definition quiet_callback (h : list (nat * callData unit nat))
  : list (callData unit nat) := [].

Definition call_with (n : nat) : callData unit nat := (tt, [n]).

(** Two calls at the same instant, delay 10, fire twice, at 10 and at 20. *)
Definition two_calls_script : list (nat * action unit nat) :=
  [(0, Call (call_with 1)); (0, Call (call_with 2)); (10, Timer); (20, Timer)].

(** The world that run ends in. *)
Definition two_calls_world : world unit nat :=
  mkWorld None None (mkLoop 20 [] [])
    [(10, call_with 1); (20, call_with 2)].

(** Three calls within one delay window, the timeout still pending. *)
Definition three_calls_script : list (nat * action unit nat) :=
  [(0, Call (call_with 1)); (3, Call (call_with 2)); (4, Call (call_with 3))].

(** The world that run ends in: the second call was overwritten. *)
Definition three_calls_world : world unit nat :=
  mkWorld (Some (call_with 1)) (Some (call_with 3))
    (mkLoop 4 [(10, timeoutCallback_task)] []) [].

(** A callback that calls the proxy once, with 99, when it is invoked for
    the first time. *)
Definition once_callback (h : list (nat * callData unit nat))
  : list (callData unit nat) :=
  match h with
  | [_] => [call_with 99]
  | _ => []
  end.

(** Delay 10, not frame-deferred: one call, and its firing at 10, in which
    the callback makes its own call. *)
Definition once_script : list (nat * action unit nat) :=
  [(0, Call (call_with 1)); (10, Timer)].

(** The world that run ends in: the callback's call is the lead call. *)
Definition once_world : world unit nat :=
  mkWorld (Some (call_with 99)) None (mkLoop 10 [(20, timeoutCallback_task)] [])
    [(10, call_with 1)].

(** Delay 10, not frame-deferred: two calls, then the firing at 10 in which
    the callback makes its own call, which supersedes the second call and
    fires at 20. *)
Definition busy_script : list (nat * action unit nat) :=
  [(0, Call (call_with 1)); (5, Call (call_with 2)); (10, Timer); (20, Timer)].

Definition busy_world : world unit nat :=
  mkWorld None None (mkLoop 20 [] [])
    [(10, call_with 1); (20, call_with 99)].

(** Frame-deferred, delay 10: two calls at once, the timeouts run on time
    and the animation frames a little later; the callback fires at 12 and at
    25. *)
Definition frame_script : list (nat * action unit nat) :=
  [(0, Call (call_with 1)); (0, Call (call_with 2));
   (10, Timer); (12, Frame); (22, Timer); (25, Frame)].

Definition frame_world : world unit nat :=
  mkWorld None None (mkLoop 25 [] [])
    [(12, call_with 1); (25, call_with 2)].

End Coalescer.

(** ** [ResizeObserverController.js]

    The controller with its two coalescers on the event loop.  What the
    module imports or finds in its environment is a parameter: [isBrowser]
    ([utils/isBrowser]), [mutationsSupported]
    ([typeof MutationObserver === 'function']), and the observers it drives,
    each with the three methods the controller calls. *)

Module Controller.

(** A connected [ResizeObserver], known by its identity. *)
Definition observer : Type := nat.

(** The [this] of a call to [refresh]: the controller itself, the window (a
    "resize" event), or the mutation observer (a batch of mutations). *)
Inductive receiver := the_controller | the_window | the_mutation_observer.

(* const callData = [this, args] *)
Definition callData : Type := receiver * list nat.

(** The two closures the constructor makes with [throttle]. *)
Inductive throttled := refresh_throttle | continuous_throttle.

Inductive task :=
| timeoutCallback_task (f : throttled)
| invokeCallback_task (f : throttled).

(** The variables [leadCall] and [edgeCall] one closure captures. *)
Record captured := mkCaptured {
  leadCall : option callData;
  edgeCall : option callData
}.

(** What the controller does to its environment and to its observers. *)
Inductive event :=
| AddResizeListener
| RemoveResizeListener
| ObserveMutations
| DisconnectMutations
| GatherActive (o : observer)
| HasActive (o : observer) (active : bool)
| BroadcastActive (o : observer)
| RefreshPass.

(** The observers' side of the contract, over the state [P] of the page
    they measure: [gatherActive] and [broadcastActive] act on it,
    [hasActive] reads it.  These are the sessions whose methods make no call
    to the controller; sessions that connect, disconnect or refresh from
    inside a method are [Live.LiveSession], below. *)
Class Session (P : Type) := {
  gatherActive : observer -> P -> P;
  hasActive : observer -> P -> bool;
  broadcastActive : observer -> P -> P
}.

Section Controller.
Context {P : Type} {sessions : Session P}.
Variable isBrowser : bool.
Variable mutationsSupported : bool.

Record world := mkWorld {
  _isCycleContinuous : bool;
  _listenersEnabled : bool;
  _mutationsObserver : bool;      (* holds a MutationObserver that observes *)
  _observers : list observer;
  refresh_calls : captured;       (* captured by this.refresh *)
  continuous_calls : captured;    (* captured by this._continuousUpdateHandler *)
  ev : loop task;
  resize_listener : bool;         (* this.refresh listens to window "resize" *)
  page : P;
  trace : list event
}.

Definition set_isCycleContinuous (v : bool) (w : world) : world :=
  mkWorld v (_listenersEnabled w) (_mutationsObserver w) (_observers w)
    (refresh_calls w) (continuous_calls w) (ev w) (resize_listener w)
    (page w) (trace w).
Definition set_listenersEnabled (v : bool) (w : world) : world :=
  mkWorld (_isCycleContinuous w) v (_mutationsObserver w) (_observers w)
    (refresh_calls w) (continuous_calls w) (ev w) (resize_listener w)
    (page w) (trace w).
Definition set_mutationsObserver (v : bool) (w : world) : world :=
  mkWorld (_isCycleContinuous w) (_listenersEnabled w) v (_observers w)
    (refresh_calls w) (continuous_calls w) (ev w) (resize_listener w)
    (page w) (trace w).
Definition set_observers (v : list observer) (w : world) : world :=
  mkWorld (_isCycleContinuous w) (_listenersEnabled w) (_mutationsObserver w)
    v (refresh_calls w) (continuous_calls w) (ev w) (resize_listener w)
    (page w) (trace w).
Definition set_refresh_calls (v : captured) (w : world) : world :=
  mkWorld (_isCycleContinuous w) (_listenersEnabled w) (_mutationsObserver w)
    (_observers w) v (continuous_calls w) (ev w) (resize_listener w)
    (page w) (trace w).
Definition set_continuous_calls (v : captured) (w : world) : world :=
  mkWorld (_isCycleContinuous w) (_listenersEnabled w) (_mutationsObserver w)
    (_observers w) (refresh_calls w) v (ev w) (resize_listener w)
    (page w) (trace w).
Definition set_ev (v : loop task) (w : world) : world :=
  mkWorld (_isCycleContinuous w) (_listenersEnabled w) (_mutationsObserver w)
    (_observers w) (refresh_calls w) (continuous_calls w) v
    (resize_listener w) (page w) (trace w).
Definition set_resize_listener (v : bool) (w : world) : world :=
  mkWorld (_isCycleContinuous w) (_listenersEnabled w) (_mutationsObserver w)
    (_observers w) (refresh_calls w) (continuous_calls w) (ev w) v
    (page w) (trace w).
Definition set_page (v : P) (w : world) : world :=
  mkWorld (_isCycleContinuous w) (_listenersEnabled w) (_mutationsObserver w)
    (_observers w) (refresh_calls w) (continuous_calls w) (ev w)
    (resize_listener w) v (trace w).
Definition set_trace (v : list event) (w : world) : world :=
  mkWorld (_isCycleContinuous w) (_listenersEnabled w) (_mutationsObserver w)
    (_observers w) (refresh_calls w) (continuous_calls w) (ev w)
    (resize_listener w) (page w) v.

Definition record (e : event) (w : world) : world :=
  set_trace (trace w ++ [e]) w.

(** The captured variables of each closure, as the closure reads and
    writes them. *)
Definition calls_of (f : throttled) (w : world) : captured :=
  match f with
  | refresh_throttle => refresh_calls w
  | continuous_throttle => continuous_calls w
  end.

Definition set_calls_of (f : throttled) (v : captured) (w : world) : world :=
  match f with
  | refresh_throttle => set_refresh_calls v w
  | continuous_throttle => set_continuous_calls v w
  end.

Definition get_lead (f : throttled) (w : world) : option callData :=
  leadCall (calls_of f w).
Definition get_edge (f : throttled) (w : world) : option callData :=
  edgeCall (calls_of f w).
Definition set_lead (f : throttled) (v : option callData) (w : world)
  : world :=
  set_calls_of f (mkCaptured v (edgeCall (calls_of f w))) w.
Definition set_edge (f : throttled) (v : option callData) (w : world)
  : world :=
  set_calls_of f (mkCaptured (leadCall (calls_of f w)) v) w.

Definition schedule_timeoutCallback (f : throttled) (d : nat) (w : world)
  : world :=
  set_ev (setTimeout (timeoutCallback_task f) d (ev w)) w.
Definition schedule_invokeCallback (f : throttled) (w : world) : world :=
  set_ev (requestAnimFrame (invokeCallback_task f) (ev w)) w.

(** this.refresh = throttle(this.refresh.bind(this), 30, true): the proxy. *)
Definition refresh : callData -> world -> world :=
  Throttle.proxy (get_lead refresh_throttle) (set_lead refresh_throttle)
    (set_edge refresh_throttle) 30
    (schedule_timeoutCallback refresh_throttle).

(** this._continuousUpdateHandler = throttle(this.refresh, 70): the proxy. *)
Definition _continuousUpdateHandler : callData -> world -> world :=
  Throttle.proxy (get_lead continuous_throttle) (set_lead continuous_throttle)
    (set_edge continuous_throttle) 70
    (schedule_timeoutCallback continuous_throttle).

(** The call [this.refresh()] and [this._continuousUpdateHandler()] make. *)
Definition own_call : callData := (the_controller, []).

(** One pass over the observers, for sessions that make no call to the
    controller: [this._observers] is then the same list throughout the loop.
    [Live._updateObservers] is the loop over the live list. *)
Definition _updateObservers (w : world) : bool * world :=
  fold_left
    (fun (acc : bool * world) (observer : observer) =>
       let (hasChanges, w) := acc in
       let w := set_page (gatherActive observer (page w)) w in
       let w := record (GatherActive observer) w in
       let active := hasActive observer (page w) in
       let w := record (HasActive observer active) w in
       if active
       then
         let w := set_page (broadcastActive observer (page w)) w in
         (true, record (BroadcastActive observer) w)
       else (hasChanges, w))
    (_observers w) (false, w).

(** The method [refresh] of the class, which the constructor binds to the
    controller and wraps; [RefreshPass] marks each of its invocations. *)
Definition refresh_method (w : world) : world :=
  let w := record RefreshPass w in
  let (hasChanges, w) := _updateObservers w in
  if hasChanges then refresh own_call w
  else if _isCycleContinuous w && _listenersEnabled w
       then _continuousUpdateHandler own_call w
       else w.

(** The wrapped callbacks: the bound method, which reads neither [this] nor
    its arguments, and [this.refresh], applied to the call record as it is. *)
Definition callback (f : throttled) (c : callData) (w : world) : world :=
  match f with
  | refresh_throttle => refresh_method w
  | continuous_throttle => refresh c w
  end.

Definition delay (f : throttled) : nat :=
  match f with
  | refresh_throttle => 30
  | continuous_throttle => 70
  end.

Definition afterRAF (f : throttled) : bool :=
  match f with
  | refresh_throttle => true
  | continuous_throttle => false
  end.

Definition invokeCallback (f : throttled) : world -> world :=
  Throttle.invokeCallback (get_lead f) (set_lead f) (get_edge f) (set_edge f)
    (callback f) (delay f) (schedule_timeoutCallback f).

Definition timeoutCallback (f : throttled) : world -> world :=
  Throttle.timeoutCallback (get_lead f) (set_lead f) (get_edge f)
    (set_edge f) (callback f) (delay f) (afterRAF f)
    (schedule_timeoutCallback f) (schedule_invokeCallback f).

(** constructor(continuousUpdates = false), on a page in state [p]. *)
Definition constructor (continuousUpdates : bool) (p : P) : world :=
  mkWorld (negb mutationsSupported || continuousUpdates) false false []
    (mkCaptured None None) (mkCaptured None None) empty false p [].

(** get continuousUpdates() *)
Definition continuousUpdates (w : world) : bool := _isCycleContinuous w.

(** set continuousUpdates(useContinuous) *)
Definition set_continuousUpdates (useContinuous : bool) (w : world) : world :=
  if negb mutationsSupported then w
  else
    let w := set_isCycleContinuous useContinuous w in
    if _listenersEnabled w && useContinuous then refresh own_call w else w.

(** Array.prototype.indexOf: the first index of [o], or -1. *)
Fixpoint indexOf_from (l : list observer) (o : observer) (i : Z) : Z :=
  match l with
  | [] => (-1)%Z
  | x :: r => if Nat.eqb x o then i else indexOf_from r o (i + 1)%Z
  end.

Definition indexOf (l : list observer) (o : observer) : Z :=
  indexOf_from l o 0%Z.

(** A number is truthy unless it is zero; [~index] is [Z.lnot index]. *)
Definition truthy (z : Z) : bool := negb (Z.eqb z 0).

(** observers.splice(index, 1), for the index of an element. *)
Definition splice1 (l : list observer) (index : Z) : list observer :=
  firstn (Z.to_nat index) l ++ skipn (S (Z.to_nat index)) l.

Definition isConnected (observer : observer) (w : world) : bool :=
  negb (negb (truthy (Z.lnot (indexOf (_observers w) observer)))).

Definition _addListeners (w : world) : world :=
  if negb isBrowser || _listenersEnabled w then w
  else
    let w := record AddResizeListener (set_resize_listener true w) in
    let w :=
      if mutationsSupported
      then record ObserveMutations (set_mutationsObserver true w)
      else w in
    let w := set_listenersEnabled true w in
    if _isCycleContinuous w then refresh own_call w else w.

Definition _removeListeners (w : world) : world :=
  if negb isBrowser || negb (_listenersEnabled w) then w
  else
    let w := record RemoveResizeListener (set_resize_listener false w) in
    let w :=
      if _mutationsObserver w then record DisconnectMutations w else w in
    let w := set_mutationsObserver false w in
    set_listenersEnabled false w.

Definition connect (observer : observer) (w : world) : world :=
  let w :=
    if negb (isConnected observer w)
    then set_observers (_observers w ++ [observer]) w
    else w in
  if negb (_listenersEnabled w) then _addListeners w else w.

Definition disconnect (observer : observer) (w : world) : world :=
  let index := indexOf (_observers w) observer in
  let w :=
    if truthy (Z.lnot index)
    then set_observers (splice1 (_observers w) index) w
    else w in
  if negb (truthy (Z.of_nat (length (_observers w)))) && _listenersEnabled w
  then _removeListeners w
  else w.

(** *** The controller on the event loop *)

Definition run_task (k : task) : world -> world :=
  match k with
  | timeoutCallback_task f => timeoutCallback f
  | invokeCallback_task f => invokeCallback f
  end.

(** What a task of the event loop can be: client code calling one of the
    public operations, the window dispatching a "resize" event to its
    listeners, the mutation observer delivering a batch, the page changing
    under other code, the next timeout, the next animation-frame callback. *)
Inductive action :=
| Connect (o : observer)
| Disconnect (o : observer)
| SetContinuousUpdates (v : bool)
| Refresh
| Resize (e : nat)
| Mutations (m : nat)
| Page (f : P -> P)
| Timer
| Frame.

Definition act (t : nat) (a : action) (w : world) : option world :=
  match a with
  | Connect o => Some (connect o w)
  | Disconnect o => Some (disconnect o w)
  | SetContinuousUpdates v => Some (set_continuousUpdates v w)
  | Refresh => Some (refresh own_call w)
  | Resize e =>
      Some (if resize_listener w then refresh (the_window, [e]) w else w)
  | Mutations m =>
      Some (if _mutationsObserver w
            then refresh (the_mutation_observer, [m]) w
            else w)
  | Page f => Some (set_page (f (page w)) w)
  | Timer =>
      match take_min (timers (ev w)) with
      | Some ((due, k), rest) =>
          if due <=? t
          then Some (run_task k (set_ev (set_timers rest (ev w)) w))
          else None
      | None => None
      end
  | Frame =>
      match frames (ev w) with
      | k :: rest => Some (run_task k (set_ev (set_frames rest (ev w)) w))
      | [] => None
      end
  end.

(** A task that starts at time [t]. *)
Definition step (la : nat * action) (w : world) : option world :=
  let (t, a) := la in
  if t <? now (ev w) then None
  else act t a (set_ev (set_now t (ev w)) w).

Fixpoint run (s : list (nat * action)) (w : world) : option world :=
  match s with
  | [] => Some w
  | la :: s' =>
      match step la w with
      | Some w' => run s' w'
      | None => None
      end
  end.

Definition reachable (w : world) : Prop :=
  exists continuousUpdates p s, run s (constructor continuousUpdates p) = Some w.

(** The earliest schedule: the task the event loop runs next when nothing
    delays it, a queued animation-frame callback at the present clock
    reading, else the next timeout at the time it is due.  The browser may
    run either later; [step] and [run] allow any later time. *)
Definition next_task (w : world) : option (nat * action) :=
  match frames (ev w) with
  | _ :: _ => Some (now (ev w), Frame)
  | [] =>
      match take_min (timers (ev w)) with
      | Some ((due, _), _) => Some (Nat.max (now (ev w)) due, Timer)
      | None => None
      end
  end.

Fixpoint drain (fuel : nat) (w : world) : world :=
  match fuel with
  | 0 => w
  | S n =>
      match next_task w with
      | None => w
      | Some la =>
          match step la w with
          | Some w' => drain n w'
          | None => w
          end
      end
  end.

Definition no_call : captured := mkCaptured None None.

(** Nothing is pending: no call in either coalescer, no task queued. *)
Definition quiescent (w : world) : Prop :=
  refresh_calls w = no_call /\ continuous_calls w = no_call /\
  timers (ev w) = [] /\ frames (ev w) = [].

(** *** One pass over the observers, in the specification's words

    For every session in turn: call [gatherActive], then query [hasActive],
    and call [broadcastActive] exactly when the answer is yes; the pass
    reports changes when some answer was yes. *)
Fixpoint pass (obs : list observer) (p : P) : bool * P * list event :=
  match obs with
  | [] => (false, p, [])
  | o :: rest =>
      let p1 := gatherActive o p in
      let active := hasActive o p1 in
      let p2 := if active then broadcastActive o p1 else p1 in
      let '(changes, p3, evs) := pass rest p2 in
      (active || changes, p3,
       [GatherActive o; HasActive o active]
         ++ (if active then [BroadcastActive o] else []) ++ evs)
  end.

Definition pass_changes (obs : list observer) (p : P) : bool :=
  fst (fst (pass obs p)).
Definition pass_page (obs : list observer) (p : P) : P :=
  snd (fst (pass obs p)).
Definition pass_events (obs : list observer) (p : P) : list event :=
  snd (pass obs p).

(** What the pass does with one session that answers [active]. *)
Definition triple (o : observer) (active : bool) : list event :=
  [GatherActive o; HasActive o active]
    ++ (if active then [BroadcastActive o] else []).

(** The answers of [hasActive] during a pass, in the order of the
    sessions. *)
Fixpoint pass_answers (obs : list observer) (p : P) : list bool :=
  match obs with
  | [] => []
  | o :: rest =>
      let p1 := gatherActive o p in
      let active := hasActive o p1 in
      let p2 := if active then broadcastActive o p1 else p1 in
      active :: pass_answers rest p2
  end.

(** The page after [n] passes, and whether pass number [n] (from 0) reports
    changes. *)
Fixpoint page_after (n : nat) (obs : list observer) (p : P) : P :=
  match n with
  | 0 => p
  | S n' => page_after n' obs (pass_page obs p)
  end.

Definition changes_at (obs : list observer) (p : P) (n : nat) : bool :=
  pass_changes obs (page_after n obs p).

(** The world once the method [refresh] has made its pass. *)
Definition after_pass (w : world) : world :=
  set_trace
    (trace w ++ [RefreshPass] ++ pass_events (_observers w) (page w))
    (set_page (pass_page (_observers w) (page w)) w).

(** The invocations of the method [refresh] so far. *)
Definition is_refresh_pass (e : event) : bool :=
  match e with
  | RefreshPass => true
  | _ => false
  end.

Definition passes (w : world) : nat :=
  length (filter is_refresh_pass (trace w)).

Definition is_session_call (e : event) : bool :=
  match e with
  | GatherActive _ | HasActive _ _ | BroadcastActive _ => true
  | _ => false
  end.

(** The calls made to the observers so far. *)
Definition session_calls (w : world) : list event :=
  filter is_session_call (trace w).

Definition is_listener_event (e : event) : bool :=
  match e with
  | AddResizeListener | RemoveResizeListener
  | ObserveMutations | DisconnectMutations => true
  | _ => false
  end.

(** What an operation did to the listeners: the listener events it added to
    the trace. *)
Definition listener_events (before after : world) : list event :=
  filter is_listener_event (skipn (length (trace before)) (trace after)).

(** The observers a pass gathers, in the order it does. *)
Fixpoint gathered (evs : list event) : list observer :=
  match evs with
  | [] => []
  | GatherActive o :: r => o :: gathered r
  | _ :: r => gathered r
  end.

(** *** Invariants of the reachable worlds *)

Definition is_nil (l : list observer) : bool :=
  match l with
  | [] => true
  | _ :: _ => false
  end.

(** [o] is the one observer in [l]. *)
Definition is_only (o : observer) (l : list observer) : bool :=
  match l with
  | [x] => Nat.eqb x o
  | _ => false
  end.

(** [l] without [o], the others in the order they had. *)
Definition without (o : observer) (l : list observer) : list observer :=
  filter (fun x => negb (Nat.eqb x o)) l.

(** The fields only [connect], [disconnect] and the setter write. *)
Definition same_ctl (w w' : world) : Prop :=
  _isCycleContinuous w' = _isCycleContinuous w /\
  _listenersEnabled w' = _listenersEnabled w /\
  _mutationsObserver w' = _mutationsObserver w /\
  _observers w' = _observers w /\
  resize_listener w' = resize_listener w.

Definition ctl_inv (w : world) : Prop :=
  NoDup (_observers w) /\
  _listenersEnabled w = isBrowser && negb (is_nil (_observers w)) /\
  resize_listener w = _listenersEnabled w /\
  _mutationsObserver w = _listenersEnabled w && mutationsSupported /\
  (mutationsSupported = false -> _isCycleContinuous w = true).

(** What attaching and detaching the listeners adds to the trace. *)
Definition attach_events : list event :=
  AddResizeListener :: (if mutationsSupported then [ObserveMutations] else []).
Definition detach_events : list event :=
  RemoveResizeListener
    :: (if mutationsSupported then [DisconnectMutations] else []).

End Controller.

Arguments Page {P}.

(** A page that is a counter, and observers that are active while it is
    not zero, each broadcast counting it down: for running the controller on
    examples. *)
#[export] Instance countdown : Session nat := {
  gatherActive := fun _ p => p;
  hasActive := fun _ p => negb (Nat.eqb p 0);
  broadcastActive := fun _ p => Nat.pred p
}.


(** In a browser with [MutationObserver]: observer 1 connected on the
    countdown page in state [p], nothing pending. *)
Definition connected_world (p : nat) : world (P := nat) :=
  mkWorld false true true [1] no_call no_call empty true p
    [AddResizeListener; ObserveMutations].

(** Outside a browser and without [MutationObserver]: observer 1
    connected. *)
Definition polling_world : world (P := nat) :=
  mkWorld true false false [1] no_call no_call empty false 0 [].

(** In a browser with [MutationObserver]: one observer connected, a refresh
    called for, the observer disconnected. *)
Definition abandoned_world : world (P := nat) :=
  mkWorld false false false [] (mkCaptured (Some own_call) None) no_call
    (mkLoop 2 [(31, timeoutCallback_task refresh_throttle)] []) false 0
    [AddResizeListener; ObserveMutations;
     RemoveResizeListener; DisconnectMutations].

End Controller.

(** ** [_updateObservers] with sessions that call the controller

    [broadcastActive] runs the subscriber's callback, and the methods of a
    [ResizeObserver] that a callback may call reach [connect], [disconnect]
    and [refresh] of the controller.  The loop of [_updateObservers] is a
    [for ... of] over [this._observers], the array that [connect] pushes to
    and [disconnect] splices: it walks the list as it is at each step.  The
    sessions of [Controller.Session] are those whose methods make no such
    call. *)

Module Live.
Import Controller.

(** A call a session's method makes to the controller while it runs. *)
Inductive call :=
| CallConnect (o : observer)
| CallDisconnect (o : observer)
| CallRefresh
| CallSetContinuous (v : bool).

(** The methods of a session: what they do to the page, the calls they make
    to the controller, in order, and for [hasActive] its answer. *)
Class LiveSession (P : Type) := {
  gatherActive : observer -> P -> P * list call;
  hasActive : observer -> P -> bool * P * list call;
  broadcastActive : observer -> P -> P * list call
}.

(** A session of [Controller.Session] is one that makes no call. *)
Definition lift {P : Type} (s : Controller.Session P) : LiveSession P := {|
  gatherActive := fun o p => (Controller.gatherActive o p, []);
  hasActive := fun o p => (Controller.hasActive o p, p, []);
  broadcastActive := fun o p => (Controller.broadcastActive o p, [])
|}.

Section Live.
Context {P : Type} {sessions : LiveSession P}.
Variable isBrowser : bool.
Variable mutationsSupported : bool.

Local Abbreviation world := (@world P).

Definition perform (c : call) (w : world) : world :=
  match c with
  | CallConnect o => connect isBrowser mutationsSupported o w
  | CallDisconnect o => disconnect isBrowser o w
  | CallRefresh => refresh own_call w
  | CallSetContinuous v => set_continuousUpdates mutationsSupported v w
  end.

Definition perform_all (cs : list call) (w : world) : world :=
  fold_left (fun w c => perform c w) cs w.

(** The body of the loop, for one session:

      observer.gatherActive();
      if (observer.hasActive()) {
          hasChanges = true;
          observer.broadcastActive();
      }                                                                   *)
Definition visit (observer : observer) (acc : bool * world) : bool * world :=
  let (hasChanges, w) := acc in
  let (p, cs) := gatherActive observer (page w) in
  let w := perform_all cs (record (GatherActive observer) (set_page p w)) in
  let '(active, p, cs) := hasActive observer (page w) in
  let w :=
    perform_all cs (record (HasActive observer active) (set_page p w)) in
  if active
  then
    let (p, cs) := broadcastActive observer (page w) in
    (true,
     perform_all cs (record (BroadcastActive observer) (set_page p w)))
  else (hasChanges, w).

(** for (const observer of this._observers): the array iterator reads the
    element at its index from the array as it is then, and stops when the
    index is past the end.  A session's callback can connect a new session in
    every visit, so the loop need not end: [fuel] bounds the visits, and
    [None] is "not done yet". *)
Fixpoint _updateObservers_from (fuel i : nat) (acc : bool * world)
  : option (bool * world) :=
  match fuel with
  | 0 => None
  | S fuel' =>
      match nth_error (_observers (snd acc)) i with
      | None => Some acc
      | Some observer =>
          _updateObservers_from fuel' (S i) (visit observer acc)
      end
  end.

(** let hasChanges = false; for (...) {...}; return hasChanges; *)
Definition _updateObservers (fuel : nat) (w : world)
  : option (bool * world) :=
  _updateObservers_from fuel 0 (false, w).

(** *** One pass, in the specification's words

    The sessions of a list, as it was when the pass began, visited in
    order. *)
Definition pass_over (obs : list observer) (acc : bool * world)
  : bool * world :=
  fold_left (fun acc o => visit o acc) obs acc.

(** What [hasActive] answers when the session [o] is visited from [w]. *)
Definition answer (o : observer) (w : world) : bool :=
  let (p, cs) := gatherActive o (page w) in
  let w := perform_all cs (record (GatherActive o) (set_page p w)) in
  fst (fst (hasActive o (page w))).

Fixpoint answers (obs : list observer) (acc : bool * world) : list bool :=
  match obs with
  | [] => []
  | o :: rest => answer o (snd acc) :: answers rest (visit o acc)
  end.

(** What the visits of [obs] in answer [ans] call. *)
Definition triples (obs : list observer) (ans : list bool) : list event :=
  flat_map (fun ob => triple (fst ob) (snd ob)) (combine obs ans).

(** No visit of the pass over [obs] changes the list of sessions: no
    session's method connects a new session or disconnects a connected
    one. *)
Fixpoint unchanged_during (obs : list observer) (acc : bool * world) : Prop :=
  match obs with
  | [] => True
  | o :: rest =>
      _observers (snd (visit o acc)) = _observers (snd acc)
      /\ unchanged_during rest (visit o acc)
  end.

End Live.

(** Sessions that are always active, on a page that is not looked at; the
    subscriber of session 1 disconnects it when it is told of changes. *)
#[export] Instance leaving : LiveSession unit := {
  gatherActive := fun _ p => (p, []);
  hasActive := fun _ p => (true, p, []);
  broadcastActive :=
    fun o p => (p, if Nat.eqb o 1 then [CallDisconnect 1] else [])
}.

(** In a browser with [MutationObserver]: the sessions 1, 2 and 3 connected,
    nothing pending. *)
Definition three_sessions : world (P := unit) :=
  mkWorld false true true [1; 2; 3] no_call no_call empty true tt
    [AddResizeListener; ObserveMutations].

(** ... and after the pass in which the subscriber of session 1 has
    disconnected it: session 2 was not visited. *)
Definition three_sessions_after : world (P := unit) :=
  mkWorld false true true [2; 3] no_call no_call empty true tt
    [AddResizeListener; ObserveMutations;
     GatherActive 1; HasActive 1 true; BroadcastActive 1;
     GatherActive 3; HasActive 3 true; BroadcastActive 3].

(** Sessions of [Controller.Session] on a page that is not looked at, never
    active: for reaching states by [connect] alone. *)
#[export] Instance calm : Controller.Session unit := {
  Controller.gatherActive := fun _ p => p;
  Controller.hasActive := fun _ _ => false;
  Controller.broadcastActive := fun _ p => p
}.

(** Sessions that are never active and make no call. *)
#[export] Instance still : LiveSession unit := {
  gatherActive := fun _ p => (p, []);
  hasActive := fun _ p => (false, p, []);
  broadcastActive := fun _ p => (p, [])
}.

End Live.

(** ** The tasks the controller's two coalescers have queued *)

Module Pending.
Import Controller.

Definition throttled_eqb (f g : throttled) : bool :=
  match f, g with
  | refresh_throttle, refresh_throttle => true
  | continuous_throttle, continuous_throttle => true
  | _, _ => false
  end.

Definition task_eqb (a b : task) : bool :=
  match a, b with
  | timeoutCallback_task f, timeoutCallback_task g => throttled_eqb f g
  | invokeCallback_task f, invokeCallback_task g => throttled_eqb f g
  | _, _ => false
  end.

(** The timeouts queued for [timeoutCallback] of the closure [f]. *)
Definition timer_count (f : throttled) (l : loop task) : nat :=
  length
    (filter (fun x => task_eqb (snd x) (timeoutCallback_task f)) (timers l)).

(** The animation-frame callbacks queued for [invokeCallback] of [f]. *)
Definition frame_count (f : throttled) (l : loop task) : nat :=
  length (filter (fun k => task_eqb k (invokeCallback_task f)) (frames l)).

(** A timeout is always for a [timeoutCallback]; an animation-frame callback
    is always the [invokeCallback] of [this.refresh], the one closure made
    with [afterRAF]. *)
Definition well_queued (l : loop task) : Prop :=
  Forall (fun x => exists f, snd x = timeoutCallback_task f) (timers l) /\
  Forall (fun k => k = invokeCallback_task refresh_throttle) (frames l).

(** The closure a task belongs to. *)
Definition closure_of (k : task) : throttled :=
  match k with
  | timeoutCallback_task f => f
  | invokeCallback_task f => f
  end.

(** Every task in the queues, timeouts first. *)
Definition queued (l : loop task) : list task :=
  map snd (timers l) ++ frames l.

Definition pending_call (c : captured) : nat :=
  match leadCall c with
  | Some _ => 1
  | None => 0
  end.

Definition edge_call (c : captured) : nat :=
  match edgeCall c with
  | Some _ => 1
  | None => 0
  end.

Section Pending.
Context {P : Type}.

(** The closure [f] has one task queued while it holds a lead call and none
    otherwise, and holds an edge call only with a lead call. *)
Definition throttle_ok (f : throttled) (w : world (P := P)) : Prop :=
  timer_count f (ev w) + frame_count f (ev w) = pending_call (calls_of f w)
  /\ (leadCall (calls_of f w) = None -> edgeCall (calls_of f w) = None).

Definition tasks_inv (w : world (P := P)) : Prop :=
  well_queued (ev w)
  /\ throttle_ok refresh_throttle w
  /\ throttle_ok continuous_throttle w.

(** Nothing of the coalescers and of the queues differs. *)
Definition same_tasks (w w' : world (P := P)) : Prop :=
  ev w' = ev w /\ refresh_calls w' = refresh_calls w
  /\ continuous_calls w' = continuous_calls w.

(** An upper bound on the tasks still to run once no observer is connected:
    a refresh takes its timeout and its animation frame, a continuous update
    its timeout and then a refresh. *)
Definition work_left (w : world (P := P)) : nat :=
  2 * timer_count refresh_throttle (ev w)
  + frame_count refresh_throttle (ev w)
  + 2 * edge_call (refresh_calls w)
  + 3 * timer_count continuous_throttle (ev w)
  + 3 * edge_call (continuous_calls w).

End Pending.
End Pending.

(** ** Further notions for the controller *)

Module Facts.
Import Controller.

(** The animation-frame callback, the one task in which the sessions are
    called. *)
Definition is_frame {P : Type} (a : action (P := P)) : bool :=
  match a with
  | Frame => true
  | _ => false
  end.

(** The operations that write the registry of sessions, the listeners'
    flags or the mode: [connect], [disconnect] and the setter. *)
Definition is_registry_action {P : Type} (a : action (P := P)) : bool :=
  match a with
  | Connect _ | Disconnect _ | SetContinuousUpdates _ => true
  | _ => false
  end.

(** What one call [this.refresh(...)] with the call record [c] does to the
    coalescer of [this.refresh] and to the queues, from [w] to [w']: with a
    lead call held, [edgeCall = callData] and nothing is queued; with none,
    [leadCall = callData] and [setTimeout(timeoutCallback, 30)]. *)
Definition one_refresh_call {P : Type} (c : callData) (w w' : world (P := P))
  : Prop :=
  match leadCall (refresh_calls w) with
  | Some l =>
      refresh_calls w' = mkCaptured (Some l) (Some c) /\ ev w' = ev w
  | None =>
      refresh_calls w' = mkCaptured (Some c) (edgeCall (refresh_calls w))
      /\ ev w'
         = setTimeout (timeoutCallback_task refresh_throttle) 30 (ev w)
  end.

(** [this.refresh] called with each of [cs] in turn, within one task. *)
Definition refresh_all {P : Type} (cs : list callData) (w : world (P := P))
  : world :=
  fold_left (fun w c => refresh c w) cs w.

(** The passes a burst of calls leads to when the sessions report changes
    in exactly the first [K] passes: a single call gives [K + 1]; further
    calls add one pass when there would have been one only. *)
Definition burst_passes (K : nat) (more : list callData) : nat :=
  match more with
  | [] => K + 1
  | _ :: _ => Nat.max (K + 1) 2
  end.

(** A call is pending in one of the two coalescers. *)
Definition call_pending {P : Type} (w : world (P := P)) : Prop :=
  leadCall (refresh_calls w) <> None \/ leadCall (continuous_calls w) <> None.

(** Only a refresh is scheduled: [this.refresh] holds the call [c] and its
    timeout is due at [due]; nothing else is held or queued. *)
Definition armed {P : Type} (c : callData) (due : nat) (w : world (P := P))
  : Prop :=
  refresh_calls w = mkCaptured (Some c) None
  /\ continuous_calls w = no_call
  /\ timers (ev w) = [(due, timeoutCallback_task refresh_throttle)]
  /\ frames (ev w) = []
  /\ now (ev w) <= due.

(** One round of the continuous cycle as the event loop may run it: the
    timeout of [this.refresh] at [t1], its animation-frame callback at [t2],
    the timeout of [this._continuousUpdateHandler] at [t3]; and rounds one
    after the other. *)
Definition round {P : Type} (r : nat * nat * nat)
  : list (nat * action (P := P)) :=
  let '(t1, t2, t3) := r in [(t1, Timer); (t2, Frame); (t3, Timer)].

Definition rounds {P : Type} (rs : list (nat * nat * nat))
  : list (nat * action (P := P)) :=
  flat_map round rs.

(** From pass number [K] on, the sessions report no change. *)
Definition settled_from {P : Type} {sessions : Session P} (K : nat)
    (w : world (P := P)) : Prop :=
  forall i, K <= i -> changes_at (_observers w) (page w) i = false.

(** In continuous mode with the listeners enabled a call is pending. *)
Definition polling_ok {P : Type} (w : world (P := P)) : Prop :=
  _isCycleContinuous w = true -> _listenersEnabled w = true ->
  call_pending w.

(** In a browser with [MutationObserver], continuous updates asked for:
    observer 1 just connected on the countdown page at rest; [connect] has
    called [this.refresh]. *)
Definition cycling_world : world (P := nat) :=
  mkWorld true true true [1] (mkCaptured (Some own_call) None) no_call
    (mkLoop 0 [(30, timeoutCallback_task refresh_throttle)] []) true 0
    [AddResizeListener; ObserveMutations].

(** [cycling_world] after two rounds of the cycle run late: the animation
    frame of the first 16 after its timeout, the second round begun 4 after
    its refresh was due. *)
Definition late_world : world (P := nat) :=
  mkWorld true true true [1] (mkCaptured (Some own_call) None) no_call
    (mkLoop 220 [(250, timeoutCallback_task refresh_throttle)] []) true 0
    [AddResizeListener; ObserveMutations;
     RefreshPass; GatherActive 1; HasActive 1 false;
     RefreshPass; GatherActive 1; HasActive 1 false].

(** Outside a browser, with [MutationObserver], continuous updates asked
    for: observer 1 connected and a refresh called for. *)
Definition headless_world : world (P := nat) :=
  mkWorld true false false [1] (mkCaptured (Some own_call) None) no_call
    (mkLoop 1 [(31, timeoutCallback_task refresh_throttle)] []) false 0 [].

(** [cycling_world] after its first pass, at 31, which called
    [this._continuousUpdateHandler]; then, at 40, the continuous cycle was
    turned off: the handler's timeout is still queued. *)
Definition switched_off_world : world (P := nat) :=
  mkWorld false true true [1] no_call (mkCaptured (Some own_call) None)
    (mkLoop 40 [(101, timeoutCallback_task continuous_throttle)] []) true 0
    [AddResizeListener; ObserveMutations; RefreshPass;
     GatherActive 1; HasActive 1 false].

End Facts.

(** ** Tactics *)

(** Closes the clauses of the counting invariant. *)
Ltac count_goals :=
  repeat split; try lia;
  try (let H := fresh in
       intros ? ? [H|[]]; inversion H; subst; nia);
  try (let H := fresh in intros H; contradiction H; reflexivity).

(** Unfolds the writes to the fields of the controller's world. *)
Ltac unfold_setters :=
  unfold Controller.record, Controller.set_isCycleContinuous,
    Controller.set_listenersEnabled,
    Controller.set_mutationsObserver, Controller.set_observers,
    Controller.set_refresh_calls,
    Controller.set_continuous_calls, Controller.set_ev,
    Controller.set_resize_listener, Controller.set_page, Controller.set_trace
    in *;
  cbn in *.

(** ** Facts about lists used below *)

Section ListFacts.
Context {A : Type}.

Lemma subseq_refl (l : list A) : subseq l l.
Proof. induction l; constructor; assumption. Qed.

Lemma subseq_nil_l (l : list A) : subseq [] l.
Proof. induction l; constructor; assumption. Qed.

Lemma subseq_app (a a' b b' : list A) :
  subseq a a' -> subseq b b' -> subseq (a ++ b) (a' ++ b').
Proof.
  induction 1 as [|x l1 l2 _ IH|x l1 l2 _ IH]; intros Hb; simpl.
  - exact Hb.
  - apply subseq_skip, IH, Hb.
  - apply subseq_keep, IH, Hb.
Qed.

Lemma subseq_app_inv_l (a b l : list A) :
  subseq (a ++ b) l -> subseq a l.
Proof.
  revert a. induction l as [|x l IH]; intros a H.
  - inversion H as [E| |]. destruct a; [constructor | discriminate].
  - destruct a as [|y a].
    + apply subseq_nil_l.
    + simpl in H. inversion H; subst.
      * apply subseq_skip. apply IH. assumption.
      * apply subseq_keep. apply IH. assumption.
Qed.

Lemma subseq_snoc (a l : list A) (x : A) :
  subseq a l -> subseq (a ++ [x]) (l ++ [x]).
Proof. intros H. apply subseq_app; [assumption | apply subseq_refl]. Qed.
End ListFacts.

Lemma spaced_tail d a ts : spaced d (a :: ts) -> spaced d ts.
Proof. destruct ts; [intros _; exact I | intros [_ H]; exact H]. Qed.

Lemma spaced_snoc d ts t :
  spaced d ts -> (ts <> [] -> last ts 0 + d <= t) -> spaced d (ts ++ [t]).
Proof.
  induction ts as [|a [|b r] IH]; intros Hs Hl.
  - exact I.
  - simpl. split; [|exact I]. apply Hl. discriminate.
  - destruct Hs as [Hab Hs]. split; [exact Hab|].
    apply IH; [exact Hs|]. intros _. apply Hl. discriminate.
Qed.

Lemma spaced_from_head d ts a :
  spaced d (a :: ts) -> forall j tj, nth_error ts j = Some tj -> a + d <= tj.
Proof.
  revert a. induction ts as [|b r IH]; intros a Hs j tj Hj.
  - destruct j; discriminate.
  - destruct Hs as [Hab Hs]. destruct j as [|j]; simpl in Hj.
    + injection Hj as <-. exact Hab.
    + specialize (IH b Hs j tj Hj). lia.
Qed.

Lemma spaced_pairwise d ts :
  spaced d ts ->
  forall i j ti tj, i < j ->
    nth_error ts i = Some ti -> nth_error ts j = Some tj -> ti + d <= tj.
Proof.
  induction ts as [|a r IH]; intros Hs i j ti tj Hij Hi Hj.
  - destruct i; discriminate.
  - destruct j as [|j]; [lia|]. simpl in Hj. destruct i as [|i]; simpl in Hi.
    + injection Hi as <-. eapply spaced_from_head; eassumption.
    + apply (IH (spaced_tail _ _ _ Hs) i j); [lia | assumption | assumption].
Qed.

(** ** The coalescer: proofs *)

Module CoalescerProofs.
Import Coalescer.

Section Proofs.
Variables This Arg : Type.
Local Abbreviation callData := (callData This Arg).
Local Abbreviation world := (world This Arg).
Variable reenter : list (nat * callData) -> list callData.
Variable delay : nat.
Variable afterRAF : bool.

Local Abbreviation proxy := (@proxy This Arg delay).
Local Abbreviation callback := (callback reenter delay).
Local Abbreviation invokeCallback := (invokeCallback reenter delay).
Local Abbreviation timeoutCallback := (timeoutCallback reenter delay afterRAF).
Local Abbreviation step := (step reenter delay afterRAF).
Local Abbreviation run := (run reenter delay afterRAF).
Local Abbreviation drain := (drain reenter delay afterRAF).
Local Abbreviation inv := (inv delay afterRAF).
Local Abbreviation pending_ok := (pending_ok delay afterRAF).
Local Abbreviation init := (@init This Arg).
Local Abbreviation fired := (fired reenter delay).
Local Abbreviation transition := (transition reenter delay afterRAF).
Local Abbreviation count_inv := (@count_inv This Arg delay).
Local Abbreviation count_all := (@count_all This Arg delay).
Local Abbreviation made := (made reenter).
Local Abbreviation all_calls := (all_calls reenter delay afterRAF).
Local Abbreviation settled := (settled reenter).
Local Abbreviation floor_bound := (floor_bound delay).
Local Abbreviation ceil_bound := (ceil_bound delay).
Local Abbreviation tasks_left := (@tasks_left This Arg afterRAF).
Local Abbreviation next_task := (@next_task This Arg).

Lemma proxy_eq (c : callData) (w : world) :
  proxy c w =
  match leadCall w with
  | Some _ => mkWorld (leadCall w) (Some c) (ev w) (log w)
  | None =>
      mkWorld (Some c) (edgeCall w)
        (setTimeout timeoutCallback_task delay (ev w)) (log w)
  end.
Proof.
  destruct w as [[l|] e v lg]; reflexivity.
Qed.

Lemma edge_after_cons (c : callData) cs e :
  edge_after (c :: cs) e = edge_after cs (Some c).
Proof. reflexivity. Qed.

Lemma reenter_eq (cs : list callData) (w : world) l :
  leadCall w = Some l ->
  fold_left (fun w c' => proxy c' w) cs w =
  mkWorld (Some l) (edge_after cs (edgeCall w)) (ev w) (log w).
Proof.
  revert w. induction cs as [|c cs IH]; intros w Hl; simpl.
  - destruct w; simpl in *; subst; reflexivity.
  - rewrite IH with (w := proxy c w); rewrite proxy_eq, Hl; reflexivity.
Qed.

Lemma callback_eq (c : callData) (w : world) l :
  leadCall w = Some l ->
  callback c w =
  let lg := log w ++ [(now (ev w), c)] in
  mkWorld (Some l) (edge_after (reenter lg) (edgeCall w)) (ev w) lg.
Proof.
  intros Hl. unfold Coalescer.callback.
  rewrite reenter_eq with (l := l); [reflexivity | exact Hl].
Qed.

(** What firing does: the lead call is invoked, once; the edge call, if the
    callback left one, becomes the lead call of a new timeout. *)
Lemma invokeCallback_eq (w : world) l :
  leadCall w = Some l ->
  invokeCallback w =
  let lg := log w ++ [(now (ev w), l)] in
  match edge_after (reenter lg) (edgeCall w) with
  | Some e =>
      mkWorld (Some e) None
        (setTimeout timeoutCallback_task delay (ev w)) lg
  | None => mkWorld None None (ev w) lg
  end.
Proof.
  intros Hl. unfold Coalescer.invokeCallback, Throttle.invokeCallback.
  rewrite Hl. fold (callback l w). rewrite (callback_eq l w Hl). simpl.
  destruct (edge_after _ _); reflexivity.
Qed.

Lemma invokeCallback_idle (w : world) :
  leadCall w = None -> invokeCallback w = w.
Proof.
  intros Hl. unfold Coalescer.invokeCallback, Throttle.invokeCallback.
  rewrite Hl. reflexivity.
Qed.

Lemma timeoutCallback_eq (w : world) :
  timeoutCallback w =
  if afterRAF
  then set_ev (requestAnimFrame invokeCallback_task (ev w)) w
  else invokeCallback w.
Proof. reflexivity. Qed.

Lemma timeoutCallback_raf (w : world) :
  afterRAF = true ->
  timeoutCallback w = set_ev (requestAnimFrame invokeCallback_task (ev w)) w.
Proof. intros H. rewrite timeoutCallback_eq, H. reflexivity. Qed.

Lemma timeoutCallback_direct (w : world) :
  afterRAF = false -> timeoutCallback w = invokeCallback w.
Proof. intros H. rewrite timeoutCallback_eq, H. reflexivity. Qed.

Lemma edge_after_nil e : @edge_after This Arg [] e = e.
Proof. reflexivity. Qed.

Lemma run_app s1 s2 (w : world) :
  run (s1 ++ s2) w =
  match run s1 w with
  | Some w' => run s2 w'
  | None => None
  end.
Proof.
  revert w. induction s1 as [|la s1 IH]; intros w; simpl.
  - reflexivity.
  - destruct (step la w); [apply IH | reflexivity].
Qed.

Lemma run_snoc s la (w : world) :
  run (s ++ [la]) w =
  match run s w with
  | Some w' => step la w'
  | None => None
  end.
Proof.
  rewrite run_app. destruct (run s w) as [w'|]; [|reflexivity].
  cbn [Coalescer.run]. destruct (step la w'); reflexivity.
Qed.

Lemma lastfire_snoc (w : world) lg t c :
  lastfire (mkWorld (leadCall w) (edgeCall w) (ev w) (lg ++ [(t, c)])) = t.
Proof.
  unfold lastfire, fired_at. simpl. rewrite map_app. simpl.
  apply last_last.
Qed.

(** *** The invariant holds in every reachable world *)

Lemma inv_init : inv init.
Proof.
  unfold Coalescer.inv, Coalescer.pending_ok, lastfire, fired_at. simpl.
  repeat split; lia.
Qed.

Lemma fire_inv (w : world) l :
  leadCall w = Some l ->
  timers (ev w) = [] -> frames (ev w) = [] ->
  spaced delay (fired_at w) ->
  lastfire w + delay <= now (ev w) ->
  inv (invokeCallback w).
Proof.
  intros Hl Ht Hf Hs Hn. rewrite (invokeCallback_eq w Hl). cbv zeta.
  assert (Hs' : spaced delay (map fst (log w ++ [(now (ev w), l)]))).
  { rewrite map_app. simpl. apply spaced_snoc; [exact Hs|].
    intros _. exact Hn. }
  assert (Hlast : last (map fst (log w ++ [(now (ev w), l)])) 0 = now (ev w)).
  { rewrite map_app. simpl. apply last_last. }
  destruct (edge_after _ _) as [e|];
    unfold Coalescer.inv, Coalescer.pending_ok, lastfire, fired_at; simpl;
    rewrite Hlast.
  - split; [|split; [exact Hs' | lia]].
    left. exists (now (ev w) + delay). rewrite Ht, Hf. simpl.
    repeat split; lia.
  - split; [|split; [exact Hs' | lia]].
    rewrite Ht, Hf. repeat split.
Qed.

Lemma step_inv la (w w' : world) :
  inv w -> step la w = Some w' -> inv w'.
Proof.
  destruct la as [t a]. intros (Hp & Hs & Hn) Hstep.
  unfold Coalescer.step in Hstep.
  destruct (Nat.ltb_spec t (now (ev w))) as [|Hle]; [discriminate|].
  destruct a as [c| |].
  - (* a caller invokes the proxy *)
    injection Hstep as <-. rewrite proxy_eq.
    destruct w as [lead edge [nw ts fs] lg].
    unfold Coalescer.inv, Coalescer.pending_ok, lastfire, fired_at in *.
    simpl in *. destruct lead as [l|]; simpl.
    + split; [|split; [exact Hs | lia]].
      destruct Hp as [(due & -> & -> & Hd) | (-> & -> & -> & Hd)].
      * left. exists due. repeat split; lia.
      * right. repeat split; solve [assumption | lia].
    + destruct Hp as (-> & -> & ->). simpl.
      split; [|split; [exact Hs | lia]].
      left. exists (t + delay). repeat split; lia.
  - (* the timeout runs *)
    destruct w as [lead edge [nw ts fs] lg].
    unfold Coalescer.pending_ok, lastfire, fired_at in *. simpl in *.
    destruct lead as [l|].
    + destruct Hp as [(due & -> & -> & Hd) | (HR & -> & -> & Hd)];
        simpl in Hstep; [|discriminate].
      destruct (Nat.leb_spec due t) as [Hdue|]; [|discriminate].
      injection Hstep as <-. simpl.
      destruct (bool_dec afterRAF true) as [HR|HR].
      * rewrite (timeoutCallback_raf _ HR).
        unfold Coalescer.inv, Coalescer.pending_ok, lastfire, fired_at.
        simpl. split; [|split; [exact Hs | lia]].
        right. repeat split; solve [assumption | lia].
      * rewrite (timeoutCallback_direct _ (not_true_is_false _ HR)).
        apply fire_inv with (l := l); simpl; auto.
        unfold lastfire, fired_at. simpl. lia.
    + destruct Hp as (-> & -> & ->). discriminate.
  - (* the animation-frame callback runs *)
    destruct w as [lead edge [nw ts fs] lg].
    unfold Coalescer.pending_ok, lastfire, fired_at in *. simpl in *.
    destruct lead as [l|].
    + destruct Hp as [(due & -> & -> & Hd) | (HR & -> & -> & Hd)];
        simpl in Hstep; [discriminate|].
      injection Hstep as <-. simpl.
      apply fire_inv with (l := l); simpl; auto.
      unfold lastfire, fired_at. simpl. lia.
    + destruct Hp as (-> & -> & ->). discriminate.
Qed.

Lemma run_inv s (w w' : world) :
  inv w -> run s w = Some w' -> inv w'.
Proof.
  revert w. induction s as [|la s IH]; intros w Hi Hr; simpl in Hr.
  - injection Hr as <-. exact Hi.
  - destruct (step la w) as [w1|] eqn:E; [|discriminate].
    apply (IH w1); [eapply step_inv; eassumption | exact Hr].
Qed.

Lemma reachable_inv (w : world) :
  reachable reenter delay afterRAF w -> inv w.
Proof. intros [s Hs]. eapply run_inv; [apply inv_init | exact Hs]. Qed.

(** *** The two-slot protocol *)

(** C4.  In every reachable state of a coalescer: a proxy call made while no
    call is pending is recorded as [leadCall] and schedules the timeout
    [delay] from now, and it is then the only thing pending; a proxy call made
    while a call is pending overwrites [edgeCall] with the new call and
    touches nothing else (the timeout is not reset); [edgeCall] is set only
    while [leadCall] is; and when the lead call fires it is invoked, and the
    edge call, if there is one once the callback returns, becomes the new lead
    call with a timeout [delay] from the firing (when the callback makes no
    call of its own, that edge call is the one that was pending). *)
Theorem two_slot_protocol (w : world) :
  reachable reenter delay afterRAF w ->
  (leadCall w = None ->
   forall c,
     proxy c w =
     mkWorld (Some c) None
       (mkLoop (now (ev w)) [(now (ev w) + delay, timeoutCallback_task)] [])
       (log w))
  /\ (forall l, leadCall w = Some l ->
      forall c, proxy c w = mkWorld (Some l) (Some c) (ev w) (log w))
  /\ (edgeCall w <> None -> leadCall w <> None)
  /\ (forall l, leadCall w = Some l ->
      let lg := log w ++ [(now (ev w), l)] in
      let edge := edge_after (reenter lg) (edgeCall w) in
      (reenter lg = [] -> edge = edgeCall w) /\
      invokeCallback w =
      match edge with
      | Some e =>
          mkWorld (Some e) None
            (mkLoop (now (ev w))
               (timers (ev w) ++ [(now (ev w) + delay, timeoutCallback_task)])
               (frames (ev w)))
            lg
      | None => mkWorld None None (ev w) lg
      end).
Proof.
  intros Hr. destruct (reachable_inv Hr) as (Hp & _ & _).
  unfold Coalescer.pending_ok in Hp.
  repeat split.
  - intros Hl c. rewrite proxy_eq. rewrite Hl in *.
    destruct Hp as (He & Ht & Hf). rewrite He.
    unfold setTimeout, set_timers. rewrite Ht, Hf. reflexivity.
  - intros l Hl c. rewrite proxy_eq, Hl. reflexivity.
  - intros He Hl. rewrite Hl in Hp. destruct Hp as (He' & _). contradiction.
  - intros ->. reflexivity.
  - rewrite (invokeCallback_eq w H). reflexivity.
Qed.

(** *** Invocations happen in later tasks only *)

Lemma proxy_log (c : callData) (w : world) : log (proxy c w) = log w.
Proof. rewrite proxy_eq. destruct (leadCall w); reflexivity. Qed.

Lemma invokeCallback_log (w : world) l :
  leadCall w = Some l ->
  log (invokeCallback w) = log w ++ [(now (ev w), l)].
Proof.
  intros Hl. rewrite (invokeCallback_eq w Hl). cbv zeta.
  destruct (edge_after _ _); reflexivity.
Qed.

(** A task either leaves the log alone or is the firing task, which adds the
    lead call to it. *)
Lemma step_log t a (w w' : world) :
  inv w -> step (t, a) w = Some w' ->
  log w' = log w \/
  (a = (if afterRAF then Frame else Timer) /\
   exists l, leadCall w = Some l /\ log w' = log w ++ [(t, l)]).
Proof.
  intros (Hp & _ & _) Hstep. unfold Coalescer.step in Hstep.
  destruct (t <? now (ev w)); [discriminate|].
  destruct w as [lead edge [nw ts fs] lg].
  unfold Coalescer.pending_ok in Hp. simpl in *.
  destruct a as [c| |].
  - injection Hstep as <-. left. apply proxy_log.
  - destruct lead as [l|].
    + destruct Hp as [(due & -> & -> & _) | (_ & -> & -> & _)];
        simpl in Hstep; [|discriminate].
      destruct (due <=? t); [|discriminate]. injection Hstep as <-. simpl.
      destruct (bool_dec afterRAF true) as [HR|HR].
      * left. rewrite (timeoutCallback_raf _ HR). reflexivity.
      * apply not_true_is_false in HR. right. rewrite HR at 1.
        split; [reflexivity|]. exists l. split; [reflexivity|].
        rewrite (timeoutCallback_direct _ HR).
        rewrite invokeCallback_log with (l := l); reflexivity.
    + destruct Hp as (_ & -> & _). discriminate.
  - destruct lead as [l|].
    + destruct Hp as [(due & -> & -> & _) | (HR & -> & -> & _)];
        simpl in Hstep; [discriminate|].
      injection Hstep as <-. simpl. right. rewrite HR at 1.
      split; [reflexivity|]. exists l. split; [reflexivity|].
      rewrite invokeCallback_log with (l := l); reflexivity.
    + destruct Hp as (_ & _ & ->). discriminate.
Qed.

(** C10.  For every callback, delay (zero included) and call record, in every
    reachable state: the proxy call itself invokes nothing, whether made
    directly or as a task of its own; an invocation of the callback happens
    only in a task of the scheduler, the timeout's when not frame-deferred and
    the animation-frame callback's when frame-deferred; and a firing invokes
    the lead call only: an edge call left pending is not invoked by it but
    becomes the lead call of a newly queued timeout. *)
Theorem invocation_is_asynchronous (w : world) :
  reachable reenter delay afterRAF w ->
  (forall c, log (proxy c w) = log w)
  /\ (forall t c w', step (t, Call c) w = Some w' -> log w' = log w)
  /\ (forall t a w',
        step (t, a) w = Some w' -> log w' <> log w ->
        a = if afterRAF then Frame else Timer)
  /\ (forall l, leadCall w = Some l ->
        log (invokeCallback w) = log w ++ [(now (ev w), l)] /\
        forall e,
          edge_after (reenter (log w ++ [(now (ev w), l)])) (edgeCall w)
          = Some e ->
          leadCall (invokeCallback w) = Some e /\
          In (now (ev w) + delay, timeoutCallback_task)
             (timers (ev (invokeCallback w)))).
Proof.
  intros Hr. pose proof (reachable_inv Hr) as Hi.
  split; [|split; [|split]].
  - intros c. apply proxy_log.
  - intros t c w' Hs.
    destruct (step_log _ _ Hi Hs) as [E | (Ha & _)]; [exact E|].
    destruct afterRAF; discriminate.
  - intros t a w' Hs Hlog.
    destruct (step_log _ _ Hi Hs) as [E | (Ha & _)]; [contradiction|exact Ha].
  - intros l Hl. split; [apply invokeCallback_log, Hl|].
    intros e He. rewrite (invokeCallback_eq w Hl). cbv zeta. rewrite He.
    simpl. split; [reflexivity|]. apply in_or_app. right. left. reflexivity.
Qed.

(** *** Every task of a reachable world is one of the five transitions *)

Lemma step_transition la (w w' : world) :
  inv w -> step la w = Some w' -> transition w la w'.
Proof.
  destruct la as [t a]. intros (Hp & _ & _) Hstep.
  unfold Coalescer.step in Hstep.
  destruct (Nat.ltb_spec t (now (ev w))) as [|Hle]; [discriminate|].
  destruct w as [lead edge [nw ts fs] lg].
  unfold Coalescer.pending_ok in Hp. simpl in *.
  destruct a as [c| |].
  - injection Hstep as <-. rewrite proxy_eq. simpl.
    destruct lead as [l|].
    + apply T_edge with (l := l); [exact Hle | reflexivity].
    + destruct Hp as (-> & -> & ->). apply T_lead; [exact Hle | reflexivity].
  - destruct lead as [l|].
    + destruct Hp as [(due & -> & -> & _) | (_ & -> & -> & _)];
        simpl in Hstep; [|discriminate].
      destruct (Nat.leb_spec due t) as [Hdue|]; [|discriminate].
      injection Hstep as <-. simpl.
      destruct (bool_dec afterRAF true) as [HR|HR].
      * rewrite (timeoutCallback_raf _ HR).
        match goal with |- Coalescer.transition _ _ _ ?w0 _ _ =>
          apply (@T_defer _ _ reenter delay afterRAF w0 t l due) end; auto.
      * apply not_true_is_false in HR.
        rewrite (timeoutCallback_direct _ HR).
        rewrite invokeCallback_eq with (l := l); [|reflexivity].
        match goal with |- Coalescer.transition _ _ _ ?w0 _ _ =>
          apply (@T_fire_timer _ _ reenter delay afterRAF w0 t l due) end; auto.
    + destruct Hp as (_ & -> & _). discriminate.
  - destruct lead as [l|].
    + destruct Hp as [(due & -> & -> & _) | (HR & -> & -> & _)];
        simpl in Hstep; [discriminate|].
      injection Hstep as <-. simpl.
      rewrite invokeCallback_eq with (l := l); [|reflexivity].
      match goal with |- Coalescer.transition _ _ _ ?w0 _ _ =>
          apply (@T_fire_frame _ _ reenter delay afterRAF w0 t l) end; auto.
    + destruct Hp as (_ & _ & ->). discriminate.
Qed.

(** *** The calls made during a run *)

Lemma log_fired t l (w : world) : log (fired t l w) = log w ++ [(t, l)].
Proof. unfold Coalescer.fired. destruct (edge_after _ _); reflexivity. Qed.

Lemma made_same_log t a (w w' : world) :
  (forall c, a <> Call c) -> log w' = log w -> made t a w w' = [].
Proof.
  intros Ha E. unfold Coalescer.made, own_calls. rewrite E, Nat.ltb_irrefl.
  destruct a as [c| |]; [destruct (Ha c eq_refl) | reflexivity..].
Qed.

Lemma made_fired t a l (w : world) :
  (forall c, a <> Call c) ->
  made t a w (fired t l w) = map (pair t) (reenter (log w ++ [(t, l)])).
Proof.
  intros Ha. unfold Coalescer.made, own_calls.
  rewrite log_fired, length_app. cbn [length].
  replace (length (log w) <? length (log w) + 1) with true
    by (symmetry; apply Nat.ltb_lt; lia).
  destruct a as [c| |]; [destruct (Ha c eq_refl) | reflexivity..].
Qed.

Lemma all_calls_app s1 s2 (w : world) :
  all_calls (s1 ++ s2) w
  = all_calls s1 w
      ++ match run s1 w with
         | Some w1 => all_calls s2 w1
         | None => []
         end.
Proof.
  revert w. induction s1 as [|[t a] s1 IH]; intros w; [reflexivity|].
  cbn [app Coalescer.all_calls Coalescer.run].
  destruct (step (t, a) w) as [w1|]; [|reflexivity].
  rewrite IH, app_assoc. reflexivity.
Qed.

Lemma all_calls_snoc s t a (w0 w w' : world) :
  run s w0 = Some w -> step (t, a) w = Some w' ->
  all_calls (s ++ [(t, a)]) w0 = all_calls s w0 ++ made t a w w'.
Proof.
  intros Hr Hs. rewrite all_calls_app, Hr. cbn [Coalescer.all_calls].
  rewrite Hs, app_nil_r. reflexivity.
Qed.

Lemma edge_after_last (cs : list callData) e x :
  edge_after (cs ++ [x]) e = Some x.
Proof.
  unfold edge_after. rewrite fold_left_app. reflexivity.
Qed.

Lemma snoc_cases {A : Type} (l : list A) :
  l = [] \/ exists pre x, l = pre ++ [x].
Proof.
  destruct l as [|a l] using rev_ind; [left; reflexivity|].
  right. exists l, a. reflexivity.
Qed.

Lemma map_snd_pair (t : nat) (cs : list callData) :
  map snd (map (pair t) cs) = cs.
Proof. rewrite map_map. cbn. apply map_id. Qed.

(** What firing leaves invoked and waiting. *)
Lemma invoked_fired t l (w : world) :
  invoked (fired t l w) ++ pendlist (fired t l w) =
  invoked w ++ [l]
    ++ opt_list (edge_after (reenter (log w ++ [(t, l)])) (edgeCall w)).
Proof.
  unfold Coalescer.fired, invoked, pendlist.
  destruct (edge_after _ _); simpl; rewrite map_app; simpl;
    rewrite <- ?app_assoc; rewrite ?app_nil_r; reflexivity.
Qed.

Lemma fired_settled t l (w : world) :
  settled w ->
  fired t l w =
  match edgeCall w with
  | Some e =>
      mkWorld (Some e) None
        (mkLoop t [(t + delay, timeoutCallback_task)] []) (log w ++ [(t, l)])
  | None => mkWorld None None (mkLoop t [] []) (log w ++ [(t, l)])
  end.
Proof. intros H. unfold Coalescer.fired. rewrite (H (t, l) []). reflexivity. Qed.

Lemma settled_grow (w w' : world) x :
  settled w -> log w' = log w ++ [x] -> settled w'.
Proof.
  intros H E y h. rewrite E, <- app_assoc. apply (H x (y :: h)).
Qed.

Lemma settled_same (w w' : world) :
  settled w -> log w' = log w -> settled w'.
Proof. intros H E y h. rewrite E. apply H. Qed.

(** *** Counting firings *)

Lemma gaps_snoc d ts t :
  gaps_below d (ts ++ [t]) ->
  gaps_below d ts /\ (ts <> [] -> t - last ts 0 < d).
Proof.
  induction ts as [|a [|b r] IH]; intros H.
  - split; [exact I | congruence].
  - simpl in H. split; [exact I | intros _; simpl; lia].
  - destruct H as [Hab H]. destruct (IH H) as [Hg Hl].
    split; [split; assumption|]. intros _. apply Hl. discriminate.
Qed.

Lemma gaps_app_l d ts us : gaps_below d (ts ++ us) -> gaps_below d ts.
Proof.
  induction us as [|u us IH] using rev_ind; [rewrite app_nil_r; auto|].
  rewrite app_assoc. intros H. apply IH. apply (gaps_snoc _ _ _ H).
Qed.

Lemma gaps_mid d ts t us :
  gaps_below d (ts ++ t :: us) -> ts <> [] -> t - last ts 0 < d.
Proof.
  intros H Hne. change (t :: us) with ([t] ++ us) in H.
  rewrite app_assoc in H. apply gaps_app_l in H.
  apply (gaps_snoc _ _ _ H). exact Hne.
Qed.

Lemma last_const (ts : list nat) t (cs : list callData) c :
  last (ts ++ map fst (map (pair t) (c :: cs))) 0 = t.
Proof.
  destruct (snoc_cases (c :: cs)) as [E | (pre & x & E)]; [discriminate|].
  rewrite E, !map_app, app_assoc. cbn [map fst]. apply last_last.
Qed.

Section Bound.
(* a bound on the firings, and what is known of the time of a call that is
   not the first *)
Variable bnd : nat -> nat.
Variable later : nat -> nat -> Prop.
Hypothesis bnd_first : 1 <= bnd 0.
Hypothesis bnd_call :
  forall k t1 nw t,
    0 < delay -> t1 + k * delay <= nw -> nw <= t -> later nw t ->
    k + 2 <= bnd (t - t1).

(** A firing, in the counting invariant. *)
Lemma count_fired ts t a l (w : world) :
  (forall c, a <> Call c) ->
  count_all bnd ts w -> leadCall w = Some l -> now (ev w) <= t ->
  (forall t1 r, ts = t1 :: r -> t1 + S (length (log w)) * delay <= t) ->
  gaps_below delay (ts ++ map fst (made t a w (fired t l w))) ->
  (ts <> [] -> later (now (ev w)) t) ->
  count_all bnd (ts ++ map fst (made t a w (fired t l w))) (fired t l w).
Proof.
  intros Ha Hc Hl Hle Hdue Hg Hlat. rewrite (made_fired t l w Ha) in *.
  unfold Coalescer.count_all in *.
  destruct ts as [|t1 r] eqn:E; [destruct Hc as (Hl' & _); congruence|].
  rewrite <- E in *.
  assert (Hne : ts <> []) by (rewrite E; discriminate).
  specialize (Hlat Hne). specialize (Hdue t1 r E).
  assert (Hhd : forall us, exists r', ts ++ us = t1 :: r')
    by (intros us; rewrite E; eexists; reflexivity).
  destruct (reenter (log w ++ [(t, l)])) as [|c cs] eqn:Ecs.
  - (* the callback makes no call *)
    cbn [map] in *. rewrite app_nil_r in *. rewrite E.
    rewrite E in Hc. destruct Hc as (Hn & Hk & H1 & H2 & Hts & Hfs).
    unfold Coalescer.fired. rewrite Ecs. cbn [edge_after fold_left].
    unfold Coalescer.count_inv, pend, pendlist in *. simpl in *.
    rewrite Hl in Hn.
    destruct (edgeCall w) as [e|]; simpl in *;
      rewrite length_app; simpl; count_goals.
  - (* the callback calls the proxy: its last call becomes the lead call *)
    destruct (Hhd (map fst (map (pair t) (c :: cs)))) as (r' & E').
    rewrite E'. rewrite <- E'. rewrite last_const.
    pose proof (@gaps_mid _ _ _ _ Hg Hne) as Hgap.
    rewrite E in Hc. destruct Hc as (Hn & Hk & H1 & H2 & Hts & Hfs).
    pose proof (@bnd_call (length (log w)) t1 (now (ev w)) t
                  ltac:(lia) Hk Hle Hlat) as Hb.
    destruct (snoc_cases (c :: cs)) as [Ex | (pre & x & Ex)]; [discriminate|].
    unfold Coalescer.fired. rewrite Ecs, Ex, edge_after_last.
    unfold Coalescer.count_inv, pend, pendlist in *. simpl in *.
    rewrite length_app; simpl; count_goals.
Qed.

Lemma count_step ts t a (w w' : world) :
  inv w -> count_all bnd ts w -> transition w (t, a) w' ->
  gaps_below delay (ts ++ map fst (made t a w w')) ->
  (ts <> [] -> later (now (ev w)) t) ->
  count_all bnd (ts ++ map fst (made t a w w')) w'.
Proof.
  intros (Hp & _ & _) Hc Htr Hg Hlat.
  unfold Coalescer.pending_ok in Hp.
  inversion Htr as [t' c Hle Hl | t' c l Hle Hl | t' l due HR Hle Hl Ht Hd
                   | t' l due HR Hle Hl Ht Hd | t' l HR Hle Hl Hf];
    subst t' a.
  - (* a call with nothing pending *)
    subst w'. cbn [Coalescer.made map fst] in *.
    unfold Coalescer.count_all in *.
    rewrite Hl in Hp. destruct Hp as (He & Ht & Hf).
    destruct (gaps_snoc _ _ _ Hg) as (_ & Hlast).
    destruct ts as [|t1 r] eqn:E; cbn [app].
    + unfold Coalescer.count_inv, pend, pendlist. simpl.
      destruct Hc as (_ & ->). simpl. rewrite Nat.sub_diag.
      count_goals.
    + rewrite <- E in *.
      assert (Hne : ts <> []) by (rewrite E; discriminate).
      specialize (Hlast Hne). specialize (Hlat Hne).
      rewrite E in Hc. destruct Hc as (Hn & Hk & H1 & H2 & Hts & Hfs).
      pose proof (@bnd_call (length (log w)) t1 (now (ev w)) t
                    ltac:(lia) Hk Hle Hlat) as Hb.
      replace (last (t1 :: r ++ [t]) 0) with t
        by (symmetry; apply (last_last (t1 :: r) t 0)).
      unfold Coalescer.count_inv, pend, pendlist in *. simpl in *.
      count_goals.
  - (* a call while one is pending *)
    subst w'. cbn [Coalescer.made map fst] in *.
    unfold Coalescer.count_all in *.
    destruct (gaps_snoc _ _ _ Hg) as (_ & Hlast).
    destruct ts as [|t1 r] eqn:E; cbn [app].
    + destruct Hc as (Hl' & _). congruence.
    + rewrite <- E in *.
      assert (Hne : ts <> []) by (rewrite E; discriminate).
      specialize (Hlast Hne). specialize (Hlat Hne).
      rewrite E in Hc. destruct Hc as (Hn & Hk & H1 & H2 & Hts & Hfs).
      pose proof (@bnd_call (length (log w)) t1 (now (ev w)) t
                    ltac:(lia) Hk Hle Hlat) as Hb.
      replace (last (t1 :: r ++ [t]) 0) with t
        by (symmetry; apply (last_last (t1 :: r) t 0)).
      unfold Coalescer.count_inv, pend, pendlist in *. simpl in *.
      repeat split; try lia.
      * intros due k Hin. specialize (Hts due k Hin). lia.
      * intros Hne'. specialize (Hfs Hne'). lia.
  - (* the timeout hands over to the animation frame *)
    subst w'. rewrite made_same_log in * by (discriminate || reflexivity).
    cbn [map] in *. rewrite app_nil_r in *.
    unfold Coalescer.count_all in *.
    destruct ts as [|t1 r] eqn:E.
    + destruct Hc as (Hl' & _). congruence.
    + destruct Hc as (Hn & Hk & H1 & H2 & Hts & Hfs).
      unfold Coalescer.count_inv, pend, pendlist in *. simpl in *.
      rewrite Hl in Hn. simpl in Hn.
      specialize (Hts due timeoutCallback_task).
      rewrite Ht in Hts. specialize (Hts (or_introl eq_refl)).
      repeat split; lia.
  - (* the timeout fires *)
    subst w'. apply count_fired; auto; try discriminate.
    intros t1 r E. unfold Coalescer.count_all in Hc. rewrite E in Hc.
    destruct Hc as (_ & _ & _ & _ & Hts & _).
    specialize (Hts due timeoutCallback_task).
    rewrite Ht in Hts. specialize (Hts (or_introl eq_refl)). lia.
  - (* the animation-frame callback fires *)
    subst w'. apply count_fired; auto; try discriminate.
    intros t1 r E. unfold Coalescer.count_all in Hc. rewrite E in Hc.
    destruct Hc as (_ & _ & _ & _ & _ & Hfs).
    specialize (Hfs ltac:(rewrite Hf; discriminate)). lia.
Qed.

(* what makes a script one whose tasks come [later] *)
Variable ok_script : list (nat * action This Arg) -> Prop.
Hypothesis ok_prefix : forall s la, ok_script (s ++ [la]) -> ok_script s.
Hypothesis ok_later :
  forall s t a (w : world),
    ok_script (s ++ [(t, a)]) -> run s init = Some w ->
    s <> [] -> later (now (ev w)) t.

Lemma count_run s (w : world) :
  run s init = Some w ->
  gaps_below delay (map fst (all_calls s init)) -> ok_script s ->
  count_all bnd (map fst (all_calls s init)) w.
Proof.
  revert w. induction s as [|[t a] s IH] using rev_ind; intros w Hr Hg Hok.
  - simpl in Hr. injection Hr as <-. split; reflexivity.
  - rewrite run_snoc in Hr. destruct (run s init) as [w0|] eqn:E0;
      [|discriminate].
    rename Hr into E1.
    assert (Hi : inv w0) by (eapply run_inv; [apply inv_init | exact E0]).
    rewrite (@all_calls_snoc s t a init w0 w E0 E1), map_app in *.
    apply count_step; auto.
    + apply IH; [reflexivity | eapply gaps_app_l; exact Hg |].
      eapply ok_prefix; exact Hok.
    + apply step_transition; assumption.
    + intros Hne. eapply ok_later; eauto.
      intros ->. apply Hne. reflexivity.
Qed.

Lemma count_bound s (w : world) :
  run s init = Some w -> map fst (all_calls s init) <> [] ->
  gaps_below delay (map fst (all_calls s init)) -> ok_script s ->
  length (log w) <= bnd (span (map fst (all_calls s init))).
Proof.
  intros Hr Hne Hg Hok. pose proof (count_run Hr Hg Hok) as Hc.
  unfold Coalescer.count_all in Hc. unfold span.
  destruct (map fst (all_calls s init)) as [|t1 r] eqn:E; [congruence|].
  destruct Hc as (Hn & _). simpl hd. lia.
Qed.

End Bound.

(** With calls less than [delay] apart, the number of firings is at most
    the span of the calls divided by [delay], rounded down, plus two. *)
Lemma firing_bound s (w : world) :
  run s init = Some w -> map fst (all_calls s init) <> [] ->
  gaps_below delay (map fst (all_calls s init)) ->
  length (log w) <= span (map fst (all_calls s init)) / delay + 2.
Proof.
  intros Hr Hne Hg.
  apply (@count_bound floor_bound (fun _ _ => True))
    with (ok_script := fun _ => True); auto.
  - unfold Coalescer.floor_bound. lia.
  - intros k t1 nw t Hd Hk Hle _. unfold Coalescer.floor_bound.
    assert (k <= (t - t1) / delay); [|lia].
    apply Nat.div_le_lower_bound; [lia | nia].
Qed.

(** The clock shows the time of the latest task. *)
Lemma transition_now t a (w w' : world) :
  transition w (t, a) w' -> now (ev w') = t.
Proof.
  intros Htr.
  inversion Htr; subst; try reflexivity;
    unfold Coalescer.fired; destruct (edge_after _ _); reflexivity.
Qed.

Lemma run_now s (w : world) :
  run s init = Some w -> s <> [] -> now (ev w) = last (task_times s) 0.
Proof.
  destruct s as [|[t a] s] using rev_ind; intros Hr Hne; [congruence|].
  rewrite run_snoc in Hr. destruct (run s init) as [w0|] eqn:E0;
    [|discriminate].
  assert (Hi : inv w0) by (eapply run_inv; [apply inv_init | exact E0]).
  unfold task_times. rewrite map_app. simpl. rewrite last_last.
  eapply transition_now, step_transition; eassumption.
Qed.

Lemma increasing_snoc ts t :
  increasing (ts ++ [t]) -> increasing ts /\ (ts <> [] -> last ts 0 < t).
Proof.
  induction ts as [|a [|b r] IH]; intros H.
  - split; [exact I | congruence].
  - simpl in H. split; [exact I | intros _; simpl; lia].
  - destruct H as [Hab H]. destruct (IH H) as [Hg Hl].
    split; [split; assumption|]. intros _. apply Hl. discriminate.
Qed.

(** When moreover no two tasks start at the same instant, the number of
    firings is at most the span divided by [delay], rounded up, plus one. *)
Lemma firing_bound_strict s (w : world) :
  run s init = Some w -> map fst (all_calls s init) <> [] ->
  gaps_below delay (map fst (all_calls s init)) ->
  increasing (task_times s) ->
  length (log w) <= ceil_div (span (map fst (all_calls s init))) delay + 1.
Proof.
  intros Hr Hne Hg Hinc.
  apply (@count_bound ceil_bound lt)
    with (ok_script := fun s => increasing (task_times s)); auto.
  - unfold Coalescer.ceil_bound. lia.
  - intros k t1 nw t Hd Hk Hle Hlt. unfold Coalescer.ceil_bound, ceil_div.
    assert (k + 1 <= (t - t1 + delay - 1) / delay); [|lia].
    apply Nat.div_le_lower_bound; [lia | nia].
  - intros s0 la H. unfold task_times in *. rewrite map_app in H.
    apply (increasing_snoc _ _ H).
  - intros s0 t a w0 H Hr0 Hs0. unfold task_times in H.
    rewrite map_app in H. simpl in H.
    destruct (increasing_snoc _ _ H) as (_ & Hl).
    rewrite (run_now Hr0 Hs0).
    apply Hl. destruct s0; [congruence | discriminate].
Qed.

(** *** The call made last is never dropped *)

Lemma subseq_nil_inv {A : Type} (l : list A) : subseq l [] -> l = [].
Proof. intros H. inversion H. reflexivity. Qed.

Lemma kept_fired cs t a l (w : world) :
  (forall c, a <> Call c) ->
  last_kept cs w -> leadCall w = Some l ->
  last_kept (cs ++ map snd (made t a w (fired t l w))) (fired t l w).
Proof.
  intros Ha (Hsub & Hlast & Hfirst) Hl.
  rewrite (made_fired t l w Ha), map_snd_pair.
  unfold Coalescer.last_kept. rewrite invoked_fired.
  unfold pendlist in *. rewrite Hl in *. cbn [opt_list] in *.
  destruct (snoc_cases (reenter (log w ++ [(t, l)])))
    as [E | (pre & x & E)]; rewrite E.
  - rewrite app_nil_r. cbn [edge_after fold_left].
    repeat split; assumption.
  - rewrite edge_after_last. cbn [opt_list].
    assert (Hsub' : subseq (invoked w ++ [l]) cs).
    { change ([l] ++ opt_list (edgeCall w))
        with ([l] ++ opt_list (edgeCall w)) in Hsub.
      rewrite app_assoc in Hsub. apply subseq_app_inv_l in Hsub.
      exact Hsub. }
    split; [|split].
    + rewrite !app_assoc. apply subseq_snoc.
      rewrite <- (app_nil_r (invoked w ++ [l])).
      apply subseq_app; [exact Hsub' | apply subseq_nil_l].
    + intros pre0 c0 E0. rewrite app_assoc in E0.
      apply app_inj_tail in E0. destruct E0 as (_ & <-).
      exists (invoked w ++ [l]). rewrite <- app_assoc. reflexivity.
    + intros c0 rest E0. destruct cs as [|c1 cs].
      * apply subseq_nil_inv in Hsub'. destruct (invoked w); discriminate.
      * simpl in E0. injection E0 as -> <-.
        destruct (Hfirst c0 cs eq_refl) as (rest' & E').
        destruct (invoked w) as [|y r]; simpl in *.
        -- injection E' as -> _. exists [x]. reflexivity.
        -- injection E' as -> _. exists (r ++ [l; x]). reflexivity.
Qed.

Lemma kept_step cs t a (w w' : world) :
  inv w -> last_kept cs w -> transition w (t, a) w' ->
  last_kept (cs ++ map snd (made t a w w')) w'.
Proof.
  intros (Hp & _ & _) Hk Htr. pose proof Hk as (Hsub & Hlast & Hfirst).
  unfold Coalescer.pending_ok in Hp.
  inversion Htr as [t' c Hle Hl | t' c l Hle Hl | t' l due HR Hle Hl Ht Hd
                   | t' l due HR Hle Hl Ht Hd | t' l HR Hle Hl Hf];
    subst t' a.
  - subst w'. cbn [Coalescer.made map snd].
    rewrite Hl in Hp. destruct Hp as (He & _).
    unfold Coalescer.last_kept, invoked, pendlist in *.
    rewrite Hl, He in *. simpl in *.
    rewrite app_nil_r in *. split; [|split].
    + apply subseq_snoc. exact Hsub.
    + intros pre c0 E. apply app_inj_tail in E. destruct E as (_ & <-).
      exists (map snd (log w)). reflexivity.
    + intros c0 rest E. destruct cs as [|c1 cs].
      * apply subseq_nil_inv in Hsub. rewrite Hsub. simpl in *.
        injection E as <- <-. exists []. reflexivity.
      * simpl in E. injection E as -> <-.
        destruct (Hfirst c0 cs eq_refl) as (rest' & ->).
        exists (rest' ++ [c]). reflexivity.
  - subst w'. cbn [Coalescer.made map snd].
    unfold Coalescer.last_kept, invoked, pendlist in *.
    rewrite Hl in *. simpl in *.
    assert (Hsub' : subseq (map snd (log w) ++ [l]) cs).
    { change (l :: opt_list (edgeCall w))
        with ([l] ++ opt_list (edgeCall w)) in Hsub.
      rewrite app_assoc in Hsub. apply subseq_app_inv_l in Hsub.
      exact Hsub. }
    split; [|split].
    + change [l; c] with ([l] ++ [c]). rewrite app_assoc.
      apply subseq_snoc. exact Hsub'.
    + intros pre c0 E. apply app_inj_tail in E. destruct E as (_ & <-).
      exists (map snd (log w) ++ [l]). rewrite <- app_assoc. reflexivity.
    + intros c0 rest E. destruct cs as [|c1 cs].
      * apply subseq_nil_inv in Hsub'. destruct (map snd (log w)); discriminate.
      * simpl in E. injection E as -> <-.
        destruct (Hfirst c0 cs eq_refl) as (rest' & E').
        destruct (map snd (log w)) as [|x r]; simpl in *.
        -- injection E' as -> _. exists [c]. reflexivity.
        -- injection E' as -> _. exists (r ++ [l; c]). reflexivity.
  - subst w'. rewrite made_same_log by (discriminate || reflexivity).
    cbn [map]. rewrite app_nil_r.
    unfold Coalescer.last_kept, invoked, pendlist in *.
    rewrite Hl in *. simpl in *. repeat split; assumption.
  - subst w'. apply kept_fired; [discriminate | exact Hk | exact Hl].
  - subst w'. apply kept_fired; [discriminate | exact Hk | exact Hl].
Qed.

Lemma kept_run s (w : world) :
  run s init = Some w -> last_kept (map snd (all_calls s init)) w.
Proof.
  revert w. induction s as [|[t a] s IH] using rev_ind; intros w Hr.
  - simpl in Hr. injection Hr as <-. split; [|split].
    + constructor.
    + intros pre c E. destruct pre; discriminate.
    + intros c rest E. discriminate.
  - rewrite run_snoc in Hr. destruct (run s init) as [w0|] eqn:E0;
      [|discriminate].
    assert (Hi : inv w0) by (eapply run_inv; [apply inv_init | exact E0]).
    rewrite (@all_calls_snoc s t a init w0 w E0 Hr), map_app.
    apply kept_step; auto.
    apply step_transition; assumption.
Qed.

Lemma kept_run_from s :
  forall (w w' : world) cs,
    inv w -> last_kept cs w -> run s w = Some w' ->
    last_kept (cs ++ map snd (all_calls s w)) w'.
Proof.
  induction s as [|[t a] s IH]; intros w w' cs Hi Hk Hr.
  - simpl in Hr. injection Hr as <-. cbn. rewrite app_nil_r. exact Hk.
  - cbn [Coalescer.run Coalescer.all_calls] in *.
    destruct (step (t, a) w) as [w1|] eqn:E1; [|discriminate].
    rewrite map_app, app_assoc.
    apply (IH w1 w'); [eapply step_inv; eassumption | | exact Hr].
    apply kept_step; [exact Hi | exact Hk |].
    apply step_transition; assumption.
Qed.

(** *** Left alone, the coalescer runs out of work *)

Lemma tasks_left_le (w : world) : tasks_left w <= 4.
Proof.
  unfold Coalescer.tasks_left, tasks_per_firing.
  destruct (leadCall w), (frames (ev w)), (edgeCall w), afterRAF; simpl; lia.
Qed.

Lemma idle_quiescent (w : world) :
  inv w -> leadCall w = None -> quiescent w /\ next_task w = None.
Proof.
  intros (Hp & _ & _) Hl. unfold Coalescer.pending_ok in Hp.
  rewrite Hl in Hp. destruct Hp as (He & Ht & Hf).
  unfold quiescent, Coalescer.next_task. rewrite Ht, Hf. simpl. auto.
Qed.

Lemma progress (w : world) l :
  inv w -> settled w -> leadCall w = Some l ->
  exists t a w',
    next_task w = Some (t, a) /\ step (t, a) w = Some w' /\
    made t a w w' = [] /\ settled w' /\ tasks_left w' < tasks_left w.
Proof.
  intros Hi Hset Hl. pose proof Hi as (Hp & _ & _).
  unfold Coalescer.pending_ok in Hp. rewrite Hl in Hp.
  assert (Hstep : exists t a, next_task w = Some (t, a) /\
                              (forall c, a <> Call c) /\
                              exists w', step (t, a) w = Some w').
  { destruct w as [lead edge [nw ts fs] lg]. simpl in *.
    destruct Hp as [(due & -> & -> & _) | (HR & -> & -> & _)].
    - exists (Nat.max nw due), Timer. repeat split; [discriminate|].
      unfold Coalescer.step. simpl.
      destruct (Nat.ltb_spec (Nat.max nw due) nw); [lia|].
      destruct (Nat.leb_spec due (Nat.max nw due)); [|lia].
      eexists; reflexivity.
    - exists nw, Frame. repeat split; [discriminate|].
      unfold Coalescer.step. simpl. rewrite Nat.ltb_irrefl.
      eexists; reflexivity. }
  destruct Hstep as (t & a & Hn & Hc & w' & Hs).
  exists t, a, w'. split; [exact Hn|]. split; [exact Hs|].
  pose proof (step_transition _ Hi Hs) as Htr.
  inversion Htr as [t' c Hle Hl' | t' c l' Hle Hl' | t' l' due HR Hle Hl' Ht Hd
                   | t' l' due HR Hle Hl' Ht Hd | t' l' HR Hle Hl' Hf];
    subst t' a.
  - destruct (Hc c eq_refl).
  - destruct (Hc c eq_refl).
  - subst w'. split; [apply made_same_log; [exact Hc | reflexivity]|].
    split; [apply (@settled_same w _ Hset); reflexivity|].
    unfold Coalescer.tasks_left, tasks_per_firing. simpl.
    rewrite Hl, HR.
    destruct Hp as [(due' & _ & -> & _) | (_ & Ht' & _ & _)];
      [|rewrite Ht' in Ht; discriminate].
    destruct (edgeCall w); simpl; lia.
  - subst w'. split; [rewrite (made_fired t l' w Hc), (Hset (t, l') []);
                      reflexivity|].
    split; [apply (@settled_grow w _ _ Hset (log_fired t l' w))|].
    rewrite (fired_settled t l' Hset).
    unfold Coalescer.tasks_left, tasks_per_firing.
    rewrite Hl, HR.
    destruct Hp as [(due' & _ & -> & _) | (HR' & _)]; [|congruence].
    destruct (edgeCall w); simpl; lia.
  - subst w'. split; [rewrite (made_fired t l' w Hc), (Hset (t, l') []);
                      reflexivity|].
    split; [apply (@settled_grow w _ _ Hset (log_fired t l' w))|].
    rewrite (fired_settled t l' Hset).
    unfold Coalescer.tasks_left, tasks_per_firing.
    rewrite Hl, HR, Hf.
    destruct (edgeCall w); simpl; lia.
Qed.

Lemma drain_quiescent n cs (w : world) :
  inv w -> settled w -> last_kept cs w -> tasks_left w <= n ->
  quiescent (drain n w) /\ last_kept cs (drain n w).
Proof.
  revert w. induction n as [|n IH]; intros w Hi Hset Hk Hn.
  - simpl. destruct (leadCall w) as [l|] eqn:Hl.
    + destruct (progress Hi Hset Hl) as (t & a & w' & _ & _ & _ & _ & Hlt).
      lia.
    + split; [apply (idle_quiescent Hi Hl) | exact Hk].
  - cbn [Coalescer.drain]. destruct (leadCall w) as [l|] eqn:Hl.
    + destruct (progress Hi Hset Hl)
        as (t & a & w' & Hnx & Hs & Hc & Hset' & Hlt).
      rewrite Hnx, Hs. apply IH.
      * eapply step_inv; eassumption.
      * exact Hset'.
      * rewrite <- (app_nil_r cs).
        change (@nil callData) with (map snd (@nil (nat * callData))).
        rewrite <- Hc.
        apply kept_step; auto.
        apply step_transition; assumption.
      * lia.
    + destruct (idle_quiescent Hi Hl) as (Hq & ->). split; assumption.
Qed.

(** *** A callback that makes no call of its own *)

Lemma calls_app (s1 s2 : list (nat * action This Arg)) :
  calls (s1 ++ s2) = calls s1 ++ calls s2.
Proof.
  induction s1 as [|[t [c| |]] s1 IH]; simpl; rewrite ?IH; reflexivity.
Qed.

Section Quiet.
Hypothesis quiet : forall h, reenter h = [].

Lemma all_calls_quiet s :
  forall w w' : world, run s w = Some w' -> all_calls s w = calls s.
Proof.
  induction s as [|[t a] s IH]; intros w w' Hr; [reflexivity|].
  cbn [Coalescer.run Coalescer.all_calls] in *.
  destruct (step (t, a) w) as [w1|] eqn:E1; [|discriminate].
  rewrite (IH w1 w' Hr).
  destruct a as [c| |]; cbn [Coalescer.made calls]; [reflexivity|..];
    unfold own_calls; rewrite quiet;
    destruct (length (log w) <? length (log w1)); reflexivity.
Qed.

Lemma last_kept_run s (w : world) :
  run s init = Some w -> last_kept (issued s) w.
Proof.
  intros Hr. unfold issued. rewrite <- (@all_calls_quiet s init w Hr).
  apply kept_run. exact Hr.
Qed.

End Quiet.

End Proofs.
(** *** Spacing, the bound on firings, and the last call *)

Section Claims.
Variables This Arg : Type.
Variable reenter : list (nat * callData This Arg) -> list (callData This Arg).
Variable delay : nat.
Variable afterRAF : bool.

(** C2, as amended.  Over any run of a coalescer from its creation,
    whatever the callback does: when it is not frame-deferred, any two
    invocations of the callback are at least [delay] apart; and when each
    call to the proxy, the callback's own calls included, comes less than
    [delay] after the previous one, the callback has fired at most
    floor (span of the calls / delay) + 2 times.  That is
    ceil (span / delay) + 1 unless the span is an exact multiple of [delay]
    (zero included); and ceil (span / delay) + 1 bounds the firings whenever
    no two tasks of the run start at the same instant. *)
Theorem min_spacing_and_firing_bound s (w : world This Arg) :
  run reenter delay afterRAF s init = Some w ->
  (afterRAF = false ->
   forall i j ti tj,
     i < j ->
     nth_error (fired_at w) i = Some ti ->
     nth_error (fired_at w) j = Some tj ->
     ti + delay <= tj)
  /\ (let ts := map fst (all_calls reenter delay afterRAF s init) in
      ts <> [] ->
      gaps_below delay ts ->
      length (log w) <= span ts / delay + 2
      /\ (increasing (task_times s) ->
          length (log w) <= ceil_div (span ts) delay + 1)).
Proof.
  intros Hr. split.
  - intros _. apply spaced_pairwise.
    assert (Hi : inv delay afterRAF w)
      by (eapply run_inv; [apply inv_init | exact Hr]).
    apply Hi.
  - intros ts Hne Hg. split.
    + eapply firing_bound; eassumption.
    + intros Hinc. eapply firing_bound_strict; eassumption.
Qed.

(** C3.  Over any run of a coalescer from its creation, whatever the
    callback does, [c] being the call made to the proxy last (by a caller or
    by the callback itself): whenever the coalescer is quiescent, the last
    invocation of the callback was with [c]; before that, [c] is the last of
    the calls it holds; the calls invoked and held are, in order, a selection
    of the calls made (calls are dropped, none is invented or reordered) that
    starts with the first call made.  When no further call is made, the
    event loop left alone brings quiescence within four tasks, and [c] is
    then the call invoked last; and however late the timeouts and the
    animation frames run, once the coalescer is quiescent with no further
    call made the last invocation was with [c]. *)
Theorem last_call_is_invoked s (w : world This Arg) pre c :
  run reenter delay afterRAF s init = Some w ->
  map snd (all_calls reenter delay afterRAF s init) = pre ++ [c] ->
  (quiescent w -> exists pre', invoked w = pre' ++ [c])
  /\ (exists pre', invoked w ++ pendlist w = pre' ++ [c])
  /\ subseq (invoked w ++ pendlist w) (pre ++ [c])
  /\ (exists rest, invoked w ++ pendlist w = hd c (pre ++ [c]) :: rest)
  /\ (settled reenter w ->
      let w' := drain reenter delay afterRAF 4 w in
      quiescent w'
      /\ (exists pre', invoked w' = pre' ++ [c])
      /\ subseq (invoked w') (pre ++ [c])
      /\ (exists rest, invoked w' = hd c (pre ++ [c]) :: rest))
  /\ (forall s' w'',
        run reenter delay afterRAF s' w = Some w'' ->
        all_calls reenter delay afterRAF s' w = [] ->
        quiescent w'' ->
        exists pre', invoked w'' = pre' ++ [c]).
Proof.
  intros Hr Hs.
  assert (Hi : inv delay afterRAF w)
    by (eapply run_inv; [apply inv_init | exact Hr]).
  pose proof (@kept_run This Arg reenter delay afterRAF s w Hr) as Hk.
  rewrite Hs in Hk.
  assert (Hquiet : forall (w0 : world This Arg),
             last_kept (pre ++ [c]) w0 -> quiescent w0 ->
             exists pre', invoked w0 = pre' ++ [c]).
  { intros w0 (_ & Hlast & _) (Hl & He & _).
    destruct (Hlast pre c eq_refl) as (pre' & E).
    unfold pendlist in E. rewrite Hl, He, app_nil_r in E.
    exists pre'. exact E. }
  assert (Hfirst : forall (w0 : world This Arg),
             last_kept (pre ++ [c]) w0 ->
             exists rest, invoked w0 ++ pendlist w0 = hd c (pre ++ [c]) :: rest).
  { intros w0 (_ & _ & Hf).
    destruct (pre ++ [c]) as [|c0 rest] eqn:E;
      [destruct pre; discriminate|].
    apply (Hf c0 rest eq_refl). }
  split; [apply Hquiet, Hk|].
  split; [exact (proj1 (proj2 Hk) pre c eq_refl)|].
  split; [exact (proj1 Hk)|]. split; [apply Hfirst, Hk|]. split.
  - intros Hset w'.
    destruct (@drain_quiescent This Arg reenter delay afterRAF 4 (pre ++ [c])
                w Hi Hset Hk (tasks_left_le afterRAF w))
      as (Hq & Hk').
    fold w' in Hq, Hk'.
    assert (Hp : pendlist w' = []).
    { destruct Hq as (Hl & He & _). unfold pendlist.
      rewrite Hl, He. reflexivity. }
    split; [exact Hq|]. split; [apply (Hquiet w' Hk' Hq)|].
    split.
    + destruct Hk' as (Hsub & _). rewrite Hp, app_nil_r in Hsub. exact Hsub.
    + destruct (Hfirst w' Hk') as (rest & E).
      rewrite Hp, app_nil_r in E. exists rest. exact E.
  - intros s' w'' Hr' Hnone Hq.
    pose proof (@kept_run_from This Arg reenter delay afterRAF s' w w''
                  (pre ++ [c]) Hi Hk Hr') as Hk''.
    rewrite Hnone in Hk''. cbn [map] in Hk''. rewrite app_nil_r in Hk''.
    apply (Hquiet w'' Hk'' Hq).
Qed.

End Claims.

(** *** The claims on concrete runs *)

(** C2, counterexample.  Two proxy calls issued at the same instant (span 0,
    less than the delay 10 apart) make the callback, which makes no call of
    its own, fire twice, once at 10 and once at 20, while
    ceil (0 / 10) + 1 = 1. *)
Lemma firing_bound_counterexample :
  run quiet_callback 10 false two_calls_script init = Some two_calls_world
  /\ call_times two_calls_script = [0; 0]
  /\ all_calls quiet_callback 10 false two_calls_script init
     = calls two_calls_script
  /\ gaps_below 10 (call_times two_calls_script)
  /\ fired_at two_calls_world = [10; 20]
  /\ ~ (length (log two_calls_world)
        <= ceil_div (span (call_times two_calls_script)) 10 + 1).
Proof.
  split; [reflexivity|]. split; [reflexivity|]. split; [reflexivity|].
  split; [simpl; lia|]. split; [reflexivity|].
  simpl. lia.
Qed.

Lemma min_spacing_and_firing_bound_witness :
  run once_callback 10 false busy_script init = Some busy_world
  /\ all_calls once_callback 10 false busy_script init
     = [(0, call_with 1); (5, call_with 2); (10, call_with 99)]
  /\ ((false = false ->
       forall i j ti tj,
         i < j ->
         nth_error (fired_at busy_world) i = Some ti ->
         nth_error (fired_at busy_world) j = Some tj ->
         ti + 10 <= tj)
      /\ (let ts := map fst (all_calls once_callback 10 false busy_script init)
          in
          ts <> [] ->
          gaps_below 10 ts ->
          length (log busy_world) <= span ts / 10 + 2
          /\ (increasing (task_times busy_script) ->
              length (log busy_world) <= ceil_div (span ts) 10 + 1))).
Proof.
  split; [reflexivity|]. split; [reflexivity|].
  apply (@min_spacing_and_firing_bound unit nat once_callback 10 false
           busy_script busy_world).
  reflexivity.
Defined.

Lemma last_call_is_invoked_witness :
  run once_callback 10 false once_script init = Some once_world
  /\ map snd (all_calls once_callback 10 false once_script init)
     = [call_with 1] ++ [call_with 99]
  /\ settled once_callback once_world
  /\ invoked (drain once_callback 10 false 4 once_world)
     = [call_with 1; call_with 99]
  /\ (quiescent (drain once_callback 10 false 4 once_world)
      /\ (exists pre',
             invoked (drain once_callback 10 false 4 once_world)
             = pre' ++ [call_with 99])
      /\ subseq (invoked (drain once_callback 10 false 4 once_world))
                ([call_with 1] ++ [call_with 99])
      /\ (exists rest,
             invoked (drain once_callback 10 false 4 once_world)
             = hd (call_with 99) ([call_with 1] ++ [call_with 99]) :: rest)).
Proof.
  assert (Hset : settled once_callback once_world)
    by (intros x h; reflexivity).
  split; [reflexivity|]. split; [reflexivity|]. split; [exact Hset|].
  split; [reflexivity|].
  pose proof (@last_call_is_invoked unit nat once_callback 10 false
                once_script once_world
                [call_with 1] (call_with 99) eq_refl eq_refl) as H.
  exact (proj1 (proj2 (proj2 (proj2 (proj2 H)))) Hset).
Defined.

Lemma two_slot_protocol_witness :
  reachable quiet_callback 10 true three_calls_world
  /\ (edgeCall three_calls_world <> None ->
      leadCall three_calls_world <> None).
Proof.
  assert (Hr : reachable quiet_callback 10 true three_calls_world)
    by (exists three_calls_script; reflexivity).
  split; [exact Hr|].
  apply (@two_slot_protocol unit nat quiet_callback 10 true
           three_calls_world Hr).
Defined.

Lemma invocation_is_asynchronous_witness :
  reachable quiet_callback 0 false (@init unit nat)
  /\ (forall c, log (proxy 0 c (@init unit nat)) = log (@init unit nat)).
Proof.
  assert (Hr : reachable quiet_callback 0 false (@init unit nat))
    by (exists []; reflexivity).
  split; [exact Hr|].
  apply (@invocation_is_asynchronous unit nat quiet_callback 0 false
           init Hr).
Defined.

End CoalescerProofs.

(** ** The controller: proofs *)

Module ControllerProofs.
Import Controller.

Section Proofs.
Context {P : Type} {sessions : Session P}.
Variable isBrowser : bool.
Variable mutationsSupported : bool.

Local Abbreviation world := (@world P).
Local Abbreviation connect := (@connect P isBrowser mutationsSupported).
Local Abbreviation disconnect := (@disconnect P isBrowser).
Local Abbreviation _addListeners := (@_addListeners P isBrowser mutationsSupported).
Local Abbreviation _removeListeners := (@_removeListeners P isBrowser).
Local Abbreviation set_continuousUpdates :=
  (@set_continuousUpdates P mutationsSupported).
Local Abbreviation constructor := (@constructor P mutationsSupported).
Local Abbreviation step := (@step P sessions isBrowser mutationsSupported).
Local Abbreviation act := (@act P sessions isBrowser mutationsSupported).
Local Abbreviation run := (@run P sessions isBrowser mutationsSupported).
Local Abbreviation reachable :=
  (@reachable P sessions isBrowser mutationsSupported).
Local Abbreviation ctl_inv := (@ctl_inv P isBrowser mutationsSupported).
Local Abbreviation drain := (@drain P sessions isBrowser mutationsSupported).
Local Abbreviation quiescent := (@quiescent P).
Local Abbreviation passes := (@passes P).
Local Abbreviation session_calls := (@session_calls P).
Local Abbreviation attach_events := (attach_events mutationsSupported).
Local Abbreviation detach_events := (detach_events mutationsSupported).

(** *** What the two proxies do *)

Lemma closure_proxy_eq (f : throttled) (d : nat) (c : callData) (w : world) :
  Throttle.proxy (get_lead f) (set_lead f) (set_edge f) d
    (schedule_timeoutCallback f) c w =
  match leadCall (calls_of f w) with
  | Some l => set_calls_of f (mkCaptured (Some l) (Some c)) w
  | None =>
      set_ev (setTimeout (timeoutCallback_task f) d (ev w))
        (set_calls_of f (mkCaptured (Some c) (edgeCall (calls_of f w))) w)
  end.
Proof.
  unfold Throttle.proxy, get_lead, set_lead, set_edge,
    schedule_timeoutCallback.
  destruct f; destruct w as [a b m o [rl re] [cl ce] v r p t]; simpl;
    [destruct rl | destruct cl]; reflexivity.
Qed.

Lemma refresh_eq (c : callData) (w : world) :
  refresh c w =
  match leadCall (refresh_calls w) with
  | Some l => set_refresh_calls (mkCaptured (Some l) (Some c)) w
  | None =>
      set_ev (setTimeout (timeoutCallback_task refresh_throttle) 30 (ev w))
        (set_refresh_calls
           (mkCaptured (Some c) (edgeCall (refresh_calls w))) w)
  end.
Proof. apply (closure_proxy_eq refresh_throttle). Qed.

Lemma _continuousUpdateHandler_eq (c : callData) (w : world) :
  _continuousUpdateHandler c w =
  match leadCall (continuous_calls w) with
  | Some l => set_continuous_calls (mkCaptured (Some l) (Some c)) w
  | None =>
      set_ev (setTimeout (timeoutCallback_task continuous_throttle) 70 (ev w))
        (set_continuous_calls
           (mkCaptured (Some c) (edgeCall (continuous_calls w))) w)
  end.
Proof. apply (closure_proxy_eq continuous_throttle). Qed.

(** *** One pass over the observers *)

Lemma pass_unfold (o : observer) rest (p : P) :
  pass (o :: rest) p =
  let p1 := gatherActive o p in
  let active := hasActive o p1 in
  let p2 := if active then broadcastActive o p1 else p1 in
  (active || pass_changes rest p2, pass_page rest p2,
   [GatherActive o; HasActive o active]
     ++ (if active then [BroadcastActive o] else [])
     ++ pass_events rest p2).
Proof.
  unfold pass_changes, pass_page, pass_events. cbn [pass].
  destruct (pass rest _) as [[b q] evs]. reflexivity.
Qed.

Lemma updateObservers_fold (obs : list observer) (b : bool) (w : world) :
  fold_left
    (fun (acc : bool * world) (observer : observer) =>
       let (hasChanges, w) := acc in
       let w := set_page (gatherActive observer (page w)) w in
       let w := record (GatherActive observer) w in
       let active := hasActive observer (page w) in
       let w := record (HasActive observer active) w in
       if active
       then
         let w := set_page (broadcastActive observer (page w)) w in
         (true, record (BroadcastActive observer) w)
       else (hasChanges, w))
    obs (b, w) =
  (b || pass_changes obs (page w),
   set_trace (trace w ++ pass_events obs (page w))
     (set_page (pass_page obs (page w)) w)).
Proof.
  revert b w. induction obs as [|o rest IH]; intros b w.
  - simpl. rewrite orb_false_r, app_nil_r. destruct w; reflexivity.
  - cbn [fold_left]. unfold pass_changes, pass_page, pass_events.
    rewrite pass_unfold. cbv zeta. cbn [fst snd].
    destruct w as [a b' m ob rc cc v r p t]. cbn.
    destruct (hasActive o (gatherActive o p)) eqn:Ha; rewrite IH; cbn.
    + f_equal.
      * destruct b; reflexivity.
      * unfold set_trace, set_page, record. cbn.
        rewrite <- !app_assoc. reflexivity.
    + f_equal. unfold set_trace, set_page, record. cbn.
      rewrite <- !app_assoc. reflexivity.
Qed.

Lemma _updateObservers_eq (w : world) :
  _updateObservers w =
  (pass_changes (_observers w) (page w),
   set_trace (trace w ++ pass_events (_observers w) (page w))
     (set_page (pass_page (_observers w) (page w)) w)).
Proof.
  unfold _updateObservers. rewrite updateObservers_fold. reflexivity.
Qed.

Lemma refresh_method_eq (w : world) :
  refresh_method w =
  let obs := _observers w in
  let w1 :=
    set_trace (trace w ++ [RefreshPass] ++ pass_events obs (page w))
      (set_page (pass_page obs (page w)) w) in
  if pass_changes obs (page w) then refresh own_call w1
  else if _isCycleContinuous w && _listenersEnabled w
       then _continuousUpdateHandler own_call w1
       else w1.
Proof.
  unfold refresh_method. rewrite _updateObservers_eq. cbv zeta.
  destruct w as [a b m o rc cc v r p t]. unfold record, set_trace, set_page.
  cbn. rewrite <- !app_assoc. reflexivity.
Qed.

(** *** Only [connect], [disconnect] and the setter write the controller's
    own fields *)

Lemma same_ctl_refl (w : world) : same_ctl w w.
Proof. repeat split. Qed.

Lemma same_ctl_trans (w1 w2 w3 : world) :
  same_ctl w1 w2 -> same_ctl w2 w3 -> same_ctl w1 w3.
Proof.
  intros (A1 & A2 & A3 & A4 & A5) (B1 & B2 & B3 & B4 & B5).
  repeat split; congruence.
Qed.

Lemma same_ctl_proxy f d c (w : world) :
  same_ctl w
    (Throttle.proxy (get_lead f) (set_lead f) (set_edge f) d
       (schedule_timeoutCallback f) c w).
Proof.
  rewrite closure_proxy_eq. destruct (leadCall (calls_of f w)), f; repeat split.
Qed.

Lemma same_ctl_refresh c (w : world) : same_ctl w (refresh c w).
Proof. apply (same_ctl_proxy refresh_throttle). Qed.

Lemma same_ctl_refresh_method (w : world) : same_ctl w (refresh_method w).
Proof.
  rewrite refresh_method_eq. cbv zeta.
  destruct (pass_changes _ _);
    [|destruct (_isCycleContinuous w && _listenersEnabled w)].
  - eapply same_ctl_trans; [|apply same_ctl_refresh]. repeat split.
  - eapply same_ctl_trans;
      [|apply (same_ctl_proxy continuous_throttle)]. repeat split.
  - repeat split.
Qed.

Lemma same_ctl_callback f c (w : world) : same_ctl w (callback f c w).
Proof.
  destruct f; [apply same_ctl_refresh_method | apply same_ctl_refresh].
Qed.

Lemma same_ctl_set_calls f v (w : world) : same_ctl w (set_calls_of f v w).
Proof. destruct f; repeat split. Qed.

Lemma same_ctl_invokeCallback f (w : world) : same_ctl w (invokeCallback f w).
Proof.
  unfold invokeCallback, Throttle.invokeCallback.
  destruct (get_lead f w) as [l|]; [|apply same_ctl_refl].
  set (w1 := set_lead f None (callback f l w)).
  assert (H1 : same_ctl w w1).
  { eapply same_ctl_trans; [apply (same_ctl_callback f l)|].
    apply same_ctl_set_calls. }
  destruct (get_edge f w1) as [e|]; [|exact H1].
  eapply same_ctl_trans; [exact H1|].
  eapply same_ctl_trans; [apply same_ctl_proxy|].
  apply same_ctl_set_calls.
Qed.

Lemma same_ctl_timeoutCallback f (w : world) :
  same_ctl w (timeoutCallback f w).
Proof.
  unfold timeoutCallback, Throttle.timeoutCallback.
  destruct (afterRAF f); [repeat split | apply same_ctl_invokeCallback].
Qed.

Lemma same_ctl_run_task k (w : world) : same_ctl w (run_task k w).
Proof.
  destruct k; [apply same_ctl_timeoutCallback | apply same_ctl_invokeCallback].
Qed.

Lemma same_ctl_inv (w w' : world) : same_ctl w w' -> ctl_inv w -> ctl_inv w'.
Proof.
  intros (A1 & A2 & A3 & A4 & A5) H. unfold Controller.ctl_inv in *.
  rewrite A1, A2, A3, A4, A5. exact H.
Qed.

(** *** [indexOf], [~index] and [splice] *)

Lemma lnot_truthy (z : Z) : truthy (Z.lnot z) = negb (Z.eqb z (-1)).
Proof.
  unfold truthy, Z.lnot.
  destruct (Z.eqb_spec (Z.pred (- z)) 0), (Z.eqb_spec z (-1));
    try reflexivity; lia.
Qed.

Lemma indexOf_from_spec (l : list observer) (o : observer) (i : Z) :
  (0 <= i)%Z ->
  (~ In o l /\ indexOf_from l o i = (-1)%Z)
  \/ (exists l1 l2,
         l = l1 ++ o :: l2 /\ ~ In o l1 /\
         indexOf_from l o i = (i + Z.of_nat (length l1))%Z).
Proof.
  revert i. induction l as [|x r IH]; intros i Hi.
  - left. split; [intros [] | reflexivity].
  - simpl. destruct (Nat.eqb_spec x o) as [->|Hne].
    + right. exists [], r. repeat split; [intros [] | simpl; lia].
    + destruct (IH (i + 1)%Z ltac:(lia)) as [(Hn & E) | (l1 & l2 & -> & Hn & E)].
      * left. split; [intros [?|?]; contradiction | exact E].
      * right. exists (x :: l1), l2. repeat split.
        -- intros [?|?]; contradiction.
        -- rewrite E. simpl length. lia.
Qed.

Lemma splice_middle (l1 l2 : list observer) (o : observer) :
  firstn (length l1) (l1 ++ o :: l2) ++ skipn (S (length l1)) (l1 ++ o :: l2)
  = l1 ++ l2.
Proof.
  induction l1 as [|x l1 IH]; simpl; [reflexivity|].
  f_equal. exact IH.
Qed.

Lemma indexOf_absent (l : list observer) (o : observer) :
  ~ In o l -> indexOf l o = (-1)%Z.
Proof.
  intros Hn. destruct (indexOf_from_spec l o (i := 0%Z) ltac:(lia))
    as [(_ & E) | (l1 & l2 & -> & _ & _)]; [exact E|].
  contradiction Hn. apply in_or_app. right. left. reflexivity.
Qed.

Lemma indexOf_present (l : list observer) (o : observer) :
  In o l ->
  exists l1 l2,
    l = l1 ++ o :: l2 /\ ~ In o l1 /\
    indexOf l o = Z.of_nat (length l1) /\
    splice1 l (indexOf l o) = l1 ++ l2.
Proof.
  intros Hin. destruct (indexOf_from_spec l o (i := 0%Z) ltac:(lia))
    as [(Hn & _) | (l1 & l2 & -> & Hn & E)]; [contradiction|].
  exists l1, l2. unfold indexOf. rewrite E. simpl.
  repeat split; auto. unfold splice1. rewrite Nat2Z.id.
  apply splice_middle.
Qed.

Lemma isConnected_In (o : observer) (w : world) :
  isConnected o w = true <-> In o (_observers w).
Proof.
  unfold isConnected. rewrite negb_involutive, lnot_truthy.
  destruct (in_dec Nat.eq_dec o (_observers w)) as [Hin|Hn].
  - destruct (indexOf_present _ _ Hin) as (l1 & l2 & _ & _ & E & _).
    rewrite E. split; [auto|]. intros _.
    destruct (Z.eqb_spec (Z.of_nat (length l1)) (-1)); [lia | reflexivity].
  - rewrite (indexOf_absent _ _ Hn). simpl. split; [discriminate|contradiction].
Qed.

(** *** Attaching and detaching the listeners *)

Lemma trace_proxy f d c (w : world) :
  trace (Throttle.proxy (get_lead f) (set_lead f) (set_edge f) d
           (schedule_timeoutCallback f) c w) = trace w.
Proof.
  rewrite closure_proxy_eq. destruct (leadCall (calls_of f w)), f; reflexivity.
Qed.

Lemma trace_refresh c (w : world) : trace (refresh c w) = trace w.
Proof. apply (trace_proxy refresh_throttle). Qed.

Lemma addListeners_skip (w : world) :
  isBrowser = false \/ _listenersEnabled w = true -> _addListeners w = w.
Proof.
  intros [H|H]; unfold Controller._addListeners; rewrite H;
    rewrite ?orb_true_r; reflexivity.
Qed.

Lemma addListeners_fields (w : world) :
  isBrowser = true -> _listenersEnabled w = false ->
  _mutationsObserver w = false ->
  same_ctl
    (mkWorld (_isCycleContinuous w) true mutationsSupported (_observers w)
       (refresh_calls w) (continuous_calls w) (ev w) true (page w) (trace w))
    (_addListeners w)
  /\ trace (_addListeners w) = trace w ++ attach_events.
Proof.
  intros Hb Hl Hm. unfold Controller._addListeners. rewrite Hb, Hl.
  cbn [negb orb]. cbv zeta.
  destruct w as [a b m o rc cc v r p t]. cbn in Hl, Hm. subst b m.
  unfold Controller.attach_events.
  destruct mutationsSupported; cbn; destruct a; cbn;
    rewrite ?trace_refresh; cbn; rewrite <- ?app_assoc;
    (split; [|reflexivity]);
    try (eapply same_ctl_trans; [|apply same_ctl_refresh]);
    repeat split.
Qed.

Lemma removeListeners_skip (w : world) :
  isBrowser = false \/ _listenersEnabled w = false -> _removeListeners w = w.
Proof.
  intros [H|H]; unfold Controller._removeListeners; rewrite H;
    rewrite ?orb_true_r; reflexivity.
Qed.

Lemma removeListeners_fields (w : world) :
  isBrowser = true -> _listenersEnabled w = true ->
  _mutationsObserver w = mutationsSupported ->
  _removeListeners w =
  mkWorld (_isCycleContinuous w) false false (_observers w)
    (refresh_calls w) (continuous_calls w) (ev w) false (page w)
    (trace w ++ detach_events).
Proof.
  intros Hb Hl Hm. unfold Controller._removeListeners. rewrite Hb, Hl.
  cbn [negb orb]. cbv zeta.
  destruct w as [a b m o rc cc v r p t]. cbn in *. subst b m.
  unfold Controller.detach_events.
  destruct mutationsSupported; unfold_setters; rewrite <- ?app_assoc;
    reflexivity.
Qed.

(** *** [connect] and [disconnect] *)

Lemma is_nil_app (l : list observer) o : is_nil (l ++ [o]) = false.
Proof. destruct l; reflexivity. Qed.

Lemma is_nil_In (l : list observer) o : In o l -> is_nil l = false.
Proof. destruct l; [intros [] | reflexivity]. Qed.

Lemma connect_spec (o : observer) (w : world) :
  ctl_inv w ->
  _observers (connect o w)
  = (if isConnected o w then _observers w else _observers w ++ [o])
  /\ trace (connect o w)
     = trace w
         ++ (if isBrowser && is_nil (_observers w) then attach_events else [])
  /\ _isCycleContinuous (connect o w) = _isCycleContinuous w
  /\ ctl_inv (connect o w).
Proof.
  intros (Hnd & Hle & Hrl & Hmo & Hcc). unfold Controller.connect.
  set (obs' := if isConnected o w then _observers w else _observers w ++ [o]).
  set (w1 := if negb (isConnected o w)
             then set_observers (_observers w ++ [o]) w else w).
  assert (H1 : w1 = set_observers obs' w).
  { unfold w1, obs'. destruct (isConnected o w); [|reflexivity].
    destruct w; reflexivity. }
  assert (Hnd' : NoDup obs').
  { unfold obs'. destruct (isConnected o w) eqn:Hc; [exact Hnd|].
    apply NoDup_app; [exact Hnd | repeat constructor; intros [] |].
    intros x Hx [<-|[]]. apply isConnected_In in Hx. congruence. }
  assert (Hnil' : is_nil obs' = false).
  { unfold obs'. destruct (isConnected o w) eqn:Hc.
    - apply isConnected_In in Hc. eapply is_nil_In; exact Hc.
    - apply is_nil_app. }
  assert (Hnil : is_nil (_observers w) = true -> isConnected o w = false).
  { intros Hn. destruct (isConnected o w) eqn:Hc; [|reflexivity].
    apply isConnected_In in Hc. rewrite (is_nil_In _ _ Hc) in Hn.
    discriminate. }
  clearbody w1. subst w1. cbv zeta.
  change (_listenersEnabled (set_observers obs' w))
    with (_listenersEnabled w).
  set (att := isBrowser && is_nil (_observers w)).
  destruct (bool_dec isBrowser true) as [Hb|Hb];
    [|apply not_true_is_false in Hb].
  - destruct (is_nil (_observers w)) eqn:Hn.
    + (* the first observer: the listeners are added *)
      assert (Hatt : att = true) by (unfold att; rewrite Hb; reflexivity).
      assert (Hle' : _listenersEnabled w = false)
        by (rewrite Hle, Hb; reflexivity).
      rewrite Hatt, Hle'. cbn [negb].
      rewrite Hle' in Hrl, Hmo. cbn [andb] in Hmo.
      destruct (@addListeners_fields (set_observers obs' w) Hb Hle' Hmo)
        as ((A1 & A2 & A3 & A4 & A5) & Ht).
      cbn in A1, A2, A3, A4, A5.
      split; [exact A4|]. split; [exact Ht|]. split; [exact A1|].
      unfold Controller.ctl_inv. rewrite A1, A2, A3, A4, A5, Hnil'.
      rewrite Hb. repeat split; auto.
    + assert (Hatt : att = false) by (unfold att; rewrite Hb; reflexivity).
      assert (Hle' : _listenersEnabled w = true)
        by (rewrite Hle, Hb; reflexivity).
      rewrite Hatt, Hle'. cbn [negb]. rewrite app_nil_r.
      split; [reflexivity|]. split; [reflexivity|]. split; [reflexivity|].
      unfold Controller.ctl_inv. cbn. rewrite Hnil'.
      repeat split; auto.
  - assert (Hatt : att = false) by (unfold att; rewrite Hb; reflexivity).
    assert (Hle' : _listenersEnabled w = false)
      by (rewrite Hle, Hb; reflexivity).
    rewrite Hatt, Hle'. cbn [negb].
    rewrite addListeners_skip by (left; exact Hb).
    rewrite app_nil_r.
    split; [reflexivity|]. split; [reflexivity|]. split; [reflexivity|].
    unfold Controller.ctl_inv. cbn. rewrite Hb.
    repeat split; auto.
Qed.

Lemma without_absent (o : observer) (l : list observer) :
  ~ In o l -> without o l = l.
Proof.
  induction l as [|x r IH]; intros Hn; [reflexivity|].
  unfold without in *. simpl.
  destruct (Nat.eqb_spec x o) as [->|Hne].
  - contradiction Hn. left. reflexivity.
  - simpl. rewrite IH; [reflexivity|].
    intros H. apply Hn. right. exact H.
Qed.

Lemma without_app (o : observer) (l1 l2 : list observer) :
  without o (l1 ++ l2) = without o l1 ++ without o l2.
Proof. apply filter_app. Qed.

Lemma splice_without (o : observer) (l : list observer) :
  NoDup l -> In o l -> splice1 l (indexOf l o) = without o l.
Proof.
  intros Hnd Hin.
  destruct (indexOf_present _ _ Hin) as (l1 & l2 & -> & Hn1 & _ & ->).
  assert (Hn2 : ~ In o l2).
  { apply NoDup_remove_2 in Hnd. intros H. apply Hnd.
    apply in_or_app. right. exact H. }
  rewrite without_app. unfold without at 2. simpl.
  rewrite Nat.eqb_refl. simpl. fold (without o l2).
  rewrite !without_absent by assumption. reflexivity.
Qed.

Lemma length_truthy (l : list observer) :
  negb (truthy (Z.of_nat (length l))) = is_nil l.
Proof. destruct l; reflexivity. Qed.

Lemma is_nil_without (o : observer) (l : list observer) :
  NoDup l -> is_nil (without o l) = is_nil l || is_only o l.
Proof.
  intros Hnd. destruct l as [|x [|y r]]; [reflexivity| |].
  - unfold without. simpl. destruct (Nat.eqb x o); reflexivity.
  - unfold without. simpl.
    destruct (Nat.eqb_spec x o) as [->|Hx]; simpl; [|reflexivity].
    destruct (Nat.eqb_spec y o) as [->|Hy]; simpl; [|reflexivity].
    inversion Hnd as [|? ? Hn _]. contradiction Hn. left. reflexivity.
Qed.

Lemma NoDup_without (o : observer) (l : list observer) :
  NoDup l -> NoDup (without o l).
Proof. apply NoDup_filter. Qed.

Lemma disconnect_spec (o : observer) (w : world) :
  ctl_inv w ->
  _observers (disconnect o w) = without o (_observers w)
  /\ trace (disconnect o w)
     = trace w
         ++ (if isBrowser && is_only o (_observers w)
             then detach_events else [])
  /\ _isCycleContinuous (disconnect o w) = _isCycleContinuous w
  /\ ctl_inv (disconnect o w).
Proof.
  intros (Hnd & Hle & Hrl & Hmo & Hcc). unfold Controller.disconnect.
  set (obs' := without o (_observers w)).
  set (w1 := if truthy (Z.lnot (indexOf (_observers w) o))
             then set_observers
                    (splice1 (_observers w) (indexOf (_observers w) o)) w
             else w).
  assert (H1 : w1 = set_observers obs' w).
  { unfold w1, obs'.
    assert (Hc : truthy (Z.lnot (indexOf (_observers w) o)) = isConnected o w)
      by (unfold isConnected; rewrite negb_involutive; reflexivity).
    rewrite Hc. destruct (isConnected o w) eqn:Hcon.
    - apply isConnected_In in Hcon. rewrite splice_without by assumption.
      reflexivity.
    - rewrite without_absent.
      + destruct w; reflexivity.
      + intros H. apply isConnected_In in H. congruence. }
  clearbody w1. subst w1. cbv zeta. rewrite length_truthy.
  change (_observers (set_observers obs' w)) with obs'.
  change (_listenersEnabled (set_observers obs' w))
    with (_listenersEnabled w).
  pose proof (NoDup_without o Hnd) as Hnd'. fold obs' in Hnd'.
  pose proof (is_nil_without o Hnd) as Hnil'. fold obs' in Hnil'.
  set (det := isBrowser && is_only o (_observers w)).
  assert (Honly : is_only o (_observers w) = true ->
                  is_nil (_observers w) = false).
  { destruct (_observers w) as [|x [|y r]]; [discriminate|reflexivity..]. }
  destruct (bool_dec isBrowser true) as [Hb|Hb];
    [|apply not_true_is_false in Hb].
  - destruct (is_only o (_observers w)) eqn:Ho.
    + (* the last observer: the listeners are removed *)
      assert (Hdet : det = true) by (unfold det; rewrite Hb; reflexivity).
      assert (Hle' : _listenersEnabled w = true)
        by (rewrite Hle, Hb, (Honly eq_refl); reflexivity).
      rewrite orb_true_r in Hnil'. rewrite Hdet, Hnil', Hle'. cbn [andb].
      rewrite Hle' in Hrl, Hmo. cbn [andb] in Hmo.
      rewrite (@removeListeners_fields (set_observers obs' w) Hb Hle' Hmo).
      cbn. split; [reflexivity|]. split; [reflexivity|].
      split; [reflexivity|].
      unfold Controller.ctl_inv. cbn. rewrite Hnil', Hb.
      repeat split; auto.
    + assert (Hdet : det = false) by (unfold det; rewrite Hb; reflexivity).
      rewrite orb_false_r in Hnil'. rewrite Hdet, app_nil_r.
      assert (Hskip : (if is_nil obs' && _listenersEnabled w
                       then _removeListeners (set_observers obs' w)
                       else set_observers obs' w) = set_observers obs' w).
      { rewrite Hnil'. destruct (is_nil (_observers w)) eqn:Hn;
          [|reflexivity].
        rewrite Hle, andb_false_r. reflexivity. }
      rewrite Hskip. cbn.
      split; [reflexivity|]. split; [reflexivity|]. split; [reflexivity|].
      unfold Controller.ctl_inv. cbn. rewrite Hnil'.
      repeat split; auto.
  - assert (Hdet : det = false) by (unfold det; rewrite Hb; reflexivity).
    assert (Hle' : _listenersEnabled w = false)
      by (rewrite Hle, Hb; reflexivity).
    rewrite Hdet, Hle', andb_false_r, app_nil_r. cbn.
    split; [reflexivity|]. split; [reflexivity|]. split; [reflexivity|].
    unfold Controller.ctl_inv. cbn. rewrite Hb.
    repeat split; auto.
Qed.

(** *** The invariant holds in every reachable world *)

Lemma setter_without_support (v : bool) (w : world) :
  mutationsSupported = false -> set_continuousUpdates v w = w.
Proof.
  intros H. unfold Controller.set_continuousUpdates. rewrite H. reflexivity.
Qed.

Lemma setter_with_support (v : bool) (w : world) :
  mutationsSupported = true ->
  set_continuousUpdates v w =
  if _listenersEnabled w && v
  then refresh own_call (set_isCycleContinuous v w)
  else set_isCycleContinuous v w.
Proof.
  intros H. unfold Controller.set_continuousUpdates. rewrite H. reflexivity.
Qed.

Lemma setter_inv (v : bool) (w : world) :
  ctl_inv w -> ctl_inv (set_continuousUpdates v w).
Proof.
  intros Hinv. destruct (bool_dec mutationsSupported true) as [Hm|Hm];
    [|apply not_true_is_false in Hm;
      rewrite (setter_without_support _ _ Hm); exact Hinv].
  rewrite (setter_with_support _ _ Hm).
  assert (H1 : ctl_inv (set_isCycleContinuous v w)).
  { destruct Hinv as (A & B & C & D & E). unfold Controller.ctl_inv. cbn.
    repeat split; auto. intros H. congruence. }
  destruct (_listenersEnabled w && v); [|exact H1].
  eapply same_ctl_inv; [apply same_ctl_refresh | exact H1].
Qed.

Lemma constructor_inv (b : bool) (p : P) : ctl_inv (constructor b p).
Proof.
  unfold Controller.ctl_inv, Controller.constructor. cbn.
  rewrite andb_false_r. repeat split; [constructor|].
  intros ->. reflexivity.
Qed.

Lemma act_inv t a (w w' : world) :
  ctl_inv w -> act t a w = Some w' -> ctl_inv w'.
Proof.
  intros Hinv Ha. destruct a; cbn [Controller.act] in Ha.
  - injection Ha as <-. apply (connect_spec o Hinv).
  - injection Ha as <-. apply (disconnect_spec o Hinv).
  - injection Ha as <-. apply setter_inv, Hinv.
  - injection Ha as <-. eapply same_ctl_inv; [apply same_ctl_refresh|].
    exact Hinv.
  - injection Ha as <-. destruct (resize_listener w); [|exact Hinv].
    eapply same_ctl_inv; [apply same_ctl_refresh | exact Hinv].
  - injection Ha as <-. destruct (_mutationsObserver w); [|exact Hinv].
    eapply same_ctl_inv; [apply same_ctl_refresh | exact Hinv].
  - injection Ha as <-. eapply same_ctl_inv; [|exact Hinv]. repeat split.
  - destruct (take_min _) as [[[due k] rest]|]; [|discriminate].
    destruct (due <=? t); [|discriminate]. injection Ha as <-.
    eapply same_ctl_inv; [apply same_ctl_run_task|].
    eapply same_ctl_inv; [|exact Hinv]. repeat split.
  - destruct (frames (ev w)) as [|k rest]; [discriminate|].
    injection Ha as <-.
    eapply same_ctl_inv; [apply same_ctl_run_task|].
    eapply same_ctl_inv; [|exact Hinv]. repeat split.
Qed.

Lemma step_ctl_inv la (w w' : world) :
  ctl_inv w -> step la w = Some w' -> ctl_inv w'.
Proof.
  destruct la as [t a]. intros Hinv Hs. unfold Controller.step in Hs.
  destruct (t <? now (ev w)); [discriminate|].
  eapply act_inv; [|exact Hs].
  eapply same_ctl_inv; [|exact Hinv]. repeat split.
Qed.

Lemma run_ctl_inv s (w w' : world) :
  ctl_inv w -> run s w = Some w' -> ctl_inv w'.
Proof.
  revert w. induction s as [|la s IH]; intros w Hinv Hr; simpl in Hr.
  - injection Hr as <-. exact Hinv.
  - destruct (step la w) as [w1|] eqn:E; [|discriminate].
    apply (IH w1); [eapply step_ctl_inv; eassumption | exact Hr].
Qed.

Lemma reachable_ctl_inv (w : world) : reachable w -> ctl_inv w.
Proof.
  intros (b & p & s & Hr). eapply run_ctl_inv; [apply constructor_inv | exact Hr].
Qed.

(** *** Idempotence, the listeners' lifecycle, forced continuous mode *)

(** C6.  In every reachable state of the controller the list of sessions
    holds no session twice; [connect] of a session that is connected and
    [disconnect] of one that is not leave the list as it is; and after
    [connect] the session is in the list exactly once. *)
Theorem connect_disconnect_idempotent (o : observer) (w : world) :
  reachable w ->
  NoDup (_observers w)
  /\ (isConnected o w = true <-> In o (_observers w))
  /\ (isConnected o w = true -> _observers (connect o w) = _observers w)
  /\ (isConnected o w = false -> _observers (disconnect o w) = _observers w)
  /\ count_occ Nat.eq_dec (_observers (connect o w)) o = 1.
Proof.
  intros Hr. pose proof (reachable_ctl_inv Hr) as Hinv.
  destruct (connect_spec o Hinv) as (Hc & _ & _ & Hinv').
  destruct (disconnect_spec o Hinv) as (Hd & _).
  split; [apply Hinv|]. split; [apply isConnected_In|].
  split; [|split].
  - intros H. rewrite Hc, H. reflexivity.
  - intros H. rewrite Hd. apply without_absent.
    intros Hin. apply isConnected_In in Hin. congruence.
  - apply NoDup_count_occ'; [apply Hinv'|].
    rewrite Hc. destruct (isConnected o w) eqn:H.
    + apply isConnected_In. exact H.
    + apply in_or_app. right. left. reflexivity.
Qed.

(** C5, as amended.  In every reachable state of the controller,
    [_listenersEnabled] is true exactly when the environment is a browser
    and the list of sessions is not empty; [connect] adds the listeners
    exactly when the environment is a browser and the list was empty, and
    does nothing else to them; [disconnect] removes them exactly when the
    environment is a browser and the session was the only one connected.
    Outside a browser no listener is ever added or removed and
    [_listenersEnabled] stays false. *)
Theorem listener_lifecycle (o : observer) (w : world) :
  reachable w ->
  _listenersEnabled w = isBrowser && negb (is_nil (_observers w))
  /\ trace (connect o w)
     = trace w
         ++ (if isBrowser && is_nil (_observers w) then attach_events else [])
  /\ trace (disconnect o w)
     = trace w
         ++ (if isBrowser && is_only o (_observers w)
             then detach_events else [])
  /\ resize_listener w = _listenersEnabled w
  /\ _mutationsObserver w = _listenersEnabled w && mutationsSupported.
Proof.
  intros Hr. pose proof (reachable_ctl_inv Hr) as Hinv.
  destruct (connect_spec o Hinv) as (_ & Hc & _).
  destruct (disconnect_spec o Hinv) as (_ & Hd & _).
  destruct Hinv as (_ & Hle & Hrl & Hmo & _).
  repeat split; assumption.
Qed.

(** C7.  When the environment has no [MutationObserver]: the constructor
    turns the continuous cycle on whatever its argument, and in every
    reachable state the setter changes nothing at all, for any value, and the
    getter answers true after it. *)
Theorem continuous_mode_forced (v : bool) (w : world) :
  mutationsSupported = false ->
  reachable w ->
  (forall b p, continuousUpdates (constructor b p) = true)
  /\ set_continuousUpdates v w = w
  /\ continuousUpdates (set_continuousUpdates v w) = true.
Proof.
  intros Hm Hr. pose proof (reachable_ctl_inv Hr) as (_ & _ & _ & _ & Hcc).
  split; [|split].
  - intros b p. apply (constructor_inv b p). exact Hm.
  - apply setter_without_support, Hm.
  - rewrite (setter_without_support _ _ Hm). apply Hcc, Hm.
Qed.

(** *** The pass *)

Lemma pass_events_triples (obs : list observer) (p : P) :
  pass_events obs p
  = flat_map (fun ob => triple (fst ob) (snd ob))
      (combine obs (pass_answers obs p))
  /\ length (pass_answers obs p) = length obs
  /\ pass_changes obs p = existsb (fun b => b) (pass_answers obs p)
  /\ gathered (pass_events obs p) = obs.
Proof.
  revert p. induction obs as [|o rest IH]; intros p.
  - repeat split.
  - unfold pass_events, pass_changes. rewrite pass_unfold. cbv zeta.
    cbn [fst snd pass_answers combine flat_map existsb length].
    set (p1 := gatherActive o p).
    set (p2 := if hasActive o p1 then broadcastActive o p1 else p1).
    destruct (IH p2) as (E1 & E2 & E3 & E4).
    rewrite <- E1, E2, <- E3. unfold triple. rewrite <- app_assoc.
    repeat split.
    cbn [app gathered]. f_equal.
    destruct (hasActive o p1); cbn [app gathered]; exact E4.
Qed.


(** *** The refresh cycle *)

Lemma refresh_method_after_pass (w : world) :
  refresh_method w =
  if pass_changes (_observers w) (page w) then refresh own_call (after_pass w)
  else if _isCycleContinuous w && _listenersEnabled w
       then _continuousUpdateHandler own_call (after_pass w)
       else after_pass w.
Proof. apply refresh_method_eq. Qed.

(** What the firing of [this.refresh] does: one pass; then the call left
    over, the method's own when the pass reported changes, becomes the lead
    call of a new timeout. *)
Lemma invoke_refresh_eq (w : world) c e :
  refresh_calls w = mkCaptured (Some c) e ->
  invokeCallback refresh_throttle w =
  let changes := pass_changes (_observers w) (page w) in
  let wc :=
    if negb changes && (_isCycleContinuous w && _listenersEnabled w)
    then _continuousUpdateHandler own_call (after_pass w)
    else after_pass w in
  match (if changes then Some own_call else e) with
  | Some x =>
      set_ev
        (setTimeout (timeoutCallback_task refresh_throttle) 30 (ev wc))
        (set_refresh_calls (mkCaptured (Some x) None) wc)
  | None => set_refresh_calls no_call wc
  end.
Proof.
  intros Hc. unfold invokeCallback, Throttle.invokeCallback.
  unfold get_lead at 1. cbn [calls_of]. rewrite Hc. cbn [leadCall].
  cbn [callback]. rewrite refresh_method_after_pass. cbv zeta.
  destruct (pass_changes (_observers w) (page w)); cbn [negb andb].
  - rewrite refresh_eq.
    destruct w as [a b m o rc cc v r p t]. cbn in Hc. subst rc.
    unfold after_pass. unfold_setters. reflexivity.
  - destruct (_isCycleContinuous w && _listenersEnabled w).
    + rewrite _continuousUpdateHandler_eq.
      destruct w as [a b m o rc cc v r p t]. cbn in Hc. subst rc.
      unfold after_pass. unfold_setters.
      destruct (leadCall cc), e; reflexivity.
    + destruct w as [a b m o rc cc v r p t]. cbn in Hc. subst rc.
      unfold after_pass. unfold_setters.
      destruct e; reflexivity.
Qed.

Lemma step_eq t a (w : world) :
  now (ev w) <= t -> step (t, a) w = act t a (set_ev (set_now t (ev w)) w).
Proof.
  intros H. unfold Controller.step.
  destruct (Nat.ltb_spec t (now (ev w))); [lia | reflexivity].
Qed.

Lemma act_timer t (w : world) due k rest :
  take_min (timers (ev w)) = Some ((due, k), rest) -> due <= t ->
  act t Timer w = Some (run_task k (set_ev (set_timers rest (ev w)) w)).
Proof.
  intros H Hd. cbn [Controller.act]. rewrite H.
  destruct (Nat.leb_spec due t); [reflexivity | lia].
Qed.

Lemma act_frame t (w : world) k rest :
  frames (ev w) = k :: rest ->
  act t Frame w = Some (run_task k (set_ev (set_frames rest (ev w)) w)).
Proof. intros H. cbn [Controller.act]. rewrite H. reflexivity. Qed.

Lemma drain_S n (w w' : world) la :
  Controller.next_task w = Some la -> step la w = Some w' ->
  drain (S n) w = drain n w'.
Proof. intros H1 H2. cbn [Controller.drain]. rewrite H1, H2. reflexivity. Qed.

Lemma drain_at_rest n (w : world) : quiescent w -> drain n w = w.
Proof.
  intros (_ & _ & Ht & Hf). destruct n; [reflexivity|].
  cbn [Controller.drain]. unfold Controller.next_task. rewrite Hf, Ht.
  reflexivity.
Qed.

(** A scheduled refresh runs in two tasks, the timeout and then the
    animation-frame callback. *)
Lemma refresh_cycle (w : world) c due :
  refresh_calls w = mkCaptured (Some c) None ->
  timers (ev w) = [(due, timeoutCallback_task refresh_throttle)] ->
  frames (ev w) = [] ->
  _isCycleContinuous w && _listenersEnabled w = false ->
  drain 2 w =
  let t := Nat.max (now (ev w)) due in
  if pass_changes (_observers w) (page w)
  then
    set_ev (mkLoop t [(t + 30, timeoutCallback_task refresh_throttle)] [])
      (set_refresh_calls (mkCaptured (Some own_call) None) (after_pass w))
  else set_ev (mkLoop t [] []) (set_refresh_calls no_call (after_pass w)).
Proof.
  intros Hc Ht Hf Hcl. cbv zeta. set (t := Nat.max (now (ev w)) due).
  (* the timeout: invokeCallback is handed to the next animation frame *)
  set (w1 := set_ev (mkLoop t [] [invokeCallback_task refresh_throttle]) w).
  assert (S1 : step (t, Timer) w = Some w1).
  { rewrite step_eq by (unfold t; lia).
    rewrite act_timer with (due := due)
                           (k := timeoutCallback_task refresh_throttle)
                           (rest := []);
      [| cbn; rewrite Ht; reflexivity | unfold t; lia].
    f_equal. unfold w1. destruct w as [a b m o rc cc [nw ts fs] r p tr].
    cbn in Hf. subst fs. reflexivity. }
  assert (N1 : Controller.next_task w = Some (t, Timer)).
  { unfold Controller.next_task. rewrite Hf, Ht. reflexivity. }
  rewrite (@drain_S 1 w w1 _ N1 S1).
  (* the animation frame: the refresh fires *)
  set (w2 := set_ev (mkLoop t [] []) w).
  assert (S2 : step (t, Frame) w1 = Some (invokeCallback refresh_throttle w2)).
  { rewrite step_eq by (cbn; lia).
    rewrite act_frame with (k := invokeCallback_task refresh_throttle)
                           (rest := []); reflexivity. }
  assert (N2 : Controller.next_task w1 = Some (t, Frame)) by reflexivity.
  rewrite (@drain_S 0 w1 _ _ N2 S2). cbn [Controller.drain].
  rewrite invoke_refresh_eq with (c := c) (e := None) by exact Hc.
  cbv zeta. change (_isCycleContinuous w2) with (_isCycleContinuous w).
  change (_listenersEnabled w2) with (_listenersEnabled w).
  change (_observers w2) with (_observers w).
  change (page w2) with (page w).
  rewrite Hcl, andb_false_r.
  destruct (pass_changes (_observers w) (page w)); reflexivity.
Qed.

Lemma drain_add n m (w : world) : drain (n + m) w = drain m (drain n w).
Proof.
  revert w. induction n as [|n IH]; intros w; [reflexivity|].
  cbn [Nat.add Controller.drain].
  destruct (Controller.next_task w) as [la|] eqn:En.
  - destruct (step la w) as [w'|] eqn:Es; [apply IH|].
    destruct m; [reflexivity|]. cbn [Controller.drain].
    rewrite En, Es. reflexivity.
  - destruct m; [reflexivity|]. cbn [Controller.drain].
    rewrite En. reflexivity.
Qed.

Lemma pass_events_no_refresh (obs : list observer) (p : P) :
  filter is_refresh_pass (pass_events obs p) = [].
Proof.
  revert p. induction obs as [|o rest IH]; intros p; [reflexivity|].
  unfold pass_events. rewrite pass_unfold. cbv zeta. cbn [snd].
  rewrite !filter_app. fold (pass_events rest (if hasActive o (gatherActive o p)
                                  then broadcastActive o (gatherActive o p)
                                  else gatherActive o p)).
  rewrite IH. destruct (hasActive o (gatherActive o p)); reflexivity.
Qed.

Lemma passes_after_pass (w : world) : passes (after_pass w) = S (passes w).
Proof.
  unfold Controller.passes, after_pass. cbn [trace set_trace].
  rewrite !filter_app, pass_events_no_refresh, app_nil_r, length_app.
  cbn. lia.
Qed.

Lemma changes_at_S (obs : list observer) (p : P) i :
  changes_at obs p (S i) = changes_at obs (pass_page obs p) i.
Proof. reflexivity. Qed.

Lemma convergence_from K :
  forall (w : world) c due,
    refresh_calls w = mkCaptured (Some c) None ->
    continuous_calls w = no_call ->
    timers (ev w) = [(due, timeoutCallback_task refresh_throttle)] ->
    frames (ev w) = [] ->
    _isCycleContinuous w = false ->
    (forall i, changes_at (_observers w) (page w) i = (i <? K)) ->
    quiescent (drain (2 * S K) w)
    /\ passes (drain (2 * S K) w) = passes w + S K.
Proof.
  induction K as [|K IH]; intros w c due Hc Hcc Ht Hf Hcy Hch.
  - change (2 * 1) with 2.
    rewrite (refresh_cycle w Hc Ht Hf) by (rewrite Hcy; reflexivity).
    cbv zeta. pose proof (Hch 0) as H0. unfold changes_at in H0.
    cbn [page_after] in H0. rewrite H0. cbn [Nat.ltb Nat.leb].
    split.
    + repeat split. exact Hcc.
    + change (passes (after_pass w) = passes w + 1).
      rewrite passes_after_pass. lia.
  - replace (2 * S (S K)) with (2 + 2 * S K) by lia. rewrite drain_add.
    rewrite (refresh_cycle w Hc Ht Hf) by (rewrite Hcy; reflexivity).
    cbv zeta. pose proof (Hch 0) as H0. unfold changes_at in H0.
    cbn [page_after] in H0. rewrite H0. cbn [Nat.ltb Nat.leb].
    match goal with
    | |- context [drain _ ?w1] =>
        destruct (IH w1 own_call (Nat.max (now (ev w)) due + 30))
          as (Hq & Hp); try reflexivity; try assumption
    end.
    + intros i. change (changes_at (_observers w)
                          (pass_page (_observers w) (page w)) i = (i <? K)).
      rewrite <- changes_at_S. apply (Hch (S i)).
    + split; [exact Hq|]. rewrite Hp.
      match goal with
      | |- passes ?w1 + _ = _ =>
          change (passes w1) with (passes (after_pass w))
      end.
      rewrite passes_after_pass. lia.
Qed.

(** C1.  With the continuous cycle off and nothing pending, one call of
    [refresh] starts a run of exactly K+1 invocations of the method when the
    sessions report changes in exactly the first K passes: the event loop
    left alone runs 2(K+1) tasks, the method is invoked K+1 times, and then
    nothing is pending, so that no further task runs and no further refresh
    happens. *)
Theorem refresh_convergence K (w : world) c :
  quiescent w ->
  _isCycleContinuous w = false ->
  (forall i, changes_at (_observers w) (page w) i = (i <? K)) ->
  let w' := drain (2 * (K + 1)) (refresh c w) in
  passes w' = passes w + (K + 1)
  /\ quiescent w'
  /\ (forall n, drain n w' = w').
Proof.
  intros (Hr & Hcc & Ht & Hf) Hcy Hch w'.
  assert (Hshape : refresh c w =
                   set_ev (mkLoop (now (ev w))
                             [(now (ev w) + 30,
                               timeoutCallback_task refresh_throttle)] [])
                     (set_refresh_calls (mkCaptured (Some c) None) w)).
  { rewrite refresh_eq, Hr. cbn [leadCall edgeCall no_call].
    unfold setTimeout, set_timers. rewrite Ht, Hf. reflexivity. }
  destruct (@convergence_from K (refresh c w) c (now (ev w) + 30))
    as (Hq & Hp); try (rewrite Hshape; reflexivity).
  - rewrite Hshape. exact Hcc.
  - rewrite Hshape. exact Hcy.
  - rewrite Hshape. exact Hch.
  - subst w'. replace (K + 1) with (S K) by lia.
    split; [|split].
    + rewrite Hp. rewrite Hshape. reflexivity.
    + exact Hq.
    + intros n. apply drain_at_rest, Hq.
Qed.

(** What the firing of [this._continuousUpdateHandler] does: it calls
    [this.refresh] with the lead call. *)
Lemma invoke_continuous_eq (w : world) c e :
  continuous_calls w = mkCaptured (Some c) e ->
  invokeCallback continuous_throttle w =
  match e with
  | Some x =>
      set_ev
        (setTimeout (timeoutCallback_task continuous_throttle) 70
           (ev (refresh c w)))
        (set_continuous_calls (mkCaptured (Some x) None) (refresh c w))
  | None => set_continuous_calls no_call (refresh c w)
  end.
Proof.
  intros Hc. unfold invokeCallback, Throttle.invokeCallback.
  unfold get_lead at 1. cbn [calls_of]. rewrite Hc. cbn [leadCall].
  cbn [callback]. rewrite refresh_eq.
  destruct w as [a b m o [[l|] re] cc v r p t]; cbn in Hc; subst cc;
    destruct e; reflexivity.
Qed.

(** A scheduled continuous update runs in three tasks: its timeout, which
    calls [this.refresh], and the two tasks of that refresh. *)
Lemma continuous_cycle (w : world) c due :
  continuous_calls w = mkCaptured (Some c) None ->
  refresh_calls w = no_call ->
  timers (ev w) = [(due, timeoutCallback_task continuous_throttle)] ->
  frames (ev w) = [] ->
  _isCycleContinuous w && _listenersEnabled w = false ->
  pass_changes (_observers w) (page w) = false ->
  drain 3 w =
  set_ev (mkLoop (Nat.max (now (ev w)) due + 30) [] [])
    (set_continuous_calls no_call (after_pass w)).
Proof.
  intros Hc Hr Ht Hf Hcl Hp. set (t := Nat.max (now (ev w)) due).
  set (w1 := set_ev (mkLoop t [(t + 30, timeoutCallback_task refresh_throttle)]
                       [])
               (set_refresh_calls (mkCaptured (Some c) None)
                  (set_continuous_calls no_call w))).
  assert (S1 : step (t, Timer) w = Some w1).
  { rewrite step_eq by (unfold t; lia).
    rewrite act_timer with (due := due)
                           (k := timeoutCallback_task continuous_throttle)
                           (rest := []);
      [| cbn; rewrite Ht; reflexivity | unfold t; lia].
    f_equal. cbn [run_task]. unfold timeoutCallback, Throttle.timeoutCallback.
    cbn [afterRAF]. fold (invokeCallback continuous_throttle).
    rewrite invoke_continuous_eq with (c := c) (e := None) by exact Hc.
    rewrite refresh_eq. unfold w1.
    destruct w as [a b m o rc cc [nw ts fs] r p tr].
    cbn in Hr, Hf. subst rc fs. reflexivity. }
  assert (N1 : Controller.next_task w = Some (t, Timer)).
  { unfold Controller.next_task. rewrite Hf, Ht. reflexivity. }
  change 3 with (S 2). rewrite (@drain_S 2 w w1 _ N1 S1).
  rewrite (@refresh_cycle w1 c (t + 30)); try reflexivity; [|exact Hcl].
  cbv zeta. change (_observers w1) with (_observers w).
  change (page w1) with (page w). rewrite Hp.
  replace (Nat.max (now (ev w1)) (t + 30)) with (t + 30) by (cbn; lia).
  unfold after_pass. destruct w as [a b m o rc cc v r p tr].
  cbn in Hr. subst rc. reflexivity.
Qed.

(** C8.  In a reachable state with no session connected the listeners are
    off, and a refresh that was scheduled earlier still fires: the method
    then calls no session, schedules nothing and only counts as one more
    invocation; the firing leaves in the coalescer only a call that had been
    issued before, if there was one; and when the scheduled call is the only
    one, whether it waits in [this.refresh] or in
    [this._continuousUpdateHandler], the tasks of its firing leave no task
    and no call behind. *)
Theorem post_disconnect_quiescence (w : world) :
  reachable w ->
  _observers w = [] ->
  _listenersEnabled w = false
  /\ refresh_method w = record RefreshPass w
  /\ (forall c e,
        refresh_calls w = mkCaptured (Some c) e ->
        invokeCallback refresh_throttle w =
        match e with
        | Some x =>
            set_ev
              (setTimeout (timeoutCallback_task refresh_throttle) 30 (ev w))
              (set_refresh_calls (mkCaptured (Some x) None)
                 (record RefreshPass w))
        | None => set_refresh_calls no_call (record RefreshPass w)
        end)
  /\ (forall c due,
        refresh_calls w = mkCaptured (Some c) None ->
        timers (ev w) = [(due, timeoutCallback_task refresh_throttle)] ->
        frames (ev w) = [] ->
        drain 2 w =
        set_ev (mkLoop (Nat.max (now (ev w)) due) [] [])
          (set_refresh_calls no_call (record RefreshPass w)))
  /\ (forall c due,
        continuous_calls w = mkCaptured (Some c) None ->
        refresh_calls w = no_call ->
        timers (ev w) = [(due, timeoutCallback_task continuous_throttle)] ->
        frames (ev w) = [] ->
        drain 3 w =
        set_ev (mkLoop (Nat.max (now (ev w)) due + 30) [] [])
          (set_continuous_calls no_call (record RefreshPass w))).
Proof.
  intros Hr Ho. pose proof (reachable_ctl_inv Hr) as (_ & Hle & _).
  rewrite Ho in Hle. cbn [is_nil negb] in Hle. rewrite andb_false_r in Hle.
  assert (Hap : after_pass w = record RefreshPass w).
  { unfold after_pass. rewrite Ho. cbn [pass_events pass_page pass fst snd].
    rewrite app_nil_r. destruct w; reflexivity. }
  split; [exact Hle|]. split; [|split; [|split]].
  - rewrite refresh_method_after_pass, Ho, Hle, andb_false_r, Hap.
    reflexivity.
  - intros c e Hc. rewrite (invoke_refresh_eq w Hc). cbv zeta.
    rewrite Ho, Hle, andb_false_r, Hap. reflexivity.
  - intros c due Hc Ht Hf.
    rewrite (refresh_cycle w Hc Ht Hf) by (rewrite Hle; apply andb_false_r).
    cbv zeta. rewrite Ho, Hap. reflexivity.
  - intros c due Hc Hrc Ht Hf.
    rewrite (continuous_cycle w Hc Hrc Ht Hf), Hap;
      [reflexivity | rewrite Hle; apply andb_false_r | rewrite Ho; reflexivity].
Qed.

End Proofs.
(** *** The claims on concrete runs *)

Lemma connected_world_reachable p :
  reachable (sessions := countdown) true true (connected_world p).
Proof. exists false, p, [(0, Connect 1)]. reflexivity. Qed.

Lemma countdown_settles i : changes_at [1] 0 i = false.
Proof.
  unfold changes_at. replace (page_after i [1] 0) with 0; [reflexivity|].
  induction i as [|i IH]; [reflexivity|]. exact IH.
Qed.

Lemma refresh_convergence_witness :
  quiescent (connected_world 2)
  /\ _isCycleContinuous (connected_world 2) = false
  /\ (forall i,
         changes_at (_observers (connected_world 2))
           (page (connected_world 2)) i = (i <? 2))
  /\ passes (drain true true (2 * (2 + 1))
               (refresh own_call (connected_world 2)))
     = passes (connected_world 2) + (2 + 1).
Proof.
  assert (Hch : forall i,
             changes_at (_observers (connected_world 2))
               (page (connected_world 2)) i = (i <? 2)).
  { intros [|[|i]]; [reflexivity | reflexivity |].
    apply (countdown_settles i). }
  split; [repeat split|]. split; [reflexivity|]. split; [exact Hch|].
  apply (@refresh_convergence nat countdown true true 2 (connected_world 2)
           own_call);
    [repeat split | reflexivity | exact Hch].
Defined.

Lemma connect_disconnect_idempotent_witness :
  reachable (sessions := countdown) true true (connected_world 0)
  /\ NoDup (_observers (connected_world 0))
  /\ (isConnected 1 (connected_world 0) = true ->
      _observers (connect true true 1 (connected_world 0))
      = _observers (connected_world 0)).
Proof.
  split; [apply connected_world_reachable|].
  pose proof (@connect_disconnect_idempotent nat countdown true true 1
                (connected_world 0) (connected_world_reachable 0)) as H.
  split; apply H.
Defined.

Lemma listener_lifecycle_witness :
  reachable (sessions := countdown) true true (connected_world 0)
  /\ trace (disconnect true 1 (connected_world 0))
     = trace (connected_world 0)
         ++ (if true && is_only 1 (_observers (connected_world 0))
             then detach_events true else []).
Proof.
  split; [apply connected_world_reachable|].
  apply (@listener_lifecycle nat countdown true true 1 (connected_world 0)
           (connected_world_reachable 0)).
Defined.

(** C5, counterexample.  Outside a browser, the [connect] that takes the
    list of sessions from empty to one element adds no listener, and
    afterwards the list is not empty while [_listenersEnabled] is false. *)
Lemma listener_lifecycle_counterexample :
  let w := constructor (P := nat) true false 0 in
  reachable (sessions := countdown) false true (connect false true 1 w)
  /\ _observers w = []
  /\ _observers (connect false true 1 w) = [1]
  /\ trace (connect false true 1 w) = trace w
  /\ ~ (_listenersEnabled (connect false true 1 w) = true
        <-> _observers (connect false true 1 w) <> []).
Proof.
  cbv zeta. split; [exists false, 0, [(0, Connect 1)]; reflexivity|].
  split; [reflexivity|]. split; [reflexivity|]. split; [reflexivity|].
  intros [_ H]. discriminate H. discriminate.
Qed.

Lemma polling_world_reachable :
  reachable (sessions := countdown) false false polling_world.
Proof. exists false, 0, [(0, Connect 1)]. reflexivity. Qed.

Lemma continuous_mode_forced_witness :
  false = false
  /\ reachable (sessions := countdown) false false polling_world
  /\ set_continuousUpdates false false polling_world = polling_world
  /\ continuousUpdates (set_continuousUpdates false false polling_world)
     = true.
Proof.
  split; [reflexivity|]. split; [apply polling_world_reachable|].
  apply (@continuous_mode_forced nat countdown false false false
           polling_world eq_refl polling_world_reachable).
Defined.

Lemma abandoned_world_reachable :
  reachable (sessions := countdown) true true abandoned_world.
Proof.
  exists false, 0, [(0, Connect 1); (1, Refresh); (2, Disconnect 1)].
  reflexivity.
Qed.

Lemma post_disconnect_quiescence_witness :
  reachable (sessions := countdown) true true abandoned_world
  /\ _observers abandoned_world = []
  /\ _listenersEnabled abandoned_world = false
  /\ refresh_method abandoned_world = record RefreshPass abandoned_world.
Proof.
  split; [apply abandoned_world_reachable|]. split; [reflexivity|].
  pose proof (@post_disconnect_quiescence nat countdown true true
                abandoned_world abandoned_world_reachable eq_refl) as H.
  split; apply H.
Defined.


End ControllerProofs.

(** ** The pass over the live list: proofs *)

Module LiveProofs.
Import Controller ControllerProofs Live.

Section Proofs.
Context {P : Type} {sessions : LiveSession P}.
Variable isBrowser : bool.
Variable mutationsSupported : bool.

Local Abbreviation world := (@world P).
Local Abbreviation connect := (@connect P isBrowser mutationsSupported).
Local Abbreviation disconnect := (@disconnect P isBrowser).
Local Abbreviation perform := (@perform P isBrowser mutationsSupported).
Local Abbreviation perform_all :=
  (@perform_all P isBrowser mutationsSupported).
Local Abbreviation visit := (@visit P sessions isBrowser mutationsSupported).
Local Abbreviation pass_over :=
  (@pass_over P sessions isBrowser mutationsSupported).
Local Abbreviation answer :=
  (@answer P sessions isBrowser mutationsSupported).
Local Abbreviation answers :=
  (@answers P sessions isBrowser mutationsSupported).
Local Abbreviation unchanged_during :=
  (@unchanged_during P sessions isBrowser mutationsSupported).
Local Abbreviation _updateObservers_from :=
  (@_updateObservers_from P sessions isBrowser mutationsSupported).
Local Abbreviation _updateObservers :=
  (@_updateObservers P sessions isBrowser mutationsSupported).

(** *** The calls to the controller call no session *)

Lemma session_calls_connect (o : observer) (w : world) :
  session_calls (connect o w) = session_calls w.
Proof.
  unfold Controller.connect, Controller._addListeners, session_calls.
  destruct (isConnected o w); cbn [negb]; cbv zeta;
    destruct (_listenersEnabled w) eqn:El;
    destruct (_isCycleContinuous w) eqn:Ec;
    destruct isBrowser, mutationsSupported; cbn;
    rewrite ?El, ?Ec; cbn; rewrite ?El, ?Ec; cbn;
    rewrite ?trace_refresh; cbn;
    rewrite ?filter_app; cbn; rewrite ?app_nil_r; reflexivity.
Qed.

Lemma session_calls_disconnect (o : observer) (w : world) :
  session_calls (disconnect o w) = session_calls w.
Proof.
  unfold Controller.disconnect, Controller._removeListeners, session_calls.
  destruct (truthy (Z.lnot _)); cbv zeta;
    repeat match goal with
           | |- context [if ?b then _ else _] => destruct b
           end;
    cbn; rewrite ?filter_app; cbn; rewrite ?app_nil_r; reflexivity.
Qed.

Lemma session_calls_perform (c : call) (w : world) :
  session_calls (perform c w) = session_calls w.
Proof.
  destruct c; cbn [Live.perform].
  - apply session_calls_connect.
  - apply session_calls_disconnect.
  - unfold session_calls. rewrite trace_refresh. reflexivity.
  - unfold session_calls, set_continuousUpdates.
    destruct (negb mutationsSupported); [reflexivity|]. cbv zeta.
    destruct (_listenersEnabled _ && v); rewrite ?trace_refresh; reflexivity.
Qed.

Lemma session_calls_perform_all (cs : list call) :
  forall w : world, session_calls (perform_all cs w) = session_calls w.
Proof.
  induction cs as [|c cs IH]; intros w; [reflexivity|].
  cbn [Live.perform_all fold_left].
  fold (perform_all cs (perform c w)).
  rewrite IH. apply session_calls_perform.
Qed.

Lemma session_calls_record (e : event) (p : P) (w : world) :
  session_calls (record e (set_page p w))
  = session_calls w ++ (if is_session_call e then [e] else []).
Proof.
  unfold session_calls, record. cbn [trace set_trace set_page].
  rewrite filter_app. cbn [filter]. destruct (is_session_call e); reflexivity.
Qed.

(** *** One visit *)

Lemma visit_calls (o : observer) (h : bool) (w : world) :
  session_calls (snd (visit o (h, w)))
  = session_calls w ++ triple o (answer o w)
  /\ fst (visit o (h, w)) = h || answer o w.
Proof.
  unfold Live.visit, Live.answer.
  destruct (gatherActive o (page w)) as [p1 cs1].
  set (w1 := perform_all cs1 (record (GatherActive o) (set_page p1 w))).
  destruct (hasActive o (page w1)) as [[active p2] cs2]. cbn [fst].
  set (w2 := perform_all cs2 (record (HasActive o active) (set_page p2 w1))).
  assert (E2 : session_calls w2
               = session_calls w ++ [GatherActive o; HasActive o active]).
  { unfold w2, w1.
    rewrite session_calls_perform_all, session_calls_record.
    rewrite session_calls_perform_all, session_calls_record.
    cbn [is_session_call]. rewrite <- app_assoc. reflexivity. }
  destruct active.
  - destruct (broadcastActive o (page w2)) as [p3 cs3]. cbn [fst snd].
    rewrite session_calls_perform_all, session_calls_record, E2.
    cbn [is_session_call]. unfold triple. rewrite <- app_assoc.
    split; [reflexivity | symmetry; apply Bool.orb_true_r].
  - cbn [fst snd]. rewrite E2. unfold triple. cbn [app].
    split; [reflexivity | symmetry; apply Bool.orb_false_r].
Qed.

(** The flag [hasChanges] is only ever set: what a visit does to the world
    does not depend on it. *)
Lemma visit_flag (o : observer) (h : bool) (w : world) :
  snd (visit o (h, w)) = snd (visit o (false, w)).
Proof.
  unfold Live.visit.
  destruct (gatherActive o (page w)) as [p1 cs1].
  destruct (hasActive o _) as [[active p2] cs2].
  destruct active; [|reflexivity].
  destruct (broadcastActive o _) as [p3 cs3]. reflexivity.
Qed.

(** *** The pass over a list *)

Lemma pass_over_cons (o : observer) rest (acc : bool * world) :
  pass_over (o :: rest) acc = pass_over rest (visit o acc).
Proof. reflexivity. Qed.

Lemma pass_over_calls (obs : list observer) :
  forall acc : bool * world,
    session_calls (snd (pass_over obs acc))
    = session_calls (snd acc) ++ triples obs (answers obs acc)
    /\ fst (pass_over obs acc)
       = fst acc || existsb (fun b => b) (answers obs acc)
    /\ length (answers obs acc) = length obs.
Proof.
  induction obs as [|o rest IH]; intros [h w].
  - cbn. rewrite app_nil_r, Bool.orb_false_r. repeat split.
  - rewrite pass_over_cons.
    destruct (IH (visit o (h, w))) as (E1 & E2 & E3).
    destruct (visit_calls o h w) as (V1 & V2).
    rewrite E1, E2, V1, V2.
    cbn [Live.answers snd fst existsb length].
    unfold triples. cbn [combine flat_map fst snd].
    rewrite <- app_assoc, Bool.orb_assoc, E3. repeat split.
Qed.

Lemma gathered_triples (obs : list observer) :
  forall ans, length ans = length obs -> gathered (triples obs ans) = obs.
Proof.
  induction obs as [|o rest IH]; intros [|b ans] E; try discriminate E;
    [reflexivity|].
  injection E as E. unfold triples. cbn [combine flat_map fst snd].
  change (flat_map (fun ob => triple (fst ob) (snd ob)) (combine rest ans))
    with (triples rest ans).
  unfold triple. destruct b; cbn; rewrite (IH ans E); reflexivity.
Qed.

Lemma some_answer_yes (obs : list observer) :
  forall ans,
    length ans = length obs ->
    existsb (fun b => b) ans = true
    <-> exists o', In (HasActive o' true) (triples obs ans).
Proof.
  induction obs as [|x rest IH]; intros ans E.
  - destruct ans; [|discriminate]. simpl.
    split; [discriminate | intros (o' & [])].
  - destruct ans as [|b ans]; [discriminate|]. simpl in E.
    injection E as E. specialize (IH ans E).
    unfold triples in *. cbn [combine flat_map existsb fst snd]. split.
    + intros H. apply orb_true_iff in H. destruct H as [->|H].
      * exists x. right. left. reflexivity.
      * destruct (proj1 IH H) as (o' & Hin). exists o'.
        apply in_or_app. right. exact Hin.
    + intros (o' & Hin). apply in_app_or in Hin. destruct Hin as [Hin|Hin].
      * unfold triple in Hin. destruct b; [reflexivity|].
        cbn in Hin. destruct Hin as [H|[H|[]]]; discriminate H.
      * apply orb_true_iff. right. apply IH. exists o'. exact Hin.
Qed.

(** *** The loop over the live list *)

(** While no visit changes the list, the loop is at index [length pre] of
    the list [pre ++ suf] it began with, and visits [suf] in order. *)
Lemma loop_is_pass (suf : list observer) :
  forall fuel pre (acc : bool * world),
    _observers (snd acc) = pre ++ suf ->
    unchanged_during suf acc ->
    length suf < fuel ->
    _updateObservers_from fuel (length pre) acc = Some (pass_over suf acc)
    /\ _observers (snd (pass_over suf acc)) = pre ++ suf.
Proof.
  induction suf as [|o rest IH]; intros fuel pre acc Hobs Hun Hfuel.
  - destruct fuel as [|fuel]; [inversion Hfuel|].
    cbn [Live._updateObservers_from]. rewrite Hobs, app_nil_r.
    replace (nth_error pre (length pre)) with (@None observer)
      by (symmetry; apply nth_error_None; apply Nat.le_refl).
    split; [reflexivity | rewrite app_nil_r in Hobs; exact Hobs].
  - destruct fuel as [|fuel]; [inversion Hfuel|].
    cbn [Live._updateObservers_from]. rewrite Hobs.
    rewrite nth_error_app2 by apply Nat.le_refl.
    rewrite Nat.sub_diag. cbn [nth_error].
    destruct Hun as (Hv & Hun).
    destruct (IH fuel (pre ++ [o]) (visit o acc)) as (E1 & E2).
    + rewrite Hv, Hobs, <- app_assoc. reflexivity.
    + exact Hun.
    + cbn [length] in Hfuel. apply Nat.succ_lt_mono. exact Hfuel.
    + rewrite length_app in E1. cbn [length] in E1.
      rewrite Nat.add_1_r in E1. rewrite pass_over_cons.
      split; [exact E1|]. rewrite E2, <- app_assoc. reflexivity.
Qed.

Lemma observers_connect (o : observer) (w : world) :
  _observers (connect o w)
  = (if isConnected o w then _observers w else _observers w ++ [o]).
Proof.
  unfold Controller.connect, Controller._addListeners.
  destruct (isConnected o w); cbn [negb]; cbv zeta;
    repeat match goal with
           | |- context [if ?b then _ else _] => destruct b
           end;
    cbn [_observers set_observers set_listenersEnabled record set_trace
         set_mutationsObserver set_resize_listener];
    rewrite ?(proj1 (proj2 (proj2 (proj2 (same_ctl_refresh _ _)))));
    reflexivity.
Qed.

Lemma observers_disconnect (o : observer) (w : world) :
  NoDup (_observers w) ->
  _observers (disconnect o w) = without o (_observers w).
Proof.
  intros Hnd. unfold Controller.disconnect.
  set (w1 := if truthy (Z.lnot (indexOf (_observers w) o))
             then set_observers
                    (splice1 (_observers w) (indexOf (_observers w) o)) w
             else w).
  assert (H1 : _observers w1 = without o (_observers w)).
  { unfold w1.
    assert (Hc : truthy (Z.lnot (indexOf (_observers w) o)) = isConnected o w)
      by (unfold isConnected; rewrite negb_involutive; reflexivity).
    rewrite Hc. destruct (isConnected o w) eqn:Hcon.
    - apply isConnected_In in Hcon. cbn [_observers set_observers].
      apply splice_without; assumption.
    - rewrite without_absent; [reflexivity|].
      intros H. apply isConnected_In in H. congruence. }
  cbv zeta. fold w1. rewrite <- H1. unfold Controller._removeListeners.
  repeat match goal with
         | |- context [if ?b then _ else _] => destruct b
         end; reflexivity.
Qed.

Lemma pass_over_app (a b : list observer) (acc : bool * world) :
  pass_over (a ++ b) acc = pass_over b (pass_over a acc).
Proof. apply fold_left_app. Qed.

Lemma pass_over_flag (obs : list observer) :
  forall h (w : world),
    pass_over obs (h, w)
    = (h || fst (pass_over obs (false, w)), snd (pass_over obs (false, w))).
Proof.
  induction obs as [|o rest IH]; intros h w.
  - cbn. rewrite Bool.orb_false_r. reflexivity.
  - rewrite !pass_over_cons.
    destruct (visit_calls o h w) as (_ & F1).
    destruct (visit_calls o false w) as (_ & F2).
    pose proof (visit_flag o h w) as F3.
    destruct (visit o (h, w)) as [h1 w1].
    destruct (visit o (false, w)) as [h2 w2].
    cbn [fst snd] in F1, F2, F3. subst h1 h2 w1.
    rewrite (IH (h || answer o w) w2), (IH (false || answer o w) w2).
    cbn [fst snd orb]. rewrite Bool.orb_assoc. reflexivity.
Qed.


(** X10.  In a pass during which no session's method changes the list, the
    loop of [_updateObservers] over a list [a ++ b] is the visits of [a]
    followed by the visits of [b], which start from what those of [a] left,
    and it reports changes when either part does: once set, [hasChanges] is
    not reset, and nothing a visit does depends on it. *)
Theorem updateObservers_app (a b : list observer) (w : world) :
  _observers w = a ++ b ->
  unchanged_during (a ++ b) (false, w) ->
  let r1 := pass_over a (false, w) in
  let r2 := pass_over b (false, snd r1) in
  forall fuel,
    length (a ++ b) < fuel ->
    _updateObservers fuel w = Some (fst r1 || fst r2, snd r2).
Proof.
  intros Hobs Hun r1 r2 fuel Hfuel.
  destruct (@loop_is_pass (a ++ b) fuel [] (false, w) Hobs Hun Hfuel)
    as (E & _).
  unfold Live._updateObservers. cbn [length] in E. rewrite E.
  rewrite pass_over_app. fold r1.
  destruct r1 as [h1 w1] eqn:E1. rewrite pass_over_flag. reflexivity.
Qed.

End Proofs.

(** *** Sessions that make no call *)

Section Pure.
Context {P : Type} {pure : Controller.Session P}.
Variable isBrowser : bool.
Variable mutationsSupported : bool.

(** For the sessions of [Controller.Session], the loop over the live list
    is the loop of [Controller._updateObservers]. *)
Lemma pure_sessions_pass (w : world (P := P)) :
  let obs := _observers w in
  unchanged_during (sessions := lift pure) isBrowser mutationsSupported
    obs (false, w)
  /\ forall fuel,
       length obs < fuel ->
       _updateObservers (sessions := lift pure) isBrowser mutationsSupported
         fuel w
       = Some (Controller._updateObservers w).
Proof.
  intros obs.
  assert (Hv : forall (acc : bool * world (P := P)) o,
             visit (sessions := lift pure) isBrowser mutationsSupported o acc
             = (let (hasChanges, w) := acc in
                let w := set_page (Controller.gatherActive o (page w)) w in
                let w := record (GatherActive o) w in
                let active := Controller.hasActive o (page w) in
                let w := record (HasActive o active) w in
                if active
                then
                  let w :=
                    set_page (Controller.broadcastActive o (page w)) w in
                  (true, record (BroadcastActive o) w)
                else (hasChanges, w))).
  { intros [h w0] o. unfold visit. cbn.
    destruct (Controller.hasActive o (Controller.gatherActive o (page w0)));
      reflexivity. }
  assert (Hun : forall l (acc : bool * world (P := P)),
             unchanged_during (sessions := lift pure) isBrowser
               mutationsSupported l acc).
  { induction l as [|o l IH]; intros acc; [exact I|].
    split; [|apply IH]. rewrite Hv. destruct acc as [h w0]. cbn.
    destruct (Controller.hasActive o (Controller.gatherActive o (page w0)));
      reflexivity. }
  split; [apply Hun|]. intros fuel Hfuel.
  destruct (@loop_is_pass P (lift pure) isBrowser mutationsSupported obs fuel
              [] (false, w) eq_refl (Hun obs (false, w)) Hfuel) as (E & _).
  unfold _updateObservers. cbn [length] in E. rewrite E. reflexivity.
Qed.

End Pure.

(** *** On concrete passes *)

Lemma three_sessions_reachable :
  Controller.reachable (sessions := calm) true true three_sessions.
Proof.
  exists false, tt, [(0, Connect 1); (0, Connect 2); (0, Connect 3)].
  reflexivity.
Qed.



Lemma updateObservers_app_witness :
  _observers three_sessions_after = [2] ++ [3]
  /\ unchanged_during (sessions := leaving) true true ([2] ++ [3])
       (false, three_sessions_after)
  /\ _updateObservers (sessions := leaving) true true 3 three_sessions_after
     = Some (true,
             snd (pass_over (sessions := leaving) true true [3]
                    (false,
                     snd (pass_over (sessions := leaving) true true [2]
                            (false, three_sessions_after))))).
Proof.
  assert (Hun : unchanged_during (sessions := leaving) true true ([2] ++ [3])
                  (false, three_sessions_after))
    by (repeat split).
  split; [reflexivity|]. split; [exact Hun|].
  apply (@updateObservers_app unit leaving true true [2] [3]
           three_sessions_after eq_refl Hun 3).
  apply Nat.lt_succ_diag_r.
Defined.

End LiveProofs.

(** ** The queued tasks: proofs *)

Module PendingProofs.
Import Controller Pending ControllerProofs.

Lemma throttled_eqb_eq (f g : throttled) : throttled_eqb f g = true <-> f = g.
Proof. destruct f, g; simpl; split; congruence. Qed.

Section TakeMin.
Variable task : Type.

Lemma take_min_none (ts : list (nat * task)) :
  take_min ts = None <-> ts = [].
Proof.
  destruct ts as [|x r]; simpl; [tauto|].
  destruct (take_min r) as [[y r']|]; [destruct (fst x <=? fst y)|];
    split; discriminate.
Qed.

Lemma take_min_filter (p : nat * task -> bool) (ts : list (nat * task)) x rest :
  take_min ts = Some (x, rest) ->
  length (filter p ts) = (if p x then 1 else 0) + length (filter p rest).
Proof.
  revert x rest. induction ts as [|a r IH]; intros x rest H; [discriminate|].
  simpl in H. destruct (take_min r) as [[y r']|] eqn:E.
  - destruct (fst a <=? fst y).
    + injection H as <- <-. simpl. destruct (p a); simpl; lia.
    + injection H as <- <-. specialize (IH y r' eq_refl). simpl.
      destruct (p a), (p y); simpl in *; lia.
  - injection H as <- <-. apply take_min_none in E. subst r. simpl.
    destruct (p a); reflexivity.
Qed.

Lemma take_min_Forall (Q : nat * task -> Prop) (ts : list (nat * task)) x rest :
  take_min ts = Some (x, rest) -> Forall Q ts -> Q x /\ Forall Q rest.
Proof.
  revert x rest. induction ts as [|a r IH]; intros x rest H HF; [discriminate|].
  inversion HF as [|? ? Ha Hr]; subst.
  simpl in H. destruct (take_min r) as [[y r']|] eqn:E.
  - destruct (IH y r' eq_refl Hr) as (Hy & Hr').
    destruct (fst a <=? fst y); injection H as <- <-.
    + split; assumption.
    + split; [assumption | constructor; assumption].
  - injection H as <- <-. split; [assumption | constructor].
Qed.
End TakeMin.

Lemma no_continuous_frame (l : loop task) :
  well_queued l -> frame_count continuous_throttle l = 0.
Proof.
  intros (_ & Hf). unfold frame_count.
  induction Hf as [|k fs Hk _ IH]; [reflexivity|]. subst k. exact IH.
Qed.

Section Proofs.
Context {P : Type} {sessions : Session P}.
Variable isBrowser : bool.
Variable mutationsSupported : bool.

Local Abbreviation world := (@world P).
Local Abbreviation act := (@act P sessions isBrowser mutationsSupported).
Local Abbreviation step := (@step P sessions isBrowser mutationsSupported).
Local Abbreviation run := (@run P sessions isBrowser mutationsSupported).
Local Abbreviation drain := (@drain P sessions isBrowser mutationsSupported).
Local Abbreviation reachable :=
  (@reachable P sessions isBrowser mutationsSupported).
Local Abbreviation connect := (@connect P isBrowser mutationsSupported).
Local Abbreviation disconnect := (@disconnect P isBrowser).
Local Abbreviation set_continuousUpdates :=
  (@set_continuousUpdates P mutationsSupported).
Local Abbreviation tasks_inv := (@tasks_inv P).

Lemma same_tasks_inv (w w' : world) :
  same_tasks w w' -> tasks_inv w -> tasks_inv w'.
Proof.
  intros (E1 & E2 & E3) H.
  unfold Pending.tasks_inv, throttle_ok, calls_of in *.
  rewrite E1, E2, E3. exact H.
Qed.

Lemma timer_count_setTimeout g f d (l : loop task) :
  timer_count g (setTimeout (timeoutCallback_task f) d l)
  = timer_count g l + (if throttled_eqb f g then 1 else 0).
Proof.
  unfold timer_count, setTimeout. cbn. rewrite filter_app, length_app. cbn.
  destruct (throttled_eqb f g); reflexivity.
Qed.

Lemma frame_count_setTimeout g k d (l : loop task) :
  frame_count g (setTimeout k d l) = frame_count g l.
Proof. reflexivity. Qed.

Lemma well_queued_setTimeout f d (l : loop task) :
  well_queued l -> well_queued (setTimeout (timeoutCallback_task f) d l).
Proof.
  intros (Ht & Hf). split; [|exact Hf]. cbn. apply Forall_app. split; [exact Ht|].
  constructor; [exists f; reflexivity | constructor].
Qed.

(** A proxy call keeps the invariant of its own closure and touches nothing
    of the other. *)
Lemma proxy_tasks_inv f (c : callData) (w : world) :
  tasks_inv w ->
  tasks_inv
    (Throttle.proxy (get_lead f) (set_lead f) (set_edge f) (delay f)
       (schedule_timeoutCallback f) c w).
Proof.
  intros (Hq & (Hr1 & Hr2) & (Hc1 & Hc2)). rewrite closure_proxy_eq.
  destruct w as [a b m o [rl re] [cl ce] [nw ts fs] r p t].
  unfold Pending.tasks_inv, throttle_ok, pending_call, well_queued,
    timer_count, frame_count in *.
  cbn in *. destruct Hq as (Hqt & Hqf).
  destruct f; cbn.
  - destruct rl as [l|]; cbn.
    + repeat split; auto; intros; discriminate.
    + rewrite !filter_app, !length_app. cbn.
      repeat split; auto; try lia; try (intros; discriminate).
      apply Forall_app. split; [exact Hqt|].
      constructor; [eexists; reflexivity | constructor].
  - destruct cl as [l|]; cbn.
    + repeat split; auto; intros; discriminate.
    + rewrite !filter_app, !length_app. cbn.
      repeat split; auto; try lia; try (intros; discriminate).
      apply Forall_app. split; [exact Hqt|].
      constructor; [eexists; reflexivity | constructor].
Qed.

Lemma refresh_tasks_inv c (w : world) : tasks_inv w -> tasks_inv (refresh c w).
Proof. apply (proxy_tasks_inv refresh_throttle). Qed.

Lemma continuous_tasks_inv c (w : world) :
  tasks_inv w -> tasks_inv (_continuousUpdateHandler c w).
Proof. apply (proxy_tasks_inv continuous_throttle). Qed.

(** *** Running a task keeps the invariant *)

(** The animation-frame callback of [this.refresh], its task just taken off
    the queue. *)
Lemma invoke_refresh_tasks_inv (w : world) c e :
  refresh_calls w = mkCaptured (Some c) e ->
  well_queued (ev w) ->
  timer_count refresh_throttle (ev w) = 0 ->
  frame_count refresh_throttle (ev w) = 0 ->
  throttle_ok continuous_throttle w ->
  tasks_inv (invokeCallback refresh_throttle w).
Proof.
  intros Hc Hq Ht Hf (Hc1 & Hc2). rewrite (invoke_refresh_eq w Hc). cbv zeta.
  destruct (pass_changes (_observers w) (page w));
    [|destruct (_isCycleContinuous w && _listenersEnabled w)];
    cbn [negb andb]; rewrite ?_continuousUpdateHandler_eq;
    destruct w as [a b m o rc [cl ce] [nw ts fs] r p t];
    cbn in Hc; subst rc;
    unfold Pending.tasks_inv, throttle_ok, pending_call, well_queued,
      timer_count, frame_count, after_pass in *;
    cbn in *; destruct Hq as (Hqt & Hqf).
  - rewrite !filter_app, !length_app. cbn.
    repeat split; auto; try lia; try (intros; discriminate).
    apply Forall_app. split; [exact Hqt|].
    constructor; [eexists; reflexivity | constructor].
  - destruct cl as [l|], e as [x|]; cbn;
      rewrite ?filter_app, ?length_app; cbn;
      repeat split; auto; try lia; try (intros; discriminate);
      repeat (apply Forall_app; split); auto;
      constructor; solve [eexists; reflexivity | constructor].
  - destruct e as [x|]; cbn;
      rewrite ?filter_app, ?length_app; cbn;
      repeat split; auto; try lia; try (intros; discriminate).
    apply Forall_app. split; [exact Hqt|].
    constructor; [eexists; reflexivity | constructor].
Qed.

(** The timeout of [this._continuousUpdateHandler], its task just taken off
    the queue. *)
Lemma invoke_continuous_tasks_inv (w : world) c e :
  continuous_calls w = mkCaptured (Some c) e ->
  well_queued (ev w) ->
  timer_count continuous_throttle (ev w) = 0 ->
  throttle_ok refresh_throttle w ->
  tasks_inv (invokeCallback continuous_throttle w).
Proof.
  intros Hc Hq Ht (Hr1 & Hr2). rewrite (invoke_continuous_eq w Hc).
  rewrite refresh_eq.
  destruct w as [a b m o [rl re] cc [nw ts fs] r p t].
  cbn in Hc. subst cc.
  pose proof (no_continuous_frame Hq) as Hfc.
  unfold Pending.tasks_inv, throttle_ok, pending_call, well_queued,
    timer_count, frame_count in *.
  cbn in *. destruct Hq as (Hqt & Hqf).
  destruct rl as [l|], e as [x|]; cbn;
    rewrite ?filter_app, ?length_app; cbn;
    repeat split; auto; try lia; try (intros; discriminate);
    repeat (apply Forall_app; split); auto;
    repeat (constructor; try solve [eexists; reflexivity]).
Qed.

(** *** The operations of the controller touch the coalescers through
    [this.refresh] only *)

Lemma connect_tasks (o : observer) (w : world) :
  exists w1,
    same_tasks w w1
    /\ (connect o w = w1 \/ connect o w = refresh own_call w1).
Proof.
  unfold Controller.connect, Controller._addListeners.
  destruct (isConnected o w); cbn [negb];
    destruct w as [a b m ob rc cc v r p t]; cbn;
    destruct b, isBrowser, mutationsSupported, a; cbn;
    first
      [ solve [eexists; split; [|left; reflexivity];
               repeat split; reflexivity]
      | solve [eexists; split; [|right; reflexivity];
               repeat split; reflexivity] ].
Qed.

Lemma disconnect_tasks (o : observer) (w : world) :
  same_tasks w (disconnect o w).
Proof.
  unfold Controller.disconnect, Controller._removeListeners.
  destruct (truthy (Z.lnot _)); cbv zeta;
    repeat match goal with
           | |- context [if ?b then _ else _] => destruct b
           end;
    repeat split.
Qed.

Lemma setter_tasks (v : bool) (w : world) :
  exists w1,
    same_tasks w w1
    /\ (set_continuousUpdates v w = w1
        \/ set_continuousUpdates v w = refresh own_call w1).
Proof.
  unfold Controller.set_continuousUpdates.
  destruct mutationsSupported; cbn [negb].
  - cbv zeta. destruct (_listenersEnabled _ && v).
    + eexists. split; [|right; reflexivity]. repeat split.
    + eexists. split; [|left; reflexivity]. repeat split.
  - exists w. split; [repeat split | left; reflexivity].
Qed.

Lemma pending_call_lead (c : captured) :
  1 <= pending_call c -> exists l, c = mkCaptured (Some l) (edgeCall c).
Proof.
  destruct c as [[l|] e]; unfold pending_call; cbn; intros H; [|lia].
  exists l. reflexivity.
Qed.

Lemma pending_call_le (c : captured) : pending_call c <= 1.
Proof. destruct c as [[l|] e]; unfold pending_call; cbn; lia. Qed.

(** What taking the next timeout off the queue leaves. *)
Lemma timer_taken (w : world) due k rest :
  tasks_inv w ->
  take_min (timers (ev w)) = Some ((due, k), rest) ->
  exists f,
    k = timeoutCallback_task f
    /\ (exists l, calls_of f w = mkCaptured (Some l) (edgeCall (calls_of f w)))
    /\ well_queued (set_timers rest (ev w))
    /\ timer_count f (set_timers rest (ev w)) = 0
    /\ frame_count f (ev w) = 0
    /\ timer_count f (ev w) = 1
    /\ (forall g, g <> f ->
          timer_count g (set_timers rest (ev w)) = timer_count g (ev w)).
Proof.
  intros ((Hqt & Hqf) & (Hr1 & _) & (Hc1 & _)) Htm.
  destruct (take_min_Forall Htm Hqt) as ((f & Hk) & Hrest).
  cbn in Hk. subst k. exists f. split; [reflexivity|].
  pose proof (fun g => @take_min_filter _
                (fun x => task_eqb (snd x) (timeoutCallback_task g)) _ _ _ Htm)
    as Hcount.
  cbn [snd] in Hcount.
  assert (Hf : timer_count f (ev w) + frame_count f (ev w)
               = pending_call (calls_of f w))
    by (destruct f; assumption).
  pose proof (Hcount f) as Hcf. unfold timer_count in *.
  cbn [timers set_timers] in *.
  assert (Hrefl : task_eqb (timeoutCallback_task f) (timeoutCallback_task f)
                  = true) by (destruct f; reflexivity).
  rewrite Hrefl in Hcf. pose proof (pending_call_le (calls_of f w)) as Hle.
  split; [apply pending_call_lead; lia|].
  split; [split; assumption|].
  split; [lia|]. split; [lia|]. split; [lia|].
  intros g Hg. rewrite (Hcount g).
  replace (task_eqb (timeoutCallback_task f) (timeoutCallback_task g))
    with false; [reflexivity|].
  destruct f, g; try reflexivity; congruence.
Qed.

Lemma act_tasks_inv t a (w w' : world) :
  tasks_inv w -> act t a w = Some w' -> tasks_inv w'.
Proof.
  intros Hinv Ha. destruct a; cbn [Controller.act] in Ha.
  - injection Ha as <-.
    destruct (connect_tasks o w) as (w1 & Hs & [-> | ->]).
    + eapply same_tasks_inv; eassumption.
    + apply refresh_tasks_inv. eapply same_tasks_inv; eassumption.
  - injection Ha as <-.
    eapply same_tasks_inv; [apply disconnect_tasks | exact Hinv].
  - injection Ha as <-.
    destruct (setter_tasks v w) as (w1 & Hs & [-> | ->]).
    + eapply same_tasks_inv; eassumption.
    + apply refresh_tasks_inv. eapply same_tasks_inv; eassumption.
  - injection Ha as <-. apply refresh_tasks_inv, Hinv.
  - injection Ha as <-. destruct (resize_listener w); [|exact Hinv].
    apply refresh_tasks_inv, Hinv.
  - injection Ha as <-. destruct (_mutationsObserver w); [|exact Hinv].
    apply refresh_tasks_inv, Hinv.
  - injection Ha as <-. eapply same_tasks_inv; [|exact Hinv]. repeat split.
  - (* the next timeout *)
    destruct (take_min _) as [[[due k] rest]|] eqn:Htm; [|discriminate].
    destruct (due <=? t); [|discriminate]. injection Ha as <-.
    destruct (timer_taken Hinv Htm)
      as (f & -> & (l & Hl) & Hq & Ht0 & Hf0 & _ & Hother).
    destruct Hinv as (_ & Hr & Hc).
    set (w1 := set_ev (set_timers rest (ev w)) w).
    cbn [run_task]. unfold timeoutCallback, Throttle.timeoutCallback.
    destruct f; cbn [afterRAF].
    + (* this.refresh: invokeCallback goes to the animation frame *)
      unfold schedule_invokeCallback.
      specialize (Hother continuous_throttle ltac:(discriminate)).
      destruct Hq as (Hqt & Hqf). destruct Hc as (Hc1 & Hc2).
      subst w1. destruct w as [a b m o rc cc [nw ts fs] r p tr].
      cbn [calls_of refresh_calls] in Hl.
      unfold Pending.tasks_inv, throttle_ok, well_queued, timer_count,
        frame_count in *.
      cbn in *. rewrite Hl. unfold pending_call at 1. cbn.
      rewrite !filter_app, !length_app. cbn.
      split; [split; [exact Hqt|]|].
      * apply Forall_app. split; [exact Hqf | repeat constructor].
      * unfold pending_call in *.
        repeat split; try lia; try (intros; discriminate); auto.
    + (* this._continuousUpdateHandler: it fires *)
      fold (invokeCallback continuous_throttle).
      apply invoke_continuous_tasks_inv
        with (c := l) (e := edgeCall (continuous_calls w)).
      * exact Hl.
      * exact Hq.
      * exact Ht0.
      * specialize (Hother refresh_throttle ltac:(discriminate)).
        destruct Hr as (Hr1 & Hr2). split; [|exact Hr2].
        subst w1. cbn [ev set_ev calls_of refresh_calls] in *.
        rewrite Hother. exact Hr1.
  - (* the next animation-frame callback *)
    destruct (frames (ev w)) as [|k rest] eqn:Hfr; [discriminate|].
    injection Ha as <-.
    destruct Hinv as ((Hqt & Hqf) & (Hr1 & Hr2) & Hc).
    rewrite Hfr in Hqf. inversion Hqf as [|? ? Hk Hrest]; subst.
    cbn [run_task].
    assert (Hfc : frame_count refresh_throttle (ev w)
                  = 1 + length (filter (fun k => task_eqb k
                                   (invokeCallback_task refresh_throttle)) rest)).
    { unfold frame_count. rewrite Hfr. reflexivity. }
    pose proof (pending_call_le (refresh_calls w)) as Hle.
    cbn [calls_of] in Hr1.
    destruct (@pending_call_lead (refresh_calls w) ltac:(lia)) as (l & Hl).
    apply invoke_refresh_tasks_inv
      with (c := l) (e := edgeCall (refresh_calls w)).
    + exact Hl.
    + split; [exact Hqt | exact Hrest].
    + cbn. unfold timer_count in *. lia.
    + unfold frame_count. cbn. lia.
    + destruct Hc as (Hc1 & Hc2). split; [|exact Hc2].
      assert (Hwq' : well_queued (set_frames rest (ev w)))
        by (split; [exact Hqt | exact Hrest]).
      assert (Hwq : well_queued (ev w))
        by (split; [exact Hqt | rewrite Hfr; exact Hqf]).
      cbn [calls_of continuous_calls set_ev ev] in *.
      rewrite (no_continuous_frame Hwq').
      rewrite (no_continuous_frame Hwq) in Hc1.
      exact Hc1.
Qed.

Lemma step_tasks_inv la (w w' : world) :
  tasks_inv w -> step la w = Some w' -> tasks_inv w'.
Proof.
  destruct la as [t a]. intros Hinv Hs. unfold Controller.step in Hs.
  destruct (t <? now (ev w)); [discriminate|].
  eapply act_tasks_inv; [|exact Hs].
  destruct Hinv as (Hq & Hr & Hc). repeat split; try apply Hq;
    try apply Hr; try apply Hc.
Qed.

Lemma run_tasks_inv s (w w' : world) :
  tasks_inv w -> run s w = Some w' -> tasks_inv w'.
Proof.
  revert w. induction s as [|la s IH]; intros w Hinv Hr; simpl in Hr.
  - injection Hr as <-. exact Hinv.
  - destruct (step la w) as [w1|] eqn:E; [|discriminate].
    apply (IH w1); [eapply step_tasks_inv; eassumption | exact Hr].
Qed.

Lemma constructor_tasks_inv b (p : P) :
  tasks_inv (constructor mutationsSupported b p).
Proof.
  unfold Pending.tasks_inv, throttle_ok, well_queued, timer_count, frame_count,
    pending_call.
  cbn. repeat split; auto.
Qed.

Lemma reachable_tasks_inv (w : world) : reachable w -> tasks_inv w.
Proof.
  intros (b & p & s & Hr).
  eapply run_tasks_inv; [apply constructor_tasks_inv | exact Hr].
Qed.

(** *** Once no observer is connected *)

Lemma work_left_le (w : world) : tasks_inv w -> work_left w <= 10.
Proof.
  intros (Hq & (Hr & _) & (Hc & _)).
  pose proof (pending_call_le (refresh_calls w)).
  pose proof (pending_call_le (continuous_calls w)).
  unfold work_left, edge_call. cbn [calls_of] in *.
  destruct (edgeCall (refresh_calls w)), (edgeCall (continuous_calls w)); lia.
Qed.

Lemma length_filter_nil A (p : A -> bool) (Q : A -> Prop) (l : list A) :
  Forall Q l -> (forall x, Q x -> p x = false) -> filter p l = [].
Proof.
  intros HF Hp. induction HF as [|x l Hx _ IH]; [reflexivity|].
  simpl. rewrite (Hp x Hx). exact IH.
Qed.

Lemma rest_quiescent (w : world) :
  tasks_inv w -> Controller.next_task w = None -> quiescent w.
Proof.
  intros Hinv Hn. unfold Controller.next_task in Hn.
  destruct (frames (ev w)) eqn:Hf; [|discriminate].
  destruct (take_min (timers (ev w))) as [[[d k] r]|] eqn:Ht; [discriminate|].
  apply take_min_none in Ht.
  destruct Hinv as (Hq & (Hr1 & Hr2) & (Hc1 & Hc2)).
  unfold timer_count, frame_count, pending_call in *.
  rewrite Ht, Hf in *. cbn in *.
  unfold Controller.quiescent, no_call.
  destruct (refresh_calls w) as [[l|] e]; cbn in *; [discriminate|].
  destruct (continuous_calls w) as [[l|] e']; cbn in *; [discriminate|].
  rewrite Hr2, Hc2 by reflexivity. repeat split; assumption.
Qed.

Lemma set_now_tasks_inv t (w : world) :
  tasks_inv w -> tasks_inv (set_ev (set_now t (ev w)) w).
Proof.
  intros (Hq & Hr & Hc).
  repeat split; try apply Hq; try apply Hr; try apply Hc.
Qed.

Lemma idle_task (w : world) la :
  tasks_inv w -> _observers w = [] -> _listenersEnabled w = false ->
  Controller.next_task w = Some la ->
  exists w',
    step la w = Some w'
    /\ _observers w' = [] /\ _listenersEnabled w' = false
    /\ session_calls w' = session_calls w
    /\ work_left w' < work_left w.
Proof.
  intros Hinv Hobs Hlis Hn. unfold Controller.next_task in Hn.
  destruct (frames (ev w)) as [|k frest] eqn:Hfr.
  - (* the earliest timeout *)
    destruct (take_min (timers (ev w))) as [[[due k] rest]|] eqn:Htm;
      [|discriminate].
    injection Hn as <-.
    set (t := Nat.max (now (ev w)) due).
    set (w0 := set_ev (set_now t (ev w)) w).
    assert (Htm0 : take_min (timers (ev w0)) = Some ((due, k), rest))
      by exact Htm.
    rewrite step_eq by apply Nat.le_max_l. fold w0.
    erewrite act_timer; [|exact Htm0 | apply Nat.le_max_r].
    eexists. split; [reflexivity|].
    pose proof (set_now_tasks_inv t Hinv) as Hinv0. fold w0 in Hinv0.
    destruct (timer_taken Hinv0 Htm0)
      as (f & -> & (l & Hl) & Hq & Ht0 & Hf0 & Ht1 & Hother).
    destruct Hinv0 as (_ & Hr & Hc).
    cbn [run_task]. unfold timeoutCallback, Throttle.timeoutCallback.
    destruct f; cbn [afterRAF].
    + unfold schedule_invokeCallback.
      specialize (Hother continuous_throttle ltac:(discriminate)).
      subst w0. destruct w as [a b m o rc cc [nw ts fs] r p tr].
      unfold work_left, timer_count, frame_count, session_calls in *.
      cbn in *. rewrite !filter_app, !length_app. cbn.
      repeat split; auto. lia.
    + fold (invokeCallback continuous_throttle).
      erewrite invoke_continuous_eq; [|exact Hl].
      rewrite refresh_eq.
      specialize (Hother refresh_throttle ltac:(discriminate)).
      destruct Hr as (Hr1 & Hr2).
      subst w0. destruct w as [a b m o [rl re] [cl ce] [nw ts fs] r p tr].
      unfold work_left, timer_count, frame_count, session_calls, edge_call,
        pending_call in *.
      cbn in *.
      destruct rl as [x|], ce as [y|], re as [z|]; cbn;
        rewrite ?filter_app, ?length_app; cbn;
        repeat split; auto; try lia;
        specialize (Hr2 eq_refl); discriminate.
  - (* the animation-frame callback *)
    injection Hn as <-.
    set (t := now (ev w)).
    set (w0 := set_ev (set_now t (ev w)) w).
    assert (Hfr0 : frames (ev w0) = k :: frest) by exact Hfr.
    rewrite step_eq by apply Nat.le_refl. fold t. fold w0.
    erewrite act_frame; [|exact Hfr0].
    eexists. split; [reflexivity|].
    destruct Hinv as ((Hqt & Hqf) & (Hr1 & Hr2) & (Hc1 & Hc2)).
    rewrite Hfr in Hqf. inversion Hqf as [|? ? Hk Hrest]; subst k.
    cbn [run_task].
    assert (Hfc : frame_count refresh_throttle (ev w)
                  = 1 + length (filter (fun k => task_eqb k
                                   (invokeCallback_task refresh_throttle))
                                  frest)).
    { unfold frame_count. rewrite Hfr. reflexivity. }
    pose proof (pending_call_le (refresh_calls w)) as Hle.
    cbn [calls_of] in Hr1.
    destruct (@pending_call_lead (refresh_calls w) ltac:(lia)) as (lc & Hl).
    erewrite invoke_refresh_eq; [|exact Hl].
    subst w0 t. destruct w as [a b m o [rl re] cc [nw ts fs] r p tr].
    unfold work_left, timer_count, frame_count, session_calls, edge_call,
      pending_call, after_pass in *.
    cbn in *. subst o b fs. cbn in *.
    rewrite Bool.andb_false_r. cbn.
    destruct re as [z|]; cbn;
      rewrite ?filter_app, ?length_app; cbn;
      repeat split; auto; try lia; rewrite ?app_nil_r; auto.
Qed.

Lemma idle_drain n :
  forall w : world,
    tasks_inv w -> _observers w = [] -> _listenersEnabled w = false ->
    work_left w <= n ->
    quiescent (drain n w)
    /\ _observers (drain n w) = []
    /\ session_calls (drain n w) = session_calls w.
Proof.
  induction n as [|n IH]; intros w Hinv Hobs Hlis Hw.
  - cbn [Controller.drain]. split; [|split; [exact Hobs | reflexivity]].
    apply (rest_quiescent Hinv).
    destruct (Controller.next_task w) as [la|] eqn:Hn; [|reflexivity].
    destruct (idle_task Hinv Hobs Hlis Hn) as (w' & _ & _ & _ & _ & Hlt). lia.
  - destruct (Controller.next_task w) as [la|] eqn:Hn.
    + destruct (idle_task Hinv Hobs Hlis Hn)
        as (w' & Hs & Hobs' & Hlis' & Hsc & Hlt).
      erewrite drain_S; [|exact Hn | exact Hs].
      destruct (IH w' (step_tasks_inv _ Hinv Hs) Hobs' Hlis' ltac:(lia))
        as (Hq & Ho & Hc).
      split; [exact Hq|]. split; [exact Ho|]. rewrite Hc. exact Hsc.
    + cbn [Controller.drain]. rewrite Hn.
      split; [apply (rest_quiescent Hinv Hn) | split; [exact Hobs | reflexivity]].
Qed.

(** *** The invariant, and what follows from it *)

Lemma filter_In_length A (p : A -> bool) (l : list A) x :
  In x l -> p x = true -> 1 <= length (filter p l).
Proof.
  intros Hin Hp. assert (H : In x (filter p l)) by (apply filter_In; auto).
  destruct (filter p l); [destruct H | simpl; lia].
Qed.

Lemma queue_lengths (l : loop task) :
  well_queued l ->
  length (timers l)
  = timer_count refresh_throttle l + timer_count continuous_throttle l
  /\ length (frames l) = frame_count refresh_throttle l.
Proof.
  intros (Ht & Hf). unfold timer_count, frame_count. split.
  - induction Ht as [|[d k] ts (f & Hk) _ IH]; [reflexivity|].
    cbn in Hk. subst k. destruct f; cbn in *; lia.
  - induction Hf as [|k fs Hk _ IH]; [reflexivity|].
    subst k. cbn in *. lia.
Qed.

(** X1.  In every reachable state of the controller each of its two
    coalescers, [this.refresh] and [this._continuousUpdateHandler], has
    exactly one task queued while it holds a lead call and none otherwise,
    and holds an edge call only with a lead call; an animation-frame
    callback is only ever queued for [this.refresh]; and the queues hold
    nothing else, so that at most two tasks are queued at any time. *)
Theorem one_task_per_pending_call (f : throttled) (w : world) :
  reachable w ->
  timer_count f (ev w) + frame_count f (ev w) = pending_call (calls_of f w)
  /\ (leadCall (calls_of f w) = None -> edgeCall (calls_of f w) = None)
  /\ frame_count continuous_throttle (ev w) = 0
  /\ length (queued (ev w))
     = pending_call (refresh_calls w) + pending_call (continuous_calls w)
  /\ length (queued (ev w)) <= 2.
Proof.
  intros Hr. pose proof (reachable_tasks_inv Hr) as (Hq & Hrf & Hc).
  pose proof (no_continuous_frame Hq) as Hcf.
  destruct (queue_lengths Hq) as (Hlt & Hlf).
  assert (Hlen : length (queued (ev w))
                 = pending_call (refresh_calls w)
                   + pending_call (continuous_calls w)).
  { unfold queued. rewrite length_app, length_map, Hlt, Hlf.
    destruct Hrf as (Hr1 & _), Hc as (Hc1 & _). cbn [calls_of] in *. lia. }
  split; [destruct f; [apply Hrf | apply Hc]|].
  split; [destruct f; [apply Hrf | apply Hc]|].
  split; [exact Hcf|]. split; [exact Hlen|].
  pose proof (pending_call_le (refresh_calls w)).
  pose proof (pending_call_le (continuous_calls w)). lia.
Qed.

(** X2.  In every reachable state of the controller, every task in the
    queues belongs to a coalescer whose [leadCall] is set: when
    [invokeCallback] runs, [callback.apply(...leadCall)] has a call to
    spread; and no animation-frame callback is one of
    [this._continuousUpdateHandler], which is made without [afterRAF]. *)
Theorem queued_task_has_lead_call (w : world) (k : task) :
  reachable w ->
  In k (queued (ev w)) ->
  leadCall (calls_of (closure_of k) w) <> None
  /\ k <> invokeCallback_task continuous_throttle.
Proof.
  intros Hr Hin. pose proof (reachable_tasks_inv Hr) as (Hq & Hrf & Hc).
  pose proof (no_continuous_frame Hq) as Hcf.
  assert (Hpos : forall c, 1 <= pending_call c -> leadCall c <> None).
  { intros c H E. unfold pending_call in H. rewrite E in H. lia. }
  assert (Hok : forall g,
             timer_count g (ev w) + frame_count g (ev w)
             = pending_call (calls_of g w))
    by (intros [|]; [apply Hrf | apply Hc]).
  unfold queued in Hin. apply in_app_or in Hin. destruct Hin as [Hin | Hin].
  - apply in_map_iff in Hin. destruct Hin as ([d k'] & Hk & Hin).
    cbn in Hk. subst k'. destruct Hq as (Hqt & _).
    rewrite Forall_forall in Hqt. destruct (Hqt _ Hin) as (g & Hg).
    cbn in Hg. subst k. cbn [closure_of]. split; [|discriminate].
    apply Hpos. rewrite <- Hok.
    assert (1 <= timer_count g (ev w)); [|lia].
    unfold timer_count.
    apply (@filter_In_length _ _ _ (d, timeoutCallback_task g) Hin).
    destruct g; reflexivity.
  - destruct Hq as (_ & Hqf). rewrite Forall_forall in Hqf.
    pose proof (Hqf _ Hin) as Hk. subst k. cbn [closure_of].
    split; [|discriminate].
    apply Hpos. rewrite <- Hok.
    assert (1 <= frame_count refresh_throttle (ev w)); [|lia].
    unfold frame_count.
    apply (@filter_In_length _ _ _ (invokeCallback_task refresh_throttle) Hin).
    reflexivity.
Qed.

(** X3.  From any reachable state of the controller with no session
    connected, whatever calls and tasks are pending in its two coalescers,
    the event loop left alone comes to rest within ten tasks: nothing is
    pending then, nothing runs any more, and no session was called on the
    way. *)
Theorem idle_controller_settles (w : world) :
  reachable w ->
  _observers w = [] ->
  let w' := drain 10 w in
  quiescent w'
  /\ (forall n, drain n w' = w')
  /\ session_calls w' = session_calls w
  /\ _observers w' = [].
Proof.
  intros Hr Hobs w'. pose proof (reachable_tasks_inv Hr) as Hinv.
  assert (Hlis : _listenersEnabled w = false).
  { destruct (reachable_ctl_inv Hr) as (_ & Hle & _).
    rewrite Hle, Hobs. apply Bool.andb_false_r. }
  destruct (@idle_drain 10 w Hinv Hobs Hlis (work_left_le Hinv))
    as (Hq & Ho & Hs).
  fold w' in Hq, Ho, Hs.
  split; [exact Hq|]. split; [|split; assumption].
  intros n. apply drain_at_rest. exact Hq.
Qed.

End Proofs.

(** *** On concrete runs *)

Lemma one_task_per_pending_call_witness :
  reachable (sessions := countdown) true true abandoned_world
  /\ timer_count refresh_throttle (ev abandoned_world)
     + frame_count refresh_throttle (ev abandoned_world)
     = pending_call (refresh_calls abandoned_world)
  /\ length (queued (ev abandoned_world)) <= 2.
Proof.
  split; [apply abandoned_world_reachable|].
  pose proof (@one_task_per_pending_call nat countdown true true
                refresh_throttle abandoned_world abandoned_world_reachable)
    as H.
  split; apply H.
Defined.

Lemma queued_task_has_lead_call_witness :
  reachable (sessions := countdown) true true abandoned_world
  /\ In (timeoutCallback_task refresh_throttle) (queued (ev abandoned_world))
  /\ leadCall (refresh_calls abandoned_world) <> None.
Proof.
  split; [apply abandoned_world_reachable|].
  split; [left; reflexivity|].
  apply (@queued_task_has_lead_call nat countdown true true abandoned_world
           (timeoutCallback_task refresh_throttle) abandoned_world_reachable).
  left. reflexivity.
Defined.

Lemma idle_controller_settles_witness :
  reachable (sessions := countdown) true true abandoned_world
  /\ _observers abandoned_world = []
  /\ quiescent (drain true true 10 abandoned_world)
  /\ session_calls (drain true true 10 abandoned_world)
     = session_calls abandoned_world.
Proof.
  split; [apply abandoned_world_reachable|]. split; [reflexivity|].
  pose proof (@idle_controller_settles nat countdown true true
                abandoned_world abandoned_world_reachable eq_refl) as H.
  cbv zeta in H. split; apply H.
Defined.

End PendingProofs.

(** ** Further facts about the controller *)

Module ControllerFacts.
Import Controller Pending Facts ControllerProofs PendingProofs.

Section Facts.
Context {P : Type} {sessions : Session P}.
Variable isBrowser : bool.
Variable mutationsSupported : bool.

Local Abbreviation world := (@world P).
Local Abbreviation act := (@act P sessions isBrowser mutationsSupported).
Local Abbreviation step := (@step P sessions isBrowser mutationsSupported).
Local Abbreviation run := (@run P sessions isBrowser mutationsSupported).
Local Abbreviation drain := (@drain P sessions isBrowser mutationsSupported).
Local Abbreviation reachable :=
  (@reachable P sessions isBrowser mutationsSupported).
Local Abbreviation connect := (@connect P isBrowser mutationsSupported).
Local Abbreviation disconnect := (@disconnect P isBrowser).
Local Abbreviation set_continuousUpdates :=
  (@set_continuousUpdates P mutationsSupported).
Local Abbreviation ctl_inv := (@ctl_inv P isBrowser mutationsSupported).
Local Abbreviation tasks_inv := (@tasks_inv P).

(** *** The registry of sessions *)

Lemma bool_eq_iff (a b : bool) : (a = true <-> b = true) -> a = b.
Proof. destruct a, b; intros [H1 H2]; auto; symmetry; auto. Qed.

Lemma In_without (o o' : observer) (l : list observer) :
  In o' (without o l) <-> In o' l /\ o' <> o.
Proof.
  unfold without. rewrite filter_In. split; intros (H1 & H2); split; auto.
  - intros ->. rewrite Nat.eqb_refl in H2. discriminate.
  - apply Bool.negb_true_iff, Nat.eqb_neq. exact H2.
Qed.

(** X4.  In every reachable state: after [connect] of a session
    [isConnected] answers yes for it, after [disconnect] it answers no, and
    neither changes the answer for any other session. *)
Theorem isConnected_after (o o' : observer) (w : world) :
  reachable w ->
  isConnected o (connect o w) = true
  /\ isConnected o (disconnect o w) = false
  /\ (o' <> o -> isConnected o' (connect o w) = isConnected o' w)
  /\ (o' <> o -> isConnected o' (disconnect o w) = isConnected o' w).
Proof.
  intros Hr. pose proof (reachable_ctl_inv Hr) as Hinv.
  destruct (connect_spec o Hinv) as (Hc & _).
  destruct (disconnect_spec o Hinv) as (Hd & _).
  split; [|split; [|split]].
  - apply isConnected_In. rewrite Hc. destruct (isConnected o w) eqn:E.
    + apply isConnected_In. exact E.
    + apply in_or_app. right. left. reflexivity.
  - destruct (isConnected o (disconnect o w)) eqn:E; [|reflexivity].
    apply isConnected_In in E. rewrite Hd in E. apply In_without in E.
    destruct E as (_ & E). congruence.
  - intros Hne. apply bool_eq_iff. rewrite !isConnected_In, Hc.
    destruct (isConnected o w); [tauto|]. rewrite in_app_iff. cbn.
    split; [intros [H | [H | []]]; [exact H | congruence] | tauto].
  - intros Hne. apply bool_eq_iff. rewrite !isConnected_In, Hd, In_without.
    tauto.
Qed.

(** X5.  In every reachable state: [disconnect] after [connect] of a session
    that was not connected gives back the list of sessions and the listeners'
    state there were; [connect] after [disconnect] leaves the session
    connected, as the last of the list. *)
Theorem disconnect_after_connect (o : observer) (w : world) :
  reachable w ->
  (isConnected o w = false ->
   _observers (disconnect o (connect o w)) = _observers w
   /\ _listenersEnabled (disconnect o (connect o w)) = _listenersEnabled w
   /\ resize_listener (disconnect o (connect o w)) = resize_listener w
   /\ _mutationsObserver (disconnect o (connect o w)) = _mutationsObserver w
   /\ _isCycleContinuous (disconnect o (connect o w)) = _isCycleContinuous w)
  /\ _observers (connect o (disconnect o w)) = without o (_observers w) ++ [o].
Proof.
  intros Hr. pose proof (reachable_ctl_inv Hr) as Hinv. split.
  - intros Hnc.
    destruct (connect_spec o Hinv) as (Hc & _ & Hcy & Hinv').
    destruct (disconnect_spec o Hinv') as (Hd & _ & Hcy' & Hinv'').
    assert (Hobs : _observers (disconnect o (connect o w)) = _observers w).
    { rewrite Hd, Hc, Hnc, without_app, without_absent.
      - unfold without. cbn. rewrite Nat.eqb_refl. apply app_nil_r.
      - intros Hin. apply isConnected_In in Hin. congruence. }
    destruct Hinv as (_ & Hle & Hrl & Hmo & _).
    destruct Hinv'' as (_ & Hle' & Hrl' & Hmo' & _).
    split; [exact Hobs|].
    assert (Hl : _listenersEnabled (disconnect o (connect o w))
                 = _listenersEnabled w)
      by (rewrite Hle', Hle, Hobs; reflexivity).
    split; [exact Hl|]. split; [rewrite Hrl', Hrl; exact Hl|].
    split; [rewrite Hmo', Hmo, Hl; reflexivity|].
    rewrite Hcy', Hcy. reflexivity.
  - destruct (disconnect_spec o Hinv) as (Hd & _ & _ & Hinv').
    destruct (connect_spec o Hinv') as (Hc & _).
    rewrite Hc, Hd.
    destruct (isConnected o (disconnect o w)) eqn:E; [|reflexivity].
    apply isConnected_In in E. rewrite Hd in E. apply In_without in E.
    destruct E as (_ & E). congruence.
Qed.

(** *** What the operations schedule *)

Lemma refresh_keeps (c : callData) (w : world) :
  continuous_calls (refresh c w) = continuous_calls w
  /\ page (refresh c w) = page w
  /\ leadCall (refresh_calls (refresh c w)) <> None
  /\ now (ev (refresh c w)) = now (ev w).
Proof.
  rewrite refresh_eq. destruct (leadCall (refresh_calls w));
    repeat split; discriminate.
Qed.

Lemma continuous_calls_refresh (c : callData) (w : world) :
  continuous_calls (refresh c w) = continuous_calls w.
Proof. apply refresh_keeps. Qed.

Lemma refresh_is_one_call (c : callData) (w : world) :
  one_refresh_call c w (refresh c w).
Proof.
  unfold one_refresh_call. rewrite refresh_eq.
  destruct (leadCall (refresh_calls w)); split; reflexivity.
Qed.

(** X6.  With [MutationObserver] supported, the setter of
    [continuousUpdates] stores its argument, which the getter then answers;
    it leaves the sessions and the listeners alone and invokes nothing; and
    exactly when the listeners are enabled and the argument is true it makes
    one call [this.refresh()]: the call is recorded as the edge call when a
    lead call is held, and otherwise as the lead call with its timeout queued
    30 from now.  In every other case it schedules nothing.  The setter does
    nothing else: its result is the world with the mode stored and, in that
    one case, [this.refresh()] called. *)
Theorem setter_with_mutation_observer (v : bool) (w : world) :
  mutationsSupported = true ->
  continuousUpdates (set_continuousUpdates v w) = v
  /\ _observers (set_continuousUpdates v w) = _observers w
  /\ _listenersEnabled (set_continuousUpdates v w) = _listenersEnabled w
  /\ trace (set_continuousUpdates v w) = trace w
  /\ continuous_calls (set_continuousUpdates v w) = continuous_calls w
  /\ (if _listenersEnabled w && v
      then one_refresh_call own_call w (set_continuousUpdates v w)
      else ev (set_continuousUpdates v w) = ev w
           /\ refresh_calls (set_continuousUpdates v w) = refresh_calls w)
  /\ set_continuousUpdates v w
     = (if _listenersEnabled w && v
        then refresh own_call (set_isCycleContinuous v w)
        else set_isCycleContinuous v w).
Proof.
  intros Hm. rewrite (setter_with_support v w Hm).
  destruct (_listenersEnabled w && v).
  - pose proof (same_ctl_refresh own_call (set_isCycleContinuous v w))
      as (H1 & H2 & _ & H4 & _).
    destruct (refresh_keeps own_call (set_isCycleContinuous v w))
      as (K1 & _ & K3 & _).
    unfold continuousUpdates. rewrite H1, H2, H4, trace_refresh, K1.
    repeat split.
    apply (refresh_is_one_call own_call (set_isCycleContinuous v w)).
  - repeat split.
Qed.

(** X7.  Exactly when it adds the listeners (a browser, listeners not yet
    enabled) while the cycle is continuous, [connect] makes one call
    [this.refresh()]: the call is recorded as the edge call when a lead call
    is held, and otherwise as the lead call with its timeout queued 30 from
    now.  In every other case it schedules nothing and leaves both coalescers
    as they are.  It never invokes the method [refresh] itself and never
    touches [this._continuousUpdateHandler]. *)
Theorem connect_schedules (o : observer) (w : world) :
  passes (connect o w) = passes w
  /\ continuous_calls (connect o w) = continuous_calls w
  /\ (if isBrowser && negb (_listenersEnabled w) && _isCycleContinuous w
      then one_refresh_call own_call w (connect o w)
      else ev (connect o w) = ev w
           /\ refresh_calls (connect o w) = refresh_calls w).
Proof.
  unfold Controller.connect, Controller._addListeners.
  destruct (isConnected o w); cbn [negb]; cbv zeta;
    destruct (_listenersEnabled w) eqn:El;
    destruct (_isCycleContinuous w) eqn:Ec;
    destruct isBrowser, mutationsSupported; cbn;
    rewrite ?El, ?Ec; cbn; rewrite ?El, ?Ec; cbn;
    unfold passes; rewrite ?trace_refresh, ?continuous_calls_refresh; cbn;
    rewrite ?filter_app; cbn; rewrite ?app_nil_r;
    repeat split;
    match goal with
    | |- one_refresh_call _ _ (refresh _ ?w1) =>
        apply (refresh_is_one_call own_call w1)
    end.
Qed.

(** X8.  [disconnect] cancels nothing: the timeouts and animation-frame
    callbacks that are queued stay queued, and the calls held by the two
    coalescers stay held, also when the last session goes and the listeners
    are removed; nor does it call any session. *)
Theorem disconnect_cancels_nothing (o : observer) (w : world) :
  ev (disconnect o w) = ev w
  /\ refresh_calls (disconnect o w) = refresh_calls w
  /\ continuous_calls (disconnect o w) = continuous_calls w
  /\ page (disconnect o w) = page w
  /\ session_calls (disconnect o w) = session_calls w.
Proof.
  destruct (disconnect_tasks isBrowser o w) as (H1 & H2 & H3).
  split; [exact H1|]. split; [exact H2|]. split; [exact H3|].
  unfold Controller.disconnect, Controller._removeListeners, session_calls.
  destruct (truthy (Z.lnot _)); cbv zeta;
    repeat match goal with
           | |- context [if ?b then _ else _] => destruct b
           end;
    cbn; rewrite ?filter_app; cbn; rewrite ?app_nil_r; split; reflexivity.
Qed.

(** *** What the tasks and the events leave alone *)

Lemma act_same_ctl t a (w w' : world) :
  is_registry_action a = false -> act t a w = Some w' -> same_ctl w w'.
Proof.
  intros Ha H. destruct a; try discriminate Ha; cbn [Controller.act] in H.
  - injection H as <-. apply same_ctl_refresh.
  - injection H as <-. destruct (resize_listener w);
      [apply same_ctl_refresh | apply same_ctl_refl].
  - injection H as <-. destruct (_mutationsObserver w);
      [apply same_ctl_refresh | apply same_ctl_refl].
  - injection H as <-. repeat split.
  - destruct (take_min _) as [[[due k] rest]|]; [|discriminate].
    destruct (due <=? t); [|discriminate]. injection H as <-.
    eapply same_ctl_trans; [|apply same_ctl_run_task]. repeat split.
  - destruct (frames (ev w)) as [|k rest]; [discriminate|].
    injection H as <-.
    eapply same_ctl_trans; [|apply same_ctl_run_task]. repeat split.
Qed.

Lemma step_same_ctl la (w w' : world) :
  is_registry_action (snd la) = false -> step la w = Some w' ->
  same_ctl w w'.
Proof.
  destruct la as [t a]. cbn [snd]. intros Ha H. unfold Controller.step in H.
  destruct (t <? now (ev w)); [discriminate|].
  eapply same_ctl_trans; [|eapply act_same_ctl; eassumption]. repeat split.
Qed.

Lemma trace_timeoutCallback f (w : world) :
  trace (timeoutCallback f w) = trace w.
Proof.
  unfold timeoutCallback, Throttle.timeoutCallback.
  destruct f; cbn [afterRAF]; [reflexivity|].
  fold (invokeCallback continuous_throttle).
  destruct (continuous_calls w) as [[l|] e] eqn:Hc.
  - rewrite (invoke_continuous_eq w Hc).
    destruct e; cbn [trace set_ev set_continuous_calls]; apply trace_refresh.
  - unfold invokeCallback, Throttle.invokeCallback, get_lead.
    cbn [calls_of]. rewrite Hc. reflexivity.
Qed.

(** X9.  Outside the animation-frame callback of [this.refresh] the
    controller calls no session and makes no pass, and only [connect],
    [disconnect] and the setter of [continuousUpdates] write the mode, the
    listeners' flags and the list of sessions: in a reachable state, a call
    of [refresh], an event delivered to a listener, a change of the page and
    the timeout of either coalescer leave those fields as they are and add
    no call of a session. *)
Theorem registry_written_by_three (la : nat * action) (w w' : world) :
  reachable w ->
  is_registry_action (snd la) = false ->
  is_frame (snd la) = false ->
  step la w = Some w' ->
  (_isCycleContinuous w' = _isCycleContinuous w
   /\ _listenersEnabled w' = _listenersEnabled w
   /\ _mutationsObserver w' = _mutationsObserver w
   /\ _observers w' = _observers w
   /\ resize_listener w' = resize_listener w)
  /\ session_calls w' = session_calls w
  /\ passes w' = passes w.
Proof.
  intros Hr Ha Hf Hs. split; [eapply step_same_ctl; eassumption|].
  assert (Ht : trace w' = trace w).
  { pose proof (reachable_tasks_inv Hr) as Hinv.
    destruct la as [t a]. cbn [snd] in Ha, Hf.
    unfold Controller.step in Hs.
    destruct (t <? now (ev w)); [discriminate|].
    destruct a; try discriminate Ha; try discriminate Hf;
      cbn [Controller.act] in Hs.
    - injection Hs as <-. rewrite trace_refresh. reflexivity.
    - injection Hs as <-. cbn [resize_listener set_ev].
      destruct (resize_listener w); rewrite ?trace_refresh; reflexivity.
    - injection Hs as <-. cbn [_mutationsObserver set_ev].
      destruct (_mutationsObserver w); rewrite ?trace_refresh; reflexivity.
    - injection Hs as <-. reflexivity.
    - destruct (take_min _) as [[[due k] rest]|] eqn:Htm; [|discriminate].
      destruct (due <=? t); [|discriminate]. injection Hs as <-.
      destruct (timer_taken (set_now_tasks_inv t Hinv) Htm)
        as (f & -> & _).
      cbn [run_task]. rewrite trace_timeoutCallback. reflexivity. }
  unfold session_calls, passes. rewrite Ht. split; reflexivity.
Qed.

(** *** Outside a browser *)

Lemma frame_taken (w : world) k rest :
  tasks_inv w -> frames (ev w) = k :: rest ->
  k = invokeCallback_task refresh_throttle
  /\ exists l, refresh_calls w = mkCaptured (Some l) (edgeCall (refresh_calls w)).
Proof.
  intros ((Hqt & Hqf) & (Hr1 & _) & _) Hfr.
  rewrite Hfr in Hqf. inversion Hqf as [|? ? Hk Hrest]; subst.
  split; [reflexivity|]. apply pending_call_lead.
  cbn [calls_of] in Hr1. rewrite <- Hr1. unfold frame_count. rewrite Hfr.
  cbn. lia.
Qed.

Lemma act_keeps_handler_idle t a (w w' : world) :
  _listenersEnabled w = false -> tasks_inv w ->
  continuous_calls w = no_call ->
  act t a w = Some w' -> continuous_calls w' = no_call.
Proof.
  intros Hl Hinv Hc H. destruct a; cbn [Controller.act] in H.
  - injection H as <-.
    destruct (connect_tasks isBrowser mutationsSupported o w)
      as (w1 & (_ & _ & E) & [-> | ->]);
      rewrite ?continuous_calls_refresh, E; exact Hc.
  - injection H as <-.
    destruct (disconnect_tasks isBrowser o w) as (_ & _ & E).
    rewrite E. exact Hc.
  - injection H as <-.
    destruct (setter_tasks mutationsSupported v w)
      as (w1 & (_ & _ & E) & [-> | ->]);
      rewrite ?continuous_calls_refresh, E; exact Hc.
  - injection H as <-. rewrite continuous_calls_refresh. exact Hc.
  - injection H as <-. destruct (resize_listener w);
      rewrite ?continuous_calls_refresh; exact Hc.
  - injection H as <-. destruct (_mutationsObserver w);
      rewrite ?continuous_calls_refresh; exact Hc.
  - injection H as <-. exact Hc.
  - destruct (take_min _) as [[[due k] rest]|] eqn:Htm; [|discriminate].
    destruct (due <=? t); [|discriminate]. injection H as <-.
    destruct (timer_taken Hinv Htm) as (f & -> & (l & Hlead) & _).
    destruct f; [exact Hc|].
    cbn [calls_of] in Hlead. rewrite Hc in Hlead. discriminate.
  - destruct (frames (ev w)) as [|k rest] eqn:Hfr; [discriminate|].
    injection H as <-.
    destruct (frame_taken Hinv Hfr) as (-> & l & Hlead).
    cbn [run_task]. erewrite invoke_refresh_eq; [|exact Hlead].
    cbv zeta. cbn [_listenersEnabled set_ev]. rewrite Hl.
    rewrite !Bool.andb_false_r.
    destruct (if pass_changes _ _ then _ else _); exact Hc.
Qed.

(** X11.  Outside a browser the listeners are never enabled, and so
    [this._continuousUpdateHandler] is never called, in continuous mode
    either: in every reachable state its coalescer holds no call and has no
    timeout queued, and at most one task, of [this.refresh], is queued. *)
Theorem no_polling_outside_browser (w : world) :
  isBrowser = false ->
  reachable w ->
  _listenersEnabled w = false
  /\ continuous_calls w = no_call
  /\ timer_count continuous_throttle (ev w) = 0
  /\ length (queued (ev w)) <= 1.
Proof.
  intros Hb Hr.
  assert (Hlis : forall w0 : world, ctl_inv w0 -> _listenersEnabled w0 = false).
  { intros w0 (_ & Hle & _). rewrite Hle, Hb. reflexivity. }
  assert (Hgen : forall s (w0 w1 : world),
             ctl_inv w0 -> tasks_inv w0 -> continuous_calls w0 = no_call ->
             run s w0 = Some w1 -> continuous_calls w1 = no_call).
  { intros s. induction s as [|la s IH];
      intros w0 w1 Hi Ht Hc Hrun; simpl in Hrun.
    - injection Hrun as <-. exact Hc.
    - destruct (step la w0) as [w2|] eqn:Es; [|discriminate].
      destruct la as [t a].
      apply (IH w2 w1); [eapply step_ctl_inv; eassumption
                        | eapply step_tasks_inv; eassumption | | exact Hrun].
      unfold Controller.step in Es.
      destruct (t <? now (ev w0)); [discriminate|].
      apply (@act_keeps_handler_idle t a (set_ev (set_now t (ev w0)) w0) w2);
        [apply (Hlis w0 Hi) | apply set_now_tasks_inv; exact Ht
        | exact Hc | exact Es]. }
  assert (Hc : continuous_calls w = no_call).
  { destruct Hr as (b & p & s & Hrun).
    eapply Hgen; [apply constructor_inv | apply constructor_tasks_inv
                 | reflexivity | exact Hrun]. }
  pose proof (reachable_tasks_inv Hr) as Hinv.
  pose proof (reachable_ctl_inv Hr) as Hci.
  split; [apply Hlis, Hci|]. split; [exact Hc|].
  destruct Hinv as (Hq & (Hr1 & _) & (Hc1 & _)).
  cbn [calls_of] in *. rewrite Hc in Hc1. unfold pending_call in Hc1 at 1.
  cbn in Hc1. split; [lia|].
  destruct (queue_lengths Hq) as (Hlt & Hlf).
  unfold queued. rewrite length_app, length_map, Hlt, Hlf.
  pose proof (pending_call_le (refresh_calls w)). lia.
Qed.

(** *** The continuous cycle *)

Lemma handler_pending (c : callData) (w : world) :
  leadCall (continuous_calls (_continuousUpdateHandler c w)) <> None.
Proof.
  rewrite _continuousUpdateHandler_eq.
  destruct (leadCall (continuous_calls w)); discriminate.
Qed.

Lemma refresh_pending (c : callData) (w : world) :
  leadCall (refresh_calls (refresh c w)) <> None.
Proof. apply refresh_keeps. Qed.

(** A task of a coalescer, run in continuous mode with the listeners
    enabled, leaves a call pending. *)
Lemma task_keeps_polling t a (w w' : world) :
  a = Timer \/ a = Frame ->
  tasks_inv w -> _isCycleContinuous w = true -> _listenersEnabled w = true ->
  act t a w = Some w' -> call_pending w'.
Proof.
  intros Ha Hinv Hcy Hl H. destruct Ha as [-> | ->]; cbn [Controller.act] in H.
  - destruct (take_min _) as [[[due k] rest]|] eqn:Htm; [|discriminate].
    destruct (due <=? t); [|discriminate]. injection H as <-.
    destruct (timer_taken Hinv Htm) as (f & -> & (l & Hlead) & _).
    destruct f; cbn [calls_of] in Hlead.
    + left. cbn. rewrite Hlead. discriminate.
    + left. cbn [run_task]. unfold timeoutCallback, Throttle.timeoutCallback.
      cbn [afterRAF]. fold (invokeCallback continuous_throttle).
      erewrite invoke_continuous_eq; [|exact Hlead].
      destruct (edgeCall (continuous_calls w)); apply refresh_pending.
  - destruct (frames (ev w)) as [|k rest] eqn:Hfr; [discriminate|].
    injection H as <-.
    destruct (frame_taken Hinv Hfr) as (-> & l & Hlead).
    cbn [run_task]. erewrite invoke_refresh_eq; [|exact Hlead].
    cbv zeta. cbn [_listenersEnabled _isCycleContinuous set_ev].
    rewrite Hl, Hcy. cbn [andb]. rewrite Bool.andb_true_r.
    destruct (pass_changes _ _); cbn [negb].
    + left. discriminate.
    + destruct (edgeCall (refresh_calls w)); [left; discriminate|].
      right. apply handler_pending.
Qed.

Lemma same_polling (w w' : world) :
  same_ctl w w' -> same_tasks w w' -> polling_ok w -> polling_ok w'.
Proof.
  intros (E1 & E2 & _) (_ & E3 & E4) H. unfold polling_ok, call_pending.
  rewrite E1, E2, E3, E4. exact H.
Qed.

Lemma refresh_polling c (w : world) : polling_ok (refresh c w).
Proof. intros _ _. left. apply refresh_pending. Qed.

Lemma connect_polling (o : observer) (w : world) :
  polling_ok w -> polling_ok (connect o w).
Proof.
  unfold Controller.connect, Controller._addListeners.
  destruct (isConnected o w); cbn [negb]; cbv zeta;
    destruct (_listenersEnabled w) eqn:El;
    destruct (_isCycleContinuous w) eqn:Ec;
    destruct isBrowser, mutationsSupported; cbn;
    rewrite ?El, ?Ec; cbn; rewrite ?El, ?Ec; cbn;
    intros H; try apply refresh_polling;
    unfold polling_ok in *; cbn; rewrite ?El, ?Ec;
    first [ exact H
          | intros _ _; apply (H Ec El)
          | intros; discriminate ].
Qed.

Lemma disconnect_polling (o : observer) (w : world) :
  polling_ok w -> polling_ok (disconnect o w).
Proof.
  unfold Controller.disconnect, Controller._removeListeners, polling_ok.
  destruct (truthy (Z.lnot _)); cbv zeta;
    repeat match goal with
           | |- context [if ?b then _ else _] => destruct b
           end;
    cbn; auto; intros; discriminate.
Qed.

Lemma setter_polling (v : bool) (w : world) :
  polling_ok w -> polling_ok (set_continuousUpdates v w).
Proof.
  unfold Controller.set_continuousUpdates.
  destruct mutationsSupported; cbn [negb]; [|auto]. cbv zeta.
  cbn [_listenersEnabled set_isCycleContinuous].
  destruct (_listenersEnabled w) eqn:El, v; cbn [andb]; intros H;
    try apply refresh_polling; unfold polling_ok; cbn; rewrite ?El;
    intros; discriminate.
Qed.

Lemma act_polling t a (w w' : world) :
  tasks_inv w -> polling_ok w -> act t a w = Some w' -> polling_ok w'.
Proof.
  intros Hinv Hp H.
  destruct a;
    try (intros Hcy Hl;
         assert (Hs : same_ctl w w')
           by (eapply act_same_ctl; [|exact H]; reflexivity);
         destruct Hs as (E1 & E2 & _); rewrite E1 in Hcy; rewrite E2 in Hl;
         eapply task_keeps_polling; [| exact Hinv | exact Hcy | exact Hl
                                     | exact H]; auto; fail);
    cbn [Controller.act] in H; injection H as <-.
  - apply connect_polling, Hp.
  - apply disconnect_polling, Hp.
  - apply setter_polling, Hp.
  - apply refresh_polling.
  - destruct (resize_listener w); [apply refresh_polling | exact Hp].
  - destruct (_mutationsObserver w); [apply refresh_polling | exact Hp].
  - exact Hp.
Qed.

Lemma run_polling s :
  forall w w' : world,
    tasks_inv w -> polling_ok w -> run s w = Some w' -> polling_ok w'.
Proof.
  induction s as [|la s IH]; intros w w' Hinv Hp Hrun; simpl in Hrun.
  - injection Hrun as <-. exact Hp.
  - destruct (step la w) as [w1|] eqn:Es; [|discriminate].
    apply (IH w1 w'); [eapply step_tasks_inv; eassumption | | exact Hrun].
    destruct la as [t a]. unfold Controller.step in Es.
    destruct (t <? now (ev w)); [discriminate|].
    apply (@act_polling t a (set_ev (set_now t (ev w)) w) w1);
      [apply set_now_tasks_inv; exact Hinv | exact Hp | exact Es].
Qed.

Lemma reachable_polling (w : world) : reachable w -> polling_ok w.
Proof.
  intros (b & p & s & Hrun).
  eapply run_polling; [apply constructor_tasks_inv | | exact Hrun].
  intros _ Hl. discriminate Hl.
Qed.

Lemma run_then_step s la :
  forall w w1 w2 : world,
    run s w = Some w1 -> step la w1 = Some w2 -> run (s ++ [la]) w = Some w2.
Proof.
  induction s as [|x s IH]; intros w w1 w2 Hr Hs; simpl in *.
  - injection Hr as <-. rewrite Hs. reflexivity.
  - destruct (step x w) as [w0|]; [|discriminate]. eapply IH; eassumption.
Qed.

Lemma next_task_runs (w : world) la :
  Controller.next_task w = Some la ->
  is_registry_action (snd la) = false /\ exists w', step la w = Some w'.
Proof.
  unfold Controller.next_task. destruct (frames (ev w)) as [|k rest] eqn:Hfr.
  - destruct (take_min (timers (ev w))) as [[[due k] rest]|] eqn:Htm;
      [|discriminate].
    intros H. injection H as <-. split; [reflexivity|].
    rewrite step_eq by apply Nat.le_max_l.
    erewrite act_timer; [eexists; reflexivity | exact Htm
                        | apply Nat.le_max_r].
  - intros H. injection H as <-. split; [reflexivity|].
    rewrite step_eq by apply Nat.le_refl.
    erewrite act_frame; [eexists; reflexivity | exact Hfr].
Qed.

Lemma reachable_drain n :
  forall w : world, reachable w -> reachable (drain n w)
                                   /\ same_ctl w (drain n w).
Proof.
  induction n as [|n IH]; intros w Hr;
    [split; [exact Hr | apply same_ctl_refl]|].
  cbn [Controller.drain].
  destruct (Controller.next_task w) as [la|] eqn:Hn;
    [|split; [exact Hr | apply same_ctl_refl]].
  destruct (next_task_runs _ Hn) as (Ha & w' & Hs). rewrite Hs.
  assert (Hr' : reachable w').
  { destruct Hr as (b & p & s & Hrun). exists b, p, (s ++ [la]).
    eapply run_then_step; eassumption. }
  destruct (IH w' Hr') as (H1 & H2). split; [exact H1|].
  eapply same_ctl_trans; [eapply step_same_ctl; eassumption | exact H2].
Qed.

Lemma pending_not_quiescent (w : world) :
  call_pending w -> ~ quiescent w.
Proof.
  intros [H | H] (Hr & Hc & _); [rewrite Hr in H | rewrite Hc in H];
    apply H; reflexivity.
Qed.


(** *** A burst of calls *)

(** A scheduled refresh with an edge call behind it: the timeout, then the
    animation-frame callback, and the edge call is scheduled in its turn
    unless the method has itself called [this.refresh]. *)
Lemma refresh_firing (w : world) c e due :
  refresh_calls w = mkCaptured (Some c) e ->
  timers (ev w) = [(due, timeoutCallback_task refresh_throttle)] ->
  frames (ev w) = [] ->
  _isCycleContinuous w && _listenersEnabled w = false ->
  drain 2 w =
  let t := Nat.max (now (ev w)) due in
  match (if pass_changes (_observers w) (page w) then Some own_call else e)
  with
  | Some x =>
      set_ev (mkLoop t [(t + 30, timeoutCallback_task refresh_throttle)] [])
        (set_refresh_calls (mkCaptured (Some x) None) (after_pass w))
  | None => set_ev (mkLoop t [] []) (set_refresh_calls no_call (after_pass w))
  end.
Proof.
  intros Hc Ht Hf Hcl. cbv zeta. set (t := Nat.max (now (ev w)) due).
  set (w1 := set_ev (mkLoop t [] [invokeCallback_task refresh_throttle]) w).
  assert (S1 : step (t, Timer) w = Some w1).
  { rewrite step_eq by (unfold t; lia).
    rewrite act_timer with (due := due)
                           (k := timeoutCallback_task refresh_throttle)
                           (rest := []);
      [| cbn; rewrite Ht; reflexivity | unfold t; lia].
    f_equal. unfold w1. destruct w as [a b m o rc cc [nw ts fs] r p tr].
    cbn in Hf. subst fs. reflexivity. }
  assert (N1 : Controller.next_task w = Some (t, Timer)).
  { unfold Controller.next_task. rewrite Hf, Ht. reflexivity. }
  rewrite (@drain_S _ _ _ _ 1 w w1 _ N1 S1).
  set (w2 := set_ev (mkLoop t [] []) w).
  assert (S2 : step (t, Frame) w1 = Some (invokeCallback refresh_throttle w2)).
  { rewrite step_eq by (cbn; lia).
    rewrite act_frame with (k := invokeCallback_task refresh_throttle)
                           (rest := []); reflexivity. }
  assert (N2 : Controller.next_task w1 = Some (t, Frame)) by reflexivity.
  rewrite (@drain_S _ _ _ _ 0 w1 _ _ N2 S2). cbn [Controller.drain].
  rewrite invoke_refresh_eq with (c := c) (e := e) by exact Hc.
  cbv zeta. change (_isCycleContinuous w2) with (_isCycleContinuous w).
  change (_listenersEnabled w2) with (_listenersEnabled w).
  change (_observers w2) with (_observers w).
  change (page w2) with (page w).
  rewrite Hcl, Bool.andb_false_r.
  destruct (pass_changes (_observers w) (page w)), e; reflexivity.
Qed.

Lemma refresh_all_edge (cs : list callData) :
  forall (w : world) l e,
    refresh_calls w = mkCaptured (Some l) e ->
    exists e',
      refresh_all cs w = set_refresh_calls (mkCaptured (Some l) e') w
      /\ (cs = [] -> e' = e) /\ (cs <> [] -> e' <> None).
Proof.
  induction cs as [|c cs IH]; intros w l e Hc.
  - exists e. split; [|split; [reflexivity | congruence]].
    cbn. rewrite <- Hc. destruct w; reflexivity.
  - cbn [refresh_all fold_left].
    assert (E : refresh c w
                = set_refresh_calls (mkCaptured (Some l) (Some c)) w)
      by (rewrite refresh_eq, Hc; reflexivity).
    rewrite E.
    destruct (IH (set_refresh_calls (mkCaptured (Some l) (Some c)) w)
                l (Some c) eq_refl) as (e' & E' & H1 & H2).
    exists e'. split; [|split; [discriminate|]].
    + fold (refresh_all cs
              (set_refresh_calls (mkCaptured (Some l) (Some c)) w)).
      rewrite E'. reflexivity.
    + intros _. destruct cs; [rewrite H1; [discriminate | reflexivity]|].
      apply H2. discriminate.
Qed.

(** X13.  With the continuous cycle off and nothing pending, a burst of
    calls of [this.refresh] made before its timeout runs is coalesced: when
    the sessions report changes in exactly the first K passes, a single call
    leads to K+1 passes, and any number of further calls adds one pass only
    when there would have been just one (K = 0), none otherwise, since the
    call the method makes itself takes the place of the edge call.  The
    event loop then comes to rest. *)
Theorem burst_is_coalesced K (c : callData) (cs : list callData) (w : world) :
  quiescent w ->
  _isCycleContinuous w = false ->
  (forall i, changes_at (_observers w) (page w) i = (i <? K)) ->
  let n := burst_passes K cs in
  let w' := drain (2 * n) (refresh_all (c :: cs) w) in
  quiescent w' /\ passes w' = passes w + n.
Proof.
  intros (Hr & Hcc & Ht & Hf) Hcy Hch n w'.
  assert (Hshape : refresh c w =
                   set_ev (mkLoop (now (ev w))
                             [(now (ev w) + 30,
                               timeoutCallback_task refresh_throttle)] [])
                     (set_refresh_calls (mkCaptured (Some c) None) w)).
  { rewrite refresh_eq, Hr. cbn [leadCall edgeCall no_call].
    unfold setTimeout, set_timers. rewrite Ht, Hf. reflexivity. }
  destruct (@refresh_all_edge cs (refresh c w) c None)
    as (e & Hall & He1 & He2); [rewrite Hshape; reflexivity|].
  assert (Hw1 : refresh_all (c :: cs) w
                = set_refresh_calls (mkCaptured (Some c) e) (refresh c w))
    by exact Hall.
  subst w'. rewrite Hw1. clear Hall Hw1.
  set (w1 := set_refresh_calls (mkCaptured (Some c) e) (refresh c w)).
  assert (F1 : refresh_calls w1 = mkCaptured (Some c) e) by reflexivity.
  assert (F2 : timers (ev w1)
               = [(now (ev w) + 30, timeoutCallback_task refresh_throttle)])
    by (unfold w1; rewrite Hshape; reflexivity).
  assert (F3 : frames (ev w1) = [])
    by (unfold w1; rewrite Hshape; reflexivity).
  assert (F4 : _isCycleContinuous w1 = false)
    by (unfold w1; rewrite Hshape; exact Hcy).
  assert (F5 : continuous_calls w1 = no_call)
    by (unfold w1; rewrite Hshape; exact Hcc).
  assert (F6 : _observers w1 = _observers w)
    by (unfold w1; rewrite Hshape; reflexivity).
  assert (F7 : page w1 = page w)
    by (unfold w1; rewrite Hshape; reflexivity).
  assert (F8 : passes w1 = passes w)
    by (unfold w1; rewrite Hshape; reflexivity).
  destruct cs as [|c2 cs].
  - (* a single call *)
    rewrite (He1 eq_refl) in F1. subst n. cbn [burst_passes].
    replace (K + 1) with (S K) by lia.
    destruct (@convergence_from _ _ isBrowser mutationsSupported K w1 c
                (now (ev w) + 30) F1 F5 F2 F3 F4) as (Hq & Hp).
    + rewrite F6, F7. exact Hch.
    + split; [exact Hq|]. rewrite Hp, F8. reflexivity.
  - (* further calls: an edge call is held *)
    assert (Hn : n = 1 + S (pred K))
      by (subst n; cbn [burst_passes]; lia).
    rewrite Hn. replace (2 * (1 + S (pred K))) with (2 + 2 * S (pred K))
      by lia.
    rewrite drain_add.
    rewrite (@refresh_firing w1 c e (now (ev w) + 30) F1 F2 F3)
      by (rewrite F4; reflexivity).
    cbv zeta.
    destruct e as [x|]; [|exfalso; apply He2; [discriminate | reflexivity]].
    set (y := if pass_changes (_observers w1) (page w1)
              then own_call else x).
    replace (if pass_changes (_observers w1) (page w1)
             then Some own_call else Some x) with (Some y)
      by (unfold y; destruct (pass_changes _ _); reflexivity).
    match goal with
    | |- context [drain _ ?w2] =>
        destruct (@convergence_from _ _ isBrowser mutationsSupported
                    (pred K) w2 y
                    (Nat.max (now (ev w1)) (now (ev w) + 30) + 30))
          as (Hq & Hp); try reflexivity; try assumption
    end.
    + intros i.
      change (changes_at (_observers w1)
                (pass_page (_observers w1) (page w1)) i = (i <? pred K)).
      rewrite <- changes_at_S, F6, F7, (Hch (S i)).
      destruct K; reflexivity.
    + split; [exact Hq|]. rewrite Hp.
      match goal with
      | |- passes ?w2 + _ = _ =>
          change (passes w2) with (passes (after_pass w1))
      end.
      rewrite passes_after_pass, F8. lia.
Qed.

(** *** The period of the continuous cycle *)

(** One round of the continuous cycle when the sessions report no change:
    the timeout of [this.refresh], its animation-frame callback, in which the
    method calls [this._continuousUpdateHandler], and the timeout of that,
    70 later, which calls [this.refresh] again. *)
Lemma polling_cycle (w : world) c due :
  armed c due w ->
  _isCycleContinuous w = true -> _listenersEnabled w = true ->
  pass_changes (_observers w) (page w) = false ->
  drain 3 w =
  set_ev (mkLoop (due + 70)
            [(due + 70 + 30, timeoutCallback_task refresh_throttle)] [])
    (set_refresh_calls (mkCaptured (Some own_call) None) (after_pass w)).
Proof.
  intros (Hc & Hcc & Ht & Hf & Hnow) Hcy Hl Hp.
  assert (Hmax : Nat.max (now (ev w)) due = due) by lia.
  (* the timeout of this.refresh *)
  set (w1 := set_ev (mkLoop due [] [invokeCallback_task refresh_throttle]) w).
  assert (S1 : step (due, Timer) w = Some w1).
  { rewrite step_eq by lia.
    rewrite act_timer with (due := due)
                           (k := timeoutCallback_task refresh_throttle)
                           (rest := []);
      [| cbn; rewrite Ht; reflexivity | lia].
    f_equal. unfold w1. destruct w as [a b m o rc cc [nw ts fs] r p tr].
    cbn in Hf. subst fs. reflexivity. }
  assert (N1 : Controller.next_task w = Some (due, Timer)).
  { unfold Controller.next_task. rewrite Hf, Ht. cbn. rewrite Hmax.
    reflexivity. }
  change 3 with (S 2). rewrite (@drain_S _ _ _ _ 2 w w1 _ N1 S1).
  (* the animation frame: the pass, and the handler is called *)
  set (w2 := set_ev (mkLoop due [] []) w).
  set (w3 := set_refresh_calls no_call
               (set_ev (mkLoop due
                          [(due + 70,
                            timeoutCallback_task continuous_throttle)] [])
                  (set_continuous_calls (mkCaptured (Some own_call) None)
                     (after_pass w2)))).
  assert (E3 : invokeCallback refresh_throttle w2 = w3).
  { rewrite invoke_refresh_eq with (c := c) (e := None) by exact Hc.
    cbv zeta. change (_isCycleContinuous w2) with (_isCycleContinuous w).
    change (_listenersEnabled w2) with (_listenersEnabled w).
    change (_observers w2) with (_observers w).
    change (page w2) with (page w).
    rewrite Hp, Hcy, Hl. cbn [negb andb].
    rewrite _continuousUpdateHandler_eq.
    change (continuous_calls (after_pass w2)) with (continuous_calls w).
    rewrite Hcc. reflexivity. }
  assert (S2 : step (due, Frame) w1 = Some w3).
  { rewrite step_eq by (cbn; lia).
    rewrite act_frame with (k := invokeCallback_task refresh_throttle)
                           (rest := []); [|reflexivity].
    rewrite <- E3. reflexivity. }
  assert (N2 : Controller.next_task w1 = Some (due, Frame)) by reflexivity.
  rewrite (@drain_S _ _ _ _ 1 w1 w3 _ N2 S2).
  (* the timeout of the handler: this.refresh is called *)
  set (w4 := set_ev (mkLoop (due + 70) [] []) w3).
  assert (S3 : step (due + 70, Timer) w3
               = Some (invokeCallback continuous_throttle w4)).
  { rewrite step_eq by (cbn; lia).
    rewrite act_timer with (due := due + 70)
                           (k := timeoutCallback_task continuous_throttle)
                           (rest := []); [reflexivity | reflexivity | lia]. }
  assert (N3 : Controller.next_task w3 = Some (due + 70, Timer)).
  { unfold Controller.next_task. cbn.
    replace (Nat.max due (due + 70)) with (due + 70) by lia. reflexivity. }
  rewrite (@drain_S _ _ _ _ 0 w3 _ _ N3 S3). cbn [Controller.drain].
  rewrite invoke_continuous_eq with (c := own_call) (e := None)
    by reflexivity.
  rewrite refresh_eq. unfold w4, w3, w2, after_pass.
  destruct w as [a b m o rc cc [nw ts fs] r p tr].
  cbn in Hc, Hcc. subst rc cc. reflexivity.
Qed.

Lemma step_time t a (w w' : world) :
  step (t, a) w = Some w' -> now (ev w) <= t.
Proof.
  unfold Controller.step.
  destruct (Nat.ltb_spec t (now (ev w))); [discriminate | auto].
Qed.

Lemma step_timer_due t (w w' : world) due k :
  step (t, Timer) w = Some w' -> timers (ev w) = [(due, k)] -> due <= t.
Proof.
  unfold Controller.step. destruct (t <? now (ev w)); [discriminate|].
  cbn [Controller.act]. cbn [ev set_ev timers set_now]. intros H Ht.
  rewrite Ht in H. cbn in H.
  destruct (Nat.leb_spec due t); [assumption | discriminate].
Qed.

(** The same round when its tasks run late: the timeout at [t1], the
    animation frame at [t2], the handler's timeout at [t3]. *)
Lemma polling_round (w w' : world) c due t1 t2 t3 :
  armed c due w ->
  _isCycleContinuous w = true -> _listenersEnabled w = true ->
  pass_changes (_observers w) (page w) = false ->
  run (round (t1, t2, t3)) w = Some w' ->
  (due <= t1 /\ t1 <= t2 /\ t2 + 70 <= t3)
  /\ w' = set_ev (mkLoop t3
                    [(t3 + 30, timeoutCallback_task refresh_throttle)] [])
            (set_refresh_calls (mkCaptured (Some own_call) None)
               (after_pass w)).
Proof.
  intros (Hc & Hcc & Ht & Hf & Hnow) Hcy Hl Hp Hrun.
  cbn [round Controller.run] in Hrun.
  destruct (step (t1, Timer) w) as [x1|] eqn:S1; [|discriminate].
  destruct (step (t2, Frame) x1) as [x2|] eqn:S2; [|discriminate].
  destruct (step (t3, Timer) x2) as [x3|] eqn:S3; [|discriminate].
  injection Hrun as <-.
  (* the timeout of this.refresh *)
  assert (Hn1 : now (ev w) <= t1) by (eapply step_time; exact S1).
  assert (Hd1 : due <= t1)
    by (eapply step_timer_due; [exact S1 | exact Ht]).
  set (w1 := set_ev (mkLoop t1 [] [invokeCallback_task refresh_throttle]) w).
  assert (E1 : x1 = w1).
  { rewrite step_eq in S1 by exact Hn1.
    rewrite act_timer with (due := due)
                           (k := timeoutCallback_task refresh_throttle)
                           (rest := []) in S1;
      [| cbn; rewrite Ht; reflexivity | exact Hd1].
    injection S1 as <-. unfold w1.
    destruct w as [a b m o rc cc [nw ts fs] r p tr].
    cbn in Hf. subst fs. reflexivity. }
  subst x1.
  (* the animation frame: the pass, and the handler is called *)
  assert (Hn2 : t1 <= t2) by (eapply (@step_time t2 Frame w1); exact S2).
  set (w2 := set_ev (mkLoop t2 [] []) w).
  set (w3 := set_refresh_calls no_call
               (set_ev (mkLoop t2
                          [(t2 + 70,
                            timeoutCallback_task continuous_throttle)] [])
                  (set_continuous_calls (mkCaptured (Some own_call) None)
                     (after_pass w2)))).
  assert (E3 : invokeCallback refresh_throttle w2 = w3).
  { rewrite invoke_refresh_eq with (c := c) (e := None) by exact Hc.
    cbv zeta. change (_isCycleContinuous w2) with (_isCycleContinuous w).
    change (_listenersEnabled w2) with (_listenersEnabled w).
    change (_observers w2) with (_observers w).
    change (page w2) with (page w).
    rewrite Hp, Hcy, Hl. cbn [negb andb].
    rewrite _continuousUpdateHandler_eq.
    change (continuous_calls (after_pass w2)) with (continuous_calls w).
    rewrite Hcc. reflexivity. }
  assert (E2 : x2 = w3).
  { rewrite step_eq in S2 by (cbn; exact Hn2).
    rewrite act_frame with (k := invokeCallback_task refresh_throttle)
                           (rest := []) in S2; [|reflexivity].
    injection S2 as <-. rewrite <- E3. reflexivity. }
  subst x2.
  (* the timeout of the handler: this.refresh is called *)
  assert (Hn3 : t2 <= t3) by (eapply (@step_time t3 Timer w3); exact S3).
  assert (Hd3 : t2 + 70 <= t3)
    by (eapply (@step_timer_due t3 w3); [exact S3 | reflexivity]).
  split; [lia|].
  set (w4 := set_ev (mkLoop t3 [] []) w3).
  rewrite step_eq in S3 by (cbn; exact Hn3).
  rewrite act_timer with (due := t2 + 70)
                         (k := timeoutCallback_task continuous_throttle)
                         (rest := []) in S3; [| reflexivity | exact Hd3].
  injection S3 as <-.
  change (invokeCallback continuous_throttle w4 =
          set_ev (mkLoop t3
                    [(t3 + 30, timeoutCallback_task refresh_throttle)] [])
            (set_refresh_calls (mkCaptured (Some own_call) None)
               (after_pass w))).
  rewrite invoke_continuous_eq with (c := own_call) (e := None)
    by reflexivity.
  rewrite refresh_eq. unfold w4, w3, w2, after_pass.
  destruct w as [a b m o rc cc [nw ts fs] r p tr].
  cbn in Hc, Hcc. subst rc cc. reflexivity.
Qed.

Lemma polling_drain n :
  forall (w : world) c due,
    armed c due w ->
    _isCycleContinuous w = true ->
    _listenersEnabled w = true ->
    (forall i, changes_at (_observers w) (page w) i = false) ->
    passes (drain (3 * n) w) = passes w + n
    /\ exists c', armed c' (due + 100 * n) (drain (3 * n) w).
Proof.
  induction n as [|n IH]; intros w c due Ha Hcy Hl Hch.
  - change (3 * 0) with 0. cbn [Controller.drain].
    split; [lia|].
    exists c. replace (due + 100 * 0) with due by lia. exact Ha.
  - replace (3 * S n) with (3 + 3 * n) by lia. rewrite drain_add.
    pose proof (Hch 0) as H0. unfold changes_at in H0. cbn [page_after] in H0.
    rewrite (polling_cycle Ha Hcy Hl H0).
    match goal with
    | |- context [drain _ ?w2] =>
        destruct (IH w2 own_call (due + 70 + 30)) as (Hp & (c' & Ha'));
          [ repeat split; try reflexivity; try apply Ha; cbn; lia
          | exact Hcy | exact Hl | | ]
    end.
    + intros i.
      change (changes_at (_observers w)
                (pass_page (_observers w) (page w)) i = false).
      rewrite <- changes_at_S. apply (Hch (S i)).
    + split.
      * rewrite Hp.
        match goal with
        | |- passes ?w2 + _ = _ =>
            change (passes w2) with (passes (after_pass w))
        end.
        rewrite passes_after_pass. lia.
      * exists c'. replace (due + 100 * S n) with (due + 70 + 30 + 100 * n)
          by lia. exact Ha'.
Qed.

Lemma run_append s1 s2 :
  forall w : world,
    run (s1 ++ s2) w
    = match run s1 w with
      | Some w1 => run s2 w1
      | None => None
      end.
Proof.
  induction s1 as [|la s1 IH]; intros w; [reflexivity|].
  cbn [app Controller.run]. destruct (step la w); [apply IH | reflexivity].
Qed.

(** X14.  The continuous cycle has a period of at least 100: with the
    listeners enabled, only a refresh scheduled, and sessions that report no
    change, every round of the cycle is three tasks (the timeout of
    [this.refresh], its animation-frame callback, the timeout of
    [this._continuousUpdateHandler]) and one pass, and ends as it began with
    only a refresh scheduled; however late the event loop runs the tasks,
    that refresh is due at least 100 later than the one before (30 for
    [this.refresh], 70 for [this._continuousUpdateHandler]), and exactly 100
    later when every task runs as soon as it can. *)
Theorem continuous_cycle_period (rs : list (nat * nat * nat)) :
  forall (w w' : world) c due,
    armed c due w ->
    _isCycleContinuous w = true ->
    _listenersEnabled w = true ->
    (forall i, changes_at (_observers w) (page w) i = false) ->
    (run (rounds rs) w = Some w' ->
     passes w' = passes w + length rs
     /\ exists c' due',
          armed c' due' w' /\ due + 100 * length rs <= due')
    /\ passes (drain (3 * length rs) w) = passes w + length rs
    /\ exists c',
         armed c' (due + 100 * length rs) (drain (3 * length rs) w).
Proof.
  intros w w' c due Ha Hcy Hl Hch.
  split; [|apply (polling_drain (length rs) Ha Hcy Hl Hch)].
  revert w c due Ha Hcy Hl Hch.
  induction rs as [|[[t1 t2] t3] rs IH]; intros w c due Ha Hcy Hl Hch Hrun.
  - cbn in Hrun. injection Hrun as <-. cbn [length]. split; [lia|].
    exists c, due. split; [exact Ha | lia].
  - change (rounds ((t1, t2, t3) :: rs))
      with (round (P := P) (t1, t2, t3) ++ rounds rs) in Hrun.
    rewrite run_append in Hrun.
    destruct (run (round (t1, t2, t3)) w) as [w1|] eqn:R1; [|discriminate].
    pose proof (Hch 0) as H0. unfold changes_at in H0. cbn [page_after] in H0.
    destruct (@polling_round w w1 c due t1 t2 t3 Ha Hcy Hl H0 R1)
      as (Htimes & E1).
    destruct (IH w1 own_call (t3 + 30)) as (Hp & c' & due' & Ha' & Hd');
      [ rewrite E1; repeat split; try reflexivity; try apply Ha; cbn; lia
      | rewrite E1; exact Hcy | rewrite E1; exact Hl | | exact Hrun | ].
    + intros i. rewrite E1.
      change (changes_at (_observers w)
                (pass_page (_observers w) (page w)) i = false).
      rewrite <- changes_at_S. apply (Hch (S i)).
    + split.
      * rewrite Hp, E1.
        match goal with
        | |- passes ?w2 + _ = _ =>
            change (passes w2) with (passes (after_pass w))
        end.
        rewrite passes_after_pass. cbn [length]. lia.
      * exists c', due'. split; [exact Ha'|]. cbn [length]. lia.
Qed.

(** *** The event-driven cycle comes to rest *)

(** With the continuous cycle off (or the listeners), a task of the event
    loop uses up work: the pass of a firing may ask for one more refresh,
    but only while the sessions still report changes. *)
Lemma settling_task (w w' : world) la K :
  tasks_inv w ->
  _isCycleContinuous w && _listenersEnabled w = false ->
  settled_from K w ->
  Controller.next_task w = Some la -> step la w = Some w' ->
  exists K',
    settled_from K' w'
    /\ work_left w' + 2 * K' < work_left w + 2 * K.
Proof.
  intros Hinv Hcl Hset Hn Hs. unfold Controller.next_task in Hn.
  destruct (frames (ev w)) as [|k frest] eqn:Hfr.
  - (* the earliest timeout: the page is not looked at *)
    destruct (take_min (timers (ev w))) as [[[due k] rest]|] eqn:Htm;
      [|discriminate].
    injection Hn as <-.
    set (t := Nat.max (now (ev w)) due) in *.
    set (w0 := set_ev (set_now t (ev w)) w).
    assert (Htm0 : take_min (timers (ev w0)) = Some ((due, k), rest))
      by exact Htm.
    rewrite step_eq in Hs by apply Nat.le_max_l. fold w0 in Hs.
    erewrite act_timer in Hs; [|exact Htm0 | apply Nat.le_max_r].
    injection Hs as <-. exists K.
    pose proof (set_now_tasks_inv t Hinv) as Hinv0. fold w0 in Hinv0.
    destruct (timer_taken Hinv0 Htm0)
      as (f & -> & (l & Hl) & Hq & Ht0 & Hf0 & Ht1 & Hother).
    destruct Hinv0 as (_ & Hr & Hc).
    cbn [run_task]. unfold timeoutCallback, Throttle.timeoutCallback.
    destruct f; cbn [afterRAF].
    + unfold schedule_invokeCallback.
      specialize (Hother continuous_throttle ltac:(discriminate)).
      split; [exact Hset|].
      subst w0. destruct w as [a b m o rc cc [nw ts fs] r p tr].
      unfold work_left, timer_count, frame_count in *.
      cbn in *. rewrite !filter_app, !length_app. cbn. lia.
    + fold (invokeCallback continuous_throttle).
      erewrite invoke_continuous_eq; [|exact Hl].
      rewrite refresh_eq.
      specialize (Hother refresh_throttle ltac:(discriminate)).
      destruct Hr as (Hr1 & Hr2).
      subst w0. destruct w as [a b m o [rl re] [cl ce] [nw ts fs] r p tr].
      unfold work_left, timer_count, frame_count, edge_call,
        pending_call, settled_from in *.
      cbn in *.
      destruct rl as [x|], ce as [y|], re as [z|]; cbn;
        rewrite ?filter_app, ?length_app; cbn;
        (split; [exact Hset|]); try lia;
        specialize (Hr2 eq_refl); discriminate.
  - (* the animation-frame callback: one pass *)
    injection Hn as <-.
    set (t := now (ev w)) in *.
    set (w0 := set_ev (set_now t (ev w)) w).
    assert (Hfr0 : frames (ev w0) = k :: frest) by exact Hfr.
    rewrite step_eq in Hs by apply Nat.le_refl. fold w0 in Hs.
    erewrite act_frame in Hs; [|exact Hfr0].
    injection Hs as <-. exists (pred K).
    destruct Hinv as ((Hqt & Hqf) & (Hr1 & Hr2) & (Hc1 & Hc2)).
    rewrite Hfr in Hqf. inversion Hqf as [|? ? Hk Hrest]; subst k.
    cbn [run_task].
    assert (Hfc : frame_count refresh_throttle (ev w)
                  = 1 + length (filter (fun k => task_eqb k
                                   (invokeCallback_task refresh_throttle))
                                  frest)).
    { unfold frame_count. rewrite Hfr. reflexivity. }
    pose proof (pending_call_le (refresh_calls w)) as Hle.
    cbn [calls_of] in Hr1.
    destruct (@pending_call_lead (refresh_calls w) ltac:(lia)) as (lc & Hl).
    erewrite invoke_refresh_eq; [|exact Hl].
    assert (Hnext : forall i, pred K <= i ->
              changes_at (_observers w)
                (pass_page (_observers w) (page w)) i = false).
    { intros i Hi. rewrite <- changes_at_S. apply Hset. lia. }
    assert (Hpos : pass_changes (_observers w) (page w) = true -> 1 <= K).
    { intros E. destruct K; [|lia].
      pose proof (Hset 0 (Nat.le_refl 0)) as Hz. unfold changes_at in Hz.
      cbn [page_after] in Hz. congruence. }
    subst w0 t. destruct w as [a b m o [rl re] cc [nw ts fs] r p tr].
    unfold work_left, timer_count, frame_count, edge_call,
      pending_call, after_pass, settled_from in *.
    cbn in *. subst fs. cbn in *. rewrite Hcl. cbn.
    rewrite Bool.andb_false_r.
    destruct (pass_changes o p) eqn:Ech; cbn.
    + specialize (Hpos eq_refl).
      rewrite ?filter_app, ?length_app; cbn.
      split; [exact Hnext|]. destruct re; cbn; lia.
    + destruct re as [z|]; cbn;
        rewrite ?filter_app, ?length_app; cbn;
        (split; [exact Hnext|]); lia.
Qed.

Lemma settling_drain n :
  forall (w : world) K,
    tasks_inv w ->
    _isCycleContinuous w && _listenersEnabled w = false ->
    settled_from K w ->
    work_left w + 2 * K <= n ->
    quiescent (drain n w) /\ same_ctl w (drain n w).
Proof.
  induction n as [|n IH]; intros w K Hinv Hcl Hset Hw.
  - cbn [Controller.drain]. split; [|apply same_ctl_refl].
    apply (rest_quiescent Hinv).
    destruct (Controller.next_task w) as [la|] eqn:Hn; [|reflexivity].
    destruct (next_task_runs _ Hn) as (_ & w' & Hs).
    destruct (settling_task Hinv Hcl Hset Hn Hs) as (K' & _ & Hlt). lia.
  - destruct (Controller.next_task w) as [la|] eqn:Hn.
    + destruct (next_task_runs _ Hn) as (Ha & w' & Hs).
      destruct (settling_task Hinv Hcl Hset Hn Hs) as (K' & Hset' & Hlt).
      assert (Hsame : same_ctl w w')
        by (eapply step_same_ctl; eassumption).
      erewrite drain_S; [|exact Hn | exact Hs].
      assert (Hinv' : tasks_inv w')
        by (eapply step_tasks_inv; eassumption).
      destruct (IH w' K' Hinv') as (Hq & Hsame');
        [ destruct Hsame as (E1 & E2 & _); rewrite E1, E2; exact Hcl
        | exact Hset' | lia | ].
      split; [exact Hq | eapply same_ctl_trans; eassumption].
    + cbn [Controller.drain]. rewrite Hn.
      split; [apply (rest_quiescent Hinv Hn) | apply same_ctl_refl].
Qed.


End Facts.

(** *** On concrete runs *)

Lemma cycling_world_reachable :
  reachable (sessions := countdown) true true cycling_world.
Proof. exists true, 0, [(0, Connect 1)]. reflexivity. Qed.

Lemma headless_world_reachable :
  reachable (sessions := countdown) false true headless_world.
Proof. exists true, 0, [(0, Connect 1); (1, Refresh)]. reflexivity. Qed.

Lemma isConnected_after_witness :
  reachable (sessions := countdown) true true (connected_world 0)
  /\ isConnected 1 (connect true true 1 (connected_world 0)) = true
  /\ isConnected 1 (disconnect true 1 (connected_world 0)) = false.
Proof.
  split; [apply connected_world_reachable|].
  pose proof (@isConnected_after nat countdown true true 1 2
                (connected_world 0) (connected_world_reachable 0)) as H.
  split; [exact (proj1 H) | exact (proj1 (proj2 H))].
Defined.

Lemma disconnect_after_connect_witness :
  reachable (sessions := countdown) true true (connected_world 0)
  /\ isConnected 2 (connected_world 0) = false
  /\ _observers (disconnect true 2 (connect true true 2 (connected_world 0)))
     = _observers (connected_world 0).
Proof.
  split; [apply connected_world_reachable|]. split; [reflexivity|].
  apply (@disconnect_after_connect nat countdown true true 2
           (connected_world 0) (connected_world_reachable 0)).
  reflexivity.
Defined.

Lemma setter_with_mutation_observer_witness :
  true = true
  /\ continuousUpdates (set_continuousUpdates true true (connected_world 0))
     = true
  /\ ev (set_continuousUpdates true true (connected_world 0))
     = setTimeout (timeoutCallback_task refresh_throttle) 30
         (ev (connected_world 0)).
Proof.
  split; [reflexivity|].
  pose proof (@setter_with_mutation_observer nat true true
                (connected_world 0) eq_refl) as H.
  destruct H as (H1 & _ & _ & _ & _ & H6 & _).
  split; [exact H1 | exact (proj2 H6)].
Defined.

Lemma registry_written_by_three_witness :
  reachable (sessions := countdown) true true (connected_world 0)
  /\ is_registry_action (P := nat) (snd (1, Refresh)) = false
  /\ is_frame (P := nat) (snd (1, Refresh)) = false
  /\ exists w',
       step (sessions := countdown) true true (1, Refresh) (connected_world 0)
       = Some w'
       /\ _observers w' = _observers (connected_world 0)
       /\ session_calls w' = session_calls (connected_world 0).
Proof.
  split; [apply connected_world_reachable|].
  split; [reflexivity|]. split; [reflexivity|].
  eexists. split; [reflexivity|].
  pose proof (@registry_written_by_three nat countdown true true (1, Refresh)
                (connected_world 0) _ (connected_world_reachable 0)
                eq_refl eq_refl eq_refl) as H.
  split; [exact (proj1 (proj2 (proj2 (proj2 (proj1 H)))))
         | exact (proj1 (proj2 H))].
Defined.

Lemma no_polling_outside_browser_witness :
  false = false
  /\ reachable (sessions := countdown) false true headless_world
  /\ _isCycleContinuous headless_world = true
  /\ continuous_calls headless_world = no_call
  /\ length (queued (ev headless_world)) <= 1.
Proof.
  split; [reflexivity|]. split; [apply headless_world_reachable|].
  split; [reflexivity|].
  pose proof (@no_polling_outside_browser nat countdown false true
                headless_world eq_refl headless_world_reachable) as H.
  split; apply H.
Defined.


Lemma burst_is_coalesced_witness :
  quiescent (connected_world 0)
  /\ _isCycleContinuous (connected_world 0) = false
  /\ (forall i,
         changes_at (_observers (connected_world 0))
           (page (connected_world 0)) i = (i <? 0))
  /\ passes (drain (sessions := countdown) true true
               (2 * burst_passes 0 [own_call; own_call])
               (refresh_all [own_call; own_call; own_call]
                  (connected_world 0)))
     = passes (connected_world 0) + 2.
Proof.
  assert (Hch : forall i,
             changes_at (_observers (connected_world 0))
               (page (connected_world 0)) i = (i <? 0))
    by (intros i; apply (countdown_settles i)).
  split; [repeat split|]. split; [reflexivity|]. split; [exact Hch|].
  apply (@burst_is_coalesced nat countdown true true 0 own_call
           [own_call; own_call] (connected_world 0));
    [repeat split | reflexivity | exact Hch].
Defined.

Lemma continuous_cycle_period_witness :
  armed own_call 30 cycling_world
  /\ (forall i,
         changes_at (_observers cycling_world) (page cycling_world) i = false)
  /\ run (sessions := countdown) true true
        (rounds [(30, 46, 116); (150, 150, 220)]) cycling_world
      = Some late_world
  /\ passes late_world = passes cycling_world + 2
  /\ passes (drain (sessions := countdown) true true (3 * 2) cycling_world)
     = passes cycling_world + 2.
Proof.
  assert (Ha : armed own_call 30 cycling_world)
    by (repeat split; apply Nat.le_0_l).
  assert (Hch : forall i,
             changes_at (_observers cycling_world) (page cycling_world) i
             = false)
    by (intros i; apply (countdown_settles i)).
  assert (Hrun : run (sessions := countdown) true true
                   (rounds [(30, 46, 116); (150, 150, 220)]) cycling_world
                 = Some late_world) by reflexivity.
  split; [exact Ha|]. split; [exact Hch|]. split; [exact Hrun|].
  pose proof (@continuous_cycle_period nat countdown true true
                [(30, 46, 116); (150, 150, 220)] cycling_world late_world
                own_call 30 Ha eq_refl eq_refl Hch) as H.
  split; [exact (proj1 (proj1 H Hrun)) | exact (proj1 (proj2 H))].
Defined.

(** In a browser with [MutationObserver]: the polling of [cycling_world]
    after its first pass, and the continuous cycle then turned off. *)
Lemma switched_off_reachable :
  reachable (sessions := countdown) true true switched_off_world.
Proof.
  exists true, 0,
    [(0, Connect 1); (30, Timer); (31, Frame);
     (40, SetContinuousUpdates false)].
  reflexivity.
Qed.


End ControllerFacts.

(** ** Further facts about the coalescer *)

Module CoalescerFacts.
Import Coalescer CoalescerProofs.

Section Facts.
Variables This Arg : Type.
Local Abbreviation callData := (callData This Arg).
Local Abbreviation world := (world This Arg).
Variable reenter : list (nat * callData) -> list callData.
Variable delay : nat.
Variable afterRAF : bool.

Local Abbreviation run := (run reenter delay afterRAF).
Local Abbreviation init := (@init This Arg).

Lemma subseq_length {A : Type} (l1 l2 : list A) :
  subseq l1 l2 -> length l1 <= length l2.
Proof. induction 1; simpl; lia. Qed.

(** X15.  Over any run of a coalescer from its creation, frame-deferred or
    not and whatever the callback does, any two invocations of the callback
    are at least [delay] apart, and no invocation is later than the clock:
    deferring to the animation frame only delays a firing.  (The controller's
    passes are thus at least 30 apart.) *)
Theorem firings_are_spaced s (w : world) :
  run s init = Some w ->
  (forall i j ti tj,
      i < j ->
      nth_error (fired_at w) i = Some ti ->
      nth_error (fired_at w) j = Some tj ->
      ti + delay <= tj)
  /\ (forall i ti, nth_error (fired_at w) i = Some ti -> ti <= now (ev w)).
Proof.
  intros Hr.
  assert (Hi : inv delay afterRAF w)
    by (eapply run_inv; [apply inv_init | exact Hr]).
  destruct Hi as (_ & Hs & Hl). split.
  - apply spaced_pairwise. exact Hs.
  - intros i ti Hi. unfold lastfire in Hl.
    assert (Hle : forall ts d, spaced delay ts ->
                    forall i ti, nth_error ts i = Some ti -> ti <= last ts d).
    { clear. induction ts as [|a r IH]; intros d Hs i ti Hi.
      - destruct i; discriminate.
      - destruct r as [|b r'].
        + destruct i as [|[|i]]; try discriminate. injection Hi as <-.
          apply Nat.le_refl.
        + destruct Hs as (Hab & Hs'). destruct i as [|i].
          * injection Hi as <-.
            specialize (IH d Hs' 0 b eq_refl).
            change (last (a :: b :: r') d) with (last (b :: r') d). lia.
          * apply (IH d Hs' i ti Hi). }
    specialize (Hle _ 0 Hs i ti Hi). lia.
Qed.

(** X16.  In every reachable state of a coalescer at most one task is
    queued: none while it holds no lead call, and then it holds no edge call
    either; exactly one while it holds a lead call, the timeout or, only when
    frame-deferred, the animation-frame callback; and a timeout that is
    queued is due no earlier than [delay] after the last invocation. *)
Theorem one_task_while_pending (w : world) :
  reachable reenter delay afterRAF w ->
  (leadCall w = None ->
   edgeCall w = None /\ timers (ev w) = [] /\ frames (ev w) = [])
  /\ (leadCall w <> None ->
      length (timers (ev w)) + length (frames (ev w)) = 1)
  /\ (frames (ev w) <> [] -> afterRAF = true)
  /\ (forall due k, In (due, k) (timers (ev w)) ->
        k = timeoutCallback_task /\ lastfire w + delay <= due).
Proof.
  intros Hr. destruct (reachable_inv Hr) as (Hp & _).
  unfold Coalescer.pending_ok in Hp.
  destruct (leadCall w) as [l|].
  - split; [discriminate|].
    destruct Hp as [(due & Ht & Hf & Hd) | (Ha & Ht & Hf & Hd)];
      rewrite Ht, Hf.
    + split; [reflexivity|]. split; [congruence|].
      intros d k [E | []]. injection E as <- <-. split; [reflexivity | exact Hd].
    + split; [reflexivity|]. split; [intros _; exact Ha|]. intros d k [].
  - destruct Hp as (He & Ht & Hf). rewrite Ht, Hf.
    split; [intros _; repeat split; assumption|].
    split; [congruence|]. split; [congruence|]. intros d k [].
Qed.

(** X17.  When the callback makes no call of its own, at every moment of
    any run the calls invoked so far, followed by the calls the coalescer
    still holds, are in order a selection of the calls issued that keeps the
    first and the last of them: no call is invented, repeated or reordered,
    and the callback has never been invoked more often than the proxy was
    called. *)
Theorem invoked_is_selection s (w : world) :
  (forall h, reenter h = []) ->
  run s init = Some w ->
  subseq (invoked w ++ pendlist w) (issued s)
  /\ length (invoked w) + pend w <= length (issued s)
  /\ (forall c rest, issued s = c :: rest ->
        exists rest', invoked w ++ pendlist w = c :: rest')
  /\ (forall pre c, issued s = pre ++ [c] ->
        exists pre', invoked w ++ pendlist w = pre' ++ [c]).
Proof.
  intros Hq Hr.
  destruct (@last_kept_run This Arg reenter delay afterRAF Hq s w Hr)
    as (Hsub & Hlast & Hfirst).
  split; [exact Hsub|]. split; [|split; assumption].
  apply subseq_length in Hsub. rewrite length_app in Hsub. exact Hsub.
Qed.

End Facts.

(** *** On concrete runs *)

Lemma firings_are_spaced_witness :
  run quiet_callback 10 true frame_script init = Some frame_world
  /\ 12 + 10 <= 25.
Proof.
  split; [reflexivity|].
  exact (proj1 (@firings_are_spaced unit nat quiet_callback 10 true
                  frame_script frame_world eq_refl)
           0 1 12 25 (Nat.lt_succ_diag_r 0) eq_refl eq_refl).
Defined.

Lemma one_task_while_pending_witness :
  reachable quiet_callback 10 true frame_world
  /\ (leadCall frame_world = None -> timers (ev frame_world) = []).
Proof.
  assert (Hr : reachable quiet_callback 10 true frame_world)
    by (exists frame_script; reflexivity).
  split; [exact Hr|].
  intros H.
  apply (@one_task_while_pending unit nat quiet_callback 10 true frame_world
           Hr).
  exact H.
Defined.

Lemma invoked_is_selection_witness :
  (forall h, quiet_callback h = [])
  /\ run quiet_callback 10 true frame_script init = Some frame_world
  /\ length (invoked frame_world) + pend frame_world
     <= length (issued frame_script).
Proof.
  split; [reflexivity|]. split; [reflexivity|].
  apply (@invoked_is_selection unit nat quiet_callback 10 true frame_script
           frame_world (fun _ => eq_refl) eq_refl).
Defined.

End CoalescerFacts.
